(** * SVG Smart Colorizer: a shallow embedding of [SVGSmartColorizer]

    The class [SVGSmartColorizer] recolours the shapes of an SVG element,
    keeps a snapshot of the original colours per document id and restores
    it on request.  This file embeds the class in Rocq:

    - the host document is a tree of element and text nodes; an element
      reference (a JavaScript object) is the path of the node below the
      target [<svg>] element, or a position in the chain of ancestors the
      target has in the surrounding document;
    - the methods run in a state-and-exception monad over the instance
      fields ([svgStates]), the document, the list of emitted events and
      the number of calls made so far to [Math.random] and [Date.now];
    - [Math.random] and [Date.now] are oracles: streams of rationals and of
      naturals, read in call order; a number is the rational it denotes,
      and an arithmetic operation rounds its exact result to the nearest
      double;
    - the element filter and the colour validator are functions that
      return a boolean: a callback that throws, or that changes the
      document or the instance, is outside the embedding;
    - the name [fillColor], which the methods read where no declaration
      of theirs is in scope, is bound or not by the host, as the scopes
      around the class and the global object of the page have it;
    - [emit] records the event it is given; the registry of listeners
      and the dispatch of an event to them are embedded on their own, in
      the module [Listeners]; the console output of [log] is outside the
      embedding. *)

From Stdlib Require Import QArith Qround Qabs Qpower Lqa.
From stdpp Require Import base gmap strings list pretty.

Local Open Scope nat_scope.
Local Set Warnings "-register-all".

(** ** The document tree *)

(** A DOM node: an element with its tag name, its attributes and its child
    nodes, or character data. *)
Inductive node : Type :=
| Elem (tagName : string) (attrs : gmap string string) (children : list node)
| Text (data : string).

(** An element reference inside the target: child positions from the
    target element down to the node. *)
Definition path := list nat.

Fixpoint get (n : node) (p : path) : option node :=
  match p with
  | [] => Some n
  | i :: r =>
      match n with
      | Elem _ _ ch => match ch !! i with Some c => get c r | None => None end
      | Text _ => None
      end
  end.

(** [update f p n] replaces the node at [p] by its image under [f]. *)
Fixpoint update (f : node -> node) (p : path) (n : node) : node :=
  match p with
  | [] => f n
  | i :: r =>
      match n with
      | Elem t a ch => Elem t a (alter (update f r) i ch)
      | Text s => Text s
      end
  end.

(** [node.remove()] for the node at a non-empty path. *)
Fixpoint remove (p : path) (n : node) : node :=
  match p with
  | [] => n
  | [i] =>
      match n with
      | Elem t a ch => Elem t a (delete i ch)
      | Text s => Text s
      end
  | i :: r =>
      match n with
      | Elem t a ch => Elem t a (alter (remove r) i ch)
      | Text s => Text s
      end
  end.

Definition tagOf (n : node) : option string :=
  match n with Elem t _ _ => Some t | Text _ => None end.

Definition attrsOf (n : node) : gmap string string :=
  match n with Elem _ a _ => a | Text _ => ∅ end.

(** A change of the attributes of a node. *)
Definition onAttrs (phi : gmap string string -> gmap string string) (n : node) : node :=
  match n with Elem t a ch => Elem t (phi a) ch | Text s => Text s end.

(** [element.setAttribute(k, v)], [element.removeAttribute(k)],
    [element.appendChild(c)] and
    [element.insertBefore(c, element.firstChild)] on the node itself. *)
Definition setAttr (k v : string) : node -> node := onAttrs (insert k v).

Definition removeAttr (k : string) : node -> node := onAttrs (delete k).

Definition appendTo (c : node) (n : node) : node :=
  match n with Elem t a ch => Elem t a (ch ++ [c]) | Text s => Text s end.

Definition insertFirst (c : node) (n : node) : node :=
  match n with Elem t a ch => Elem t a (c :: ch) | Text s => Text s end.

(** *** Selectors *)

Section Paths.
Variable sel : string -> bool.

Definition children_paths (f : node -> list path) : nat -> list node -> list path :=
  fix go (i : nat) (l : list node) : list path :=
    match l with
    | [] => []
    | c :: l' => map (cons i) (f c) ++ go (S i) l'
    end.

(** The node itself when it matches, then its descendants, in document
    order. *)
Fixpoint subtree_paths (n : node) : list path :=
  match n with
  | Text _ => []
  | Elem t _ ch =>
      (if sel t then [[]] else []) ++ children_paths subtree_paths 0 ch
  end.

(** [element.querySelectorAll(sel)]: the matching proper descendants in
    document order. *)
Definition querySelectorAll (n : node) : list path :=
  match n with
  | Text _ => []
  | Elem _ _ ch => children_paths subtree_paths 0 ch
  end.

(** [element.querySelector(sel)]: the first of them. *)
Definition querySelector (n : node) : option path :=
  head (querySelectorAll n).
End Paths.

(** ['path, rect, circle, polygon, polyline, line, ellipse'] *)
Definition paintable (t : string) : bool :=
  bool_decide (t ∈ ["path"; "rect"; "circle"; "polygon"; "polyline"; "line"; "ellipse"]).

(** ['path, rect, circle, polygon, polyline, line, ellipse, g'] *)
Definition paintable_or_g (t : string) : bool :=
  bool_decide (t ∈ ["path"; "rect"; "circle"; "polygon"; "polyline"; "line"; "ellipse"; "g"]).

(** ['defs'] *)
Definition is_defs (t : string) : bool := bool_decide (t = "defs").

(** *** The target in its document *)

(** The target element together with the elements above it in the host
    document, nearest first, each with its tag name and attributes. *)
Record dom := mkDom {
  outer : list (string * gmap string string);
  svg : node
}.

(** Where an element reference points: below the target or above it. *)
Inductive loc :=
| Inner (p : path)
| Outer (i : nat).

(** The compound selector [g[k]]: a [g] element that declares attribute
    [k]. *)
Definition declares_g (k : string) (t : string) (a : gmap string string) : bool :=
  bool_decide (t = "g") && bool_decide (is_Some (a !! k)).

Definition matches_g (k : string) (n : node) : bool :=
  match n with Elem t a _ => declares_g k t a | Text _ => false end.

(** [closest] inside the target: of the nodes on the way from [n] down to
    the node at [p], that node included, the deepest one matching [g[k]]. *)
Fixpoint closest_in (k : string) (n : node) (p : path) : option path :=
  match p with
  | [] => if matches_g k n then Some [] else None
  | i :: r =>
      match n with
      | Elem _ _ ch =>
          match ch !! i with
          | Some c =>
              match closest_in k c r with
              | Some q => Some (i :: q)
              | None => if matches_g k n then Some [] else None
              end
          | None => None
          end
      | Text _ => None
      end
  end.

(** [element.closest(`g[${k}]`)]: the element itself or its nearest
    ancestor that matches, continuing above the target when nothing below
    it matches. *)
Definition closest (k : string) (d : dom) (p : path) : option loc :=
  match closest_in k (svg d) p with
  | Some q => Some (Inner q)
  | None =>
      match list_find (fun x => declares_g k x.1 x.2 = true) (outer d) with
      | Some (i, _) => Some (Outer i)
      | None => None
      end
  end.

(** [getAttribute]: [None] is JavaScript's [null]. *)
Definition getAttribute (d : dom) (l : loc) (k : string) : option string :=
  match l with
  | Inner p => match get (svg d) p with Some n => attrsOf n !! k | None => None end
  | Outer i => match outer d !! i with Some x => x.2 !! k | None => None end
  end.

Definition setAttribute (l : loc) (k v : string) (d : dom) : dom :=
  match l with
  | Inner p => mkDom (outer d) (update (setAttr k v) p (svg d))
  | Outer i => mkDom (alter (fun x => (x.1, <[k:=v]> x.2)) i (outer d)) (svg d)
  end.

(** ** Values *)

(** A colour value as the code handles it: a string, or [undefined] when
    the palette has no entry at the sampled position. *)
Definition jsval := option string.

(** String conversion of a value passed to [setAttribute] or spliced into
    a template literal. *)
Definition toStr (v : jsval) : string := default "undefined" v.

(** Truthiness of a string-or-null/undefined value. *)
Definition truthy (v : option string) : bool :=
  match v with Some s => negb (bool_decide (s = "")) | None => false end.

(** [v && v !== 'none' && v !== 'transparent'] *)
Definition colored (v : option string) : bool :=
  truthy v && negb (bool_decide (v = Some "none")) && negb (bool_decide (v = Some "transparent")).

(** [!v || v === 'none' || v === 'transparent'] *)
Definition uncolored (v : option string) : bool :=
  negb (truthy v) || bool_decide (v = Some "none") || bool_decide (v = Some "transparent").

(** [parentG && parentG.getAttribute(k) && parentG.getAttribute(k) !== 'none'
    && parentG.getAttribute(k) !== 'transparent'] for
    [parentG = element.closest(`g[${k}]`)]. *)
Definition inheritsColor (d : dom) (element : path) (k : string) : bool :=
  match closest k d element with
  | Some parentG => colored (getAttribute d parentG k)
  | None => false
  end.

(** [String.prototype.toLowerCase] on the ASCII letters. *)
Definition lower_ascii (c : Ascii.ascii) : Ascii.ascii :=
  let n := Ascii.nat_of_ascii c in
  if (65 <=? n) && (n <=? 90) then Ascii.ascii_of_nat (n + 32) else c.

Fixpoint toLowerCase (s : string) : string :=
  match s with
  | EmptyString => EmptyString
  | String c s' => String (lower_ascii c) (toLowerCase s')
  end.

(** *** Numbers *)

(** A finite JavaScript number, an IEEE 754 binary64 value, is the
    rational it denotes.  [pow2 e] is [2^e]; [binade q] is the exponent
    [e] with [2^e <= |q| < 2^(e+1)], for [q] other than zero. *)
Definition pow2 (e : Z) : Q := (2 ^ e)%Q.

Definition binade (q : Q) : Z :=
  let e := (Z.log2 (Z.abs (Qnum q)) - Z.log2 (Zpos (Qden q)))%Z in
  if Qle_bool (pow2 e) (Qabs q) then e else (e - 1)%Z.

(** The integer nearest to [x], the even one of the two when [x] is
    half-way between them. *)
Definition roundEven (x : Q) : Z :=
  let f := Qfloor x in
  match Qcompare (x - inject_Z f) (1 # 2) with
  | Lt => f
  | Gt => (f + 1)%Z
  | Eq => if Z.even f then f else (f + 1)%Z
  end.

(** The result of an arithmetic operation whose exact value is [q]:
    [q] rounded to a significand of 53 bits, to the nearest value and to
    the even significand on a tie; below [2^-1022] the values are the
    multiples of [2^-1074].  A result of magnitude [2^1024] or more
    stands for an infinity. *)
Definition toDouble (q : Q) : Q :=
  if Qeq_bool q 0 then 0%Q
  else
    let quantum := pow2 (Z.max (binade q - 52) (-1074)) in
    (inject_Z (roundEven (q / quantum)) * quantum)%Q.

(** The rational is a finite double. *)
Definition isDouble (q : Q) : Prop :=
  (toDouble q == q)%Q /\ (Qabs q < pow2 1024)%Q.

(** ** The instance, its state and the host *)

(** [this.config] *)
Record config := mkConfig {
  colorPalette : list string;
  preserveLinearStyle : bool;
  independentColors : bool;
  gradientProbability : Q;
  debug : bool
}.

(** The fields of an instance that the colouring methods only read. *)
Record colorizer := mkColorizer {
  cfg : config;
  elementFilter : option (dom -> path -> bool);
  colorValidator : option (jsval -> bool)
}.

(** One entry of [originalState.elements]. *)
Record originalElement := mkOriginalElement {
  o_index : nat;
  o_tagName : option string;
  o_fill : option string;
  o_stroke : option string;
  o_style : option string
}.

(** A snapshot: the recorded elements and a deep copy of the first
    [defs] element, or [null]. *)
Record originalState := mkOriginalState {
  os_elements : list originalElement;
  os_defs : option node
}.

Inductive exn :=
| InvalidSvgElement
| ReferenceError (name : string)
| TypeError.

(** The events handed to [emit].  An element is given by its path below
    the target, the target itself being the empty path. *)
Inductive event :=
| ColorApplied (element : path) (attribute : string) (color : jsval) (index : option Z)
| ErrorEvent (error : exn) (element : path) (index : option nat)
| Complete (processedCount totalCount : nat)
| Reset (svgId : string).

Record state := mkState {
  svgStates : gmap string originalState;
  document : dom;
  events : list event;
  randomCalls : nat;
  nowCalls : nat
}.

(** The host: the values [Math.random()] and [Date.now()] return, call
    after call, [x.toString(36).substr(2, 9)], and what the name
    [fillColor] is bound to in the scopes around the class, the global
    object of the page included: [None] when nothing binds it, else the
    value, given by its string conversion when it is truthy and by
    [undefined] when it is falsy. *)
Record host := mkHost {
  random_at : nat -> Q;
  now_at : nat -> N;
  toString36 : Q -> string;
  fillColorBinding : option jsval
}.

(** ** The monad of the methods *)

Inductive result (A : Type) :=
| Return (a : A)
| Throw (e : exn).
Arguments Return {A} a.
Arguments Throw {A} e.

Definition M (A : Type) : Type := state -> result A * state.

Definition ret {A} (a : A) : M A := fun s => (Return a, s).

Definition bind {A B} (m : M A) (k : A -> M B) : M B :=
  fun s =>
    match m s with
    | (Return a, s') => k a s'
    | (Throw e, s') => (Throw e, s')
    end.

Definition throw {A} (e : exn) : M A := fun s => (Throw e, s).

(** [try { m } catch (error) { handler error }] *)
Definition try_catch {A} (m : M A) (handler : exn -> M A) : M A :=
  fun s =>
    match m s with
    | (Return a, s') => (Return a, s')
    | (Throw e, s') => handler e s'
    end.

Definition gets {A} (f : state -> A) : M A := fun s => (Return (f s), s).

Definition modify (f : state -> state) : M unit := fun s => (Return tt, f s).

Declare Scope js_scope.
Delimit Scope js_scope with js.
Notation "x <- m ;; k" := (bind m (fun x => k))
  (at level 100, m at next level, right associativity) : js_scope.
Notation "m ;; k" := (bind m (fun _ => k))
  (at level 100, right associativity) : js_scope.
Local Open Scope js_scope.

(** [list.forEach] with an accumulator for the variables the callback
    assigns; an exception leaves the loop. *)
Fixpoint foldM {A B} (f : B -> A -> M B) (l : list A) (b : B) : M B :=
  match l with
  | [] => ret b
  | x :: l' => b' <- f b x ;; foldM f l' b'
  end.

Definition forEach {A} (f : A -> M unit) (l : list A) : M unit :=
  foldM (fun _ x => f x) l tt.

(** The elements of a list with their positions. *)
Definition indexed {A} (l : list A) : list (nat * A) := imap pair l.

Definition set_document (d : dom) (s : state) : state :=
  mkState (svgStates s) d (events s) (randomCalls s) (nowCalls s).

Definition set_svg (n : node) (s : state) : state :=
  set_document (mkDom (outer (document s)) n) s.

Definition set_svgStates (m : gmap string originalState) (s : state) : state :=
  mkState m (document s) (events s) (randomCalls s) (nowCalls s).

Definition next_random (s : state) : state :=
  mkState (svgStates s) (document s) (events s) (S (randomCalls s)) (nowCalls s).

Definition next_now (s : state) : state :=
  mkState (svgStates s) (document s) (events s) (randomCalls s) (S (nowCalls s)).

(** [this.emit(eventName, eventData)]: the listeners are called in order
    and what they throw is swallowed; the embedding records the call. *)
Definition emit (e : event) : M unit :=
  modify (fun s => mkState (svgStates s) (document s) (events s ++ [e])
                     (randomCalls s) (nowCalls s)).

(** The options of [applyRandomPathColors]. *)
Record pathOptions := mkPathOptions {
  pathIndices : option (list Z);
  opt_independentColors : option bool
}.

(** ** The methods of [SVGSmartColorizer] *)

Section Methods.
Variable this : colorizer.
Variable h : host.

(** [Math.random()] and [Date.now()] *)
Definition Math_random : M Q :=
  fun s => (Return (random_at h (randomCalls s)), next_random s).

Definition Date_now : M N :=
  fun s => (Return (now_at h (nowCalls s)), next_now s).

(** The identifier [fillColor] where no declaration of the method is in
    scope: the binding of the host, or a [ReferenceError]. *)
Definition outerFillColor : M jsval :=
  match fillColorBinding h with
  | Some value => ret value
  | None => throw (ReferenceError "fillColor")
  end.

(** [shouldProcessElementColor(element, attribute)] *)
Definition shouldProcessElementColor (d : dom) (element : path) (attribute : string) : bool :=
  if match elementFilter this with Some filter => negb (filter d element) | None => false end
  then false
  else
    let ownValue := getAttribute d (Inner element) attribute in
    if colored ownValue then true
    else if uncolored ownValue then
      if inheritsColor d element attribute then true
      else if bool_decide (attribute = "fill") then
        let ownStroke := getAttribute d (Inner element) "stroke" in
        let hasStroke := colored ownStroke || inheritsColor d element "stroke" in
        if hasStroke && preserveLinearStyle (cfg this) then false else true
      else false
    else false.

(** [colors[Math.floor(r * colors.length)]]: the product is a double,
    [Math.floor] is exact, and a position that is negative, an infinity
    or past the end holds [undefined]. *)
Definition paletteAt (colors : list string) (r : Q) : jsval :=
  let product := toDouble (r * inject_Z (Z.of_nat (length colors))) in
  if Qle_bool (pow2 1024) (Qabs product) then None
  else
    let k := Qfloor product in
    if (0 <=? k)%Z then colors !! Z.to_nat k else None.

(** The value [generateRandomColor] returns when [Math.random()]
    returned [r]. *)
Definition sampleColor (r : Q) : jsval :=
  let randomColor := paletteAt (colorPalette (cfg this)) r in
  if match colorValidator this with
     | Some validator => negb (validator randomColor)
     | None => false
     end
  then Some "#409eff"
  else randomColor.

(** [generateRandomColor()] *)
Definition generateRandomColor : M jsval :=
  r <- Math_random ;;
  ret (sampleColor r).

(** The [linearGradient] element [generateRandomGradient] builds. *)
Definition gradientElement (gradientId : string) (color1 color2 : jsval) : node :=
  Elem "linearGradient"
    (<["y2" := "100%"]> (<["x2" := "100%"]> (<["y1" := "0%"]> (<["x1" := "0%"]>
       (<["id" := gradientId]> ∅)))))
    [ Elem "stop" (<["stop-color" := toStr color1]> (<["offset" := "0%"]> ∅)) [];
      Elem "stop" (<["stop-color" := toStr color2]> (<["offset" := "100%"]> ∅)) [] ].

(** [generateRandomGradient(id)]: the gradient element and the [url]
    token. *)
Definition generateRandomGradient (id : string) : M (node * string) :=
  color1 <- generateRandomColor ;;
  color2 <- generateRandomColor ;;
  now <- Date_now ;;
  let gradientId := "gradient-" +:+ id +:+ "-" +:+ pretty now in
  ret (gradientElement gradientId color1 color2, "url(#" +:+ gradientId +:+ ")").

(** The record [saveOriginalState] pushes for the element at [p]. *)
Definition originalElementOf (d : dom) (index : nat) (p : path) : originalElement :=
  mkOriginalElement index
    (match get (svg d) p with Some n => tagOf n | None => None end)
    (getAttribute d (Inner p) "fill")
    (getAttribute d (Inner p) "stroke")
    (getAttribute d (Inner p) "style").

(** [saveOriginalState(svgElement, svgId)]; [cloneNode(true)] copies the
    subtree, which is the subtree itself as a value. *)
Definition saveOriginalState (svgId : string) : M unit :=
  s <- gets id ;;
  if bool_decide (is_Some (svgStates s !! svgId)) then ret tt
  else
    let d := document s in
    let elements := querySelectorAll paintable_or_g (svg d) in
    let originalState :=
      mkOriginalState
        (imap (originalElementOf d) elements)
        (match querySelector is_defs (svg d) with
         | Some p => get (svg d) p
         | None => None
         end) in
    modify (set_svgStates (<[svgId := originalState]> (svgStates s))).

(** [applyColorToElement(element, attribute, color)] *)
Definition applyColorToElement (element : path) (attribute : string) (color : jsval) : M unit :=
  d <- gets document ;;
  let originalValue := getAttribute d (Inner element) attribute in
  match (if uncolored originalValue then closest attribute d element else None) with
  | Some parentG => modify (set_document (setAttribute parentG attribute (toStr color) d))
  | None => modify (set_document (setAttribute (Inner element) attribute (toStr color) d))
  end.

(** [createDefsElement(svgElement)]: the new [defs] element becomes the
    first child of the target. *)
Definition createDefsElement : M path :=
  s <- gets id ;;
  modify (set_svg (insertFirst (Elem "defs" ∅ []) (svg (document s)))) ;;
  ret [0].

(** A reference taken before [createDefsElement] ran denotes the same
    object afterwards: its first step moves one position to the right. *)
Definition relocate (p : path) : path :=
  match p with
  | [] => []
  | i :: r => S i :: r
  end.

(** [svgElement.id]: the [id] attribute, or the empty string. *)
Definition idOf (n : node) : string := default "" (attrsOf n !! "id").

(** The body of the [try] inside the [forEach] of [applyRandomColors].
    The variable [fillColor] is declared with [let] inside the block of
    [if (shouldProcessFill)]; the occurrence of [fillColor] in the block
    of [if (shouldProcessStroke)] is outside that scope and refers to
    the binding of the scopes around the class: evaluating it throws a
    [ReferenceError] when there is none. *)
Definition colorElement (svgId : string) (defsElement : path) (index : nat) (element : path) : M unit :=
  d <- gets document ;;
  let shouldProcessFill := shouldProcessElementColor d element "fill" in
  let shouldProcessStroke := shouldProcessElementColor d element "stroke" in
  (if shouldProcessFill then
     r <- Math_random ;;
     let useGradient := negb (Qle_bool (gradientProbability (cfg this)) r) in
     fillColor <-
       (if useGradient then
          gradientData <- generateRandomGradient (svgId +:+ "-fill-" +:+ pretty index) ;;
          modify (fun s => set_svg (update (appendTo gradientData.1) defsElement (svg (document s))) s) ;;
          ret (Some gradientData.2)
        else generateRandomColor) ;;
     applyColorToElement element "fill" fillColor ;;
     emit (ColorApplied element "fill" fillColor None)
   else ret tt) ;;
  (if shouldProcessStroke then
     strokeColor <-
       (if independentColors (cfg this) then generateRandomColor
        else
          fillColor <- outerFillColor ;;
          if truthy fillColor then ret fillColor else generateRandomColor) ;;
     applyColorToElement element "stroke" strokeColor ;;
     emit (ColorApplied element "stroke" strokeColor None)
   else ret tt).

(** [applyRandomColors(svgElement, options)]; the options are not read. *)
Definition applyRandomColors : M bool :=
  try_catch
    (s <- gets id ;;
     match svg (document s) with
     | Text _ => throw TypeError
     | Elem t a _ =>
         if negb (bool_decide (toLowerCase t = "svg")) then
           emit (ErrorEvent InvalidSvgElement [] None) ;;
           ret false
         else
           svgId <-
             (if truthy (Some (idOf (svg (document s)))) then ret (idOf (svg (document s)))
              else
                now <- Date_now ;;
                r <- Math_random ;;
                ret ("svg-" +:+ pretty now +:+ "-" +:+ toString36 h r)) ;;
           saveOriginalState svgId ;;
           elements <- gets (fun s => querySelectorAll paintable (svg (document s))) ;;
           if bool_decide (length elements = 0) then ret false
           else
             found <- gets (fun s => querySelector is_defs (svg (document s))) ;;
             refs <-
               match found with
               | Some defsElement => ret (defsElement, elements)
               | None =>
                   defsElement <- createDefsElement ;;
                   ret (defsElement, map relocate elements)
               end ;;
             processedCount <-
               foldM
                 (fun processedCount '(index, element) =>
                    try_catch
                      (colorElement svgId refs.1 index element ;;
                       ret (S processedCount))
                      (fun error =>
                         emit (ErrorEvent error element (Some index)) ;;
                         ret processedCount))
                 (indexed refs.2) 0 ;;
             emit (Complete processedCount (length elements)) ;;
             ret true
     end)
    (fun error =>
       emit (ErrorEvent error [] None) ;;
       ret false).

(** The callback of [targetIndices.forEach] in [applyRandomPathColors].
    [fillColor] is declared with [const] inside the block of
    [if (shouldProcessFill)] and is out of scope where the stroke colour
    is computed, as in [colorElement]: the name refers to the binding of
    the scopes around the class. *)
Definition colorPath (independent : bool) (elements : list path)
    (processedCount : nat) (index : Z) : M nat :=
  if (0 <=? index)%Z && (index <? Z.of_nat (length elements))%Z then
    match elements !! Z.to_nat index with
    | None => throw TypeError
    | Some element =>
        d <- gets document ;;
        let shouldProcessFill := shouldProcessElementColor d element "fill" in
        let shouldProcessStroke := shouldProcessElementColor d element "stroke" in
        (if shouldProcessFill then
           fillColor <- generateRandomColor ;;
           applyColorToElement element "fill" fillColor ;;
           emit (ColorApplied element "fill" fillColor (Some index))
         else ret tt) ;;
        (if shouldProcessStroke then
           strokeColor <-
             (if independent then generateRandomColor
              else
                fillColor <- outerFillColor ;;
                if truthy fillColor then ret fillColor else generateRandomColor) ;;
           applyColorToElement element "stroke" strokeColor ;;
           emit (ColorApplied element "stroke" strokeColor (Some index))
         else ret tt) ;;
        ret (S processedCount)
    end
  else ret processedCount.

(** [applyRandomPathColors(svgElement, options)] *)
Definition applyRandomPathColors (options : pathOptions) : M bool :=
  try_catch
    (let independent := default true (opt_independentColors options) in
     s <- gets id ;;
     match svg (document s) with
     | Text _ => throw TypeError
     | Elem _ _ _ =>
         let elements := querySelectorAll paintable (svg (document s)) in
         if bool_decide (length elements = 0) then ret false
         else
           let targetIndices :=
             default (map Z.of_nat (seq 0 (length elements))) (pathIndices options) in
           processedCount <- foldM (colorPath independent elements) targetIndices 0 ;;
           emit (Complete processedCount (length targetIndices)) ;;
           ret true
     end)
    (fun error =>
       emit (ErrorEvent error [] None) ;;
       ret false).

(** [value !== null ? element.setAttribute(k, value) : element.removeAttribute(k)] *)
Definition restoreAttribute (k : string) (value : option string) (n : node) : node :=
  match value with
  | Some v => setAttr k v n
  | None => removeAttr k n
  end.

(** The three attributes of an element put back as recorded. *)
Definition restoreNode (o : originalElement) (n : node) : node :=
  restoreAttribute "style" (o_style o)
    (restoreAttribute "stroke" (o_stroke o)
       (restoreAttribute "fill" (o_fill o) n)).

(** The callback of [originalState.elements.forEach] in [resetColors]. *)
Definition restoreElement (elements : list path) (o : originalElement) : M unit :=
  s <- gets id ;;
  match elements !! o_index o with
  | None => ret tt
  | Some element =>
      match get (svg (document s)) element with
      | None => ret tt
      | Some n =>
          if bool_decide (tagOf n = o_tagName o) then
            modify (fun s => set_svg (update (restoreNode o) element (svg (document s))) s)
          else ret tt
      end
  end.

(** [resetColors(svgElement)] *)
Definition resetColors : M bool :=
  try_catch
    (s <- gets id ;;
     let svgId := idOf (svg (document s)) in
     match (if truthy (Some svgId) then svgStates s !! svgId else None) with
     | None => ret false
     | Some originalState =>
         let elements := querySelectorAll paintable_or_g (svg (document s)) in
         forEach (restoreElement elements) (os_elements originalState) ;;
         currentDefs <- gets (fun s => querySelector is_defs (svg (document s))) ;;
         match currentDefs with
         | Some p => modify (fun s => set_svg (remove p (svg (document s))) s)
         | None => ret tt
         end ;;
         match os_defs originalState with
         | Some defs => modify (fun s => set_svg (insertFirst defs (svg (document s))) s)
         | None => ret tt
         end ;;
         emit (Reset svgId) ;;
         ret true
     end)
    (fun error =>
       emit (ErrorEvent error [] None) ;;
       ret false).

End Methods.

(** * Notions of the statements and of the proofs *)

(** ** Colour state, tokens and write targets *)

(** The element has a colour on channel [k], its own or the one of the
    nearest [g] that declares [k]: the test the classifier computes for
    [hasStroke], for either channel. *)
Definition hasColor (d : dom) (element : path) (k : string) : bool :=
  colored (getAttribute d (Inner element) k) || inheritsColor d element k.

(** No element filter is set, or the filter accepts the element. *)
Definition accepted (this : colorizer) (d : dom) (element : path) : Prop :=
  match elementFilter this with
  | Some filter => filter d element = true
  | None => True
  end.

(** The [url] token of a call of [generateRandomGradient]. *)
Definition tokenOf (r : result (node * string) * state) : option string :=
  match r.1 with
  | Return gradientData => Some gradientData.2
  | Throw _ => None
  end.

(** The identifier [generateRandomGradient] builds from the seed and the
    clock. *)
Definition gradientIdOf (id : string) (now : N) : string :=
  "gradient-" +:+ id +:+ "-" +:+ pretty now.

(** The location is a [g] element of the document that declares [k]. *)
Definition qualifies (k : string) (d : dom) (l : loc) : Prop :=
  match l with
  | Inner p => exists n, get (svg d) p = Some n /\ matches_g k n = true
  | Outer i => exists x, outer d !! i = Some x /\ declares_g k x.1 x.2 = true
  end.

(** The location is the element or one of its ancestors. *)
Definition encloses (l : loc) (element : path) : Prop :=
  match l with
  | Inner p => p `prefix_of` element
  | Outer _ => True
  end.

(** Of two locations enclosing the same element, the first is strictly
    nearer to it. *)
Definition nearer (l1 l2 : loc) : Prop :=
  match l1, l2 with
  | Inner p1, Inner p2 => length p2 < length p1
  | Inner _, Outer _ => True
  | Outer _, Inner _ => False
  | Outer i, Outer j => i < j
  end.

(** [g] is the nearest [g] element declaring [k] among the element and
    its ancestors. *)
Definition nearest_g (k : string) (d : dom) (element : path) (g : loc) : Prop :=
  encloses g element /\ qualifies k d g /\
  forall g', encloses g' element -> qualifies k d g' -> ~ nearer g' g.

(** ** Shapes, recolourings and snapshots *)

(** A function on nodes that keeps the tag and the children, as the
    attribute writes do. *)
Definition keeps_shape (f : node -> node) : Prop :=
  forall n, match n, f n with
            | Elem t _ ch, Elem t' _ ch' => t = t' /\ ch = ch'
            | Text s, Text s' => s = s'
            | _, _ => False
            end.

(** The location [applyColorToElement] writes to. *)
Definition writeTarget (d : dom) (element : path) (attribute : string) : loc :=
  match (if uncolored (getAttribute d (Inner element) attribute)
         then closest attribute d element else None) with
  | Some parentG => parentG
  | None => Inner element
  end.

(** A function on nodes that keeps the tag and every child already
    there, as attribute writes and [appendChild] do. *)
Definition extends (f : node -> node) : Prop :=
  forall n,
    tagOf (f n) = tagOf n /\
    forall i c, get n [i] = Some c -> get (f n) [i] = Some c.

(** The effect of one callback of the restore loop on the target. *)
Definition restoreStep (elements : list path) (t : node) (o : originalElement) : node :=
  match elements !! o_index o with
  | None => t
  | Some element =>
      match get t element with
      | None => t
      | Some n =>
          if bool_decide (tagOf n = o_tagName o) then update (restoreNode o) element t else t
      end
  end.

Definition restoreValue (k : string) (value : option string)
    (a : gmap string string) : gmap string string :=
  match value with Some v => <[k:=v]> a | None => delete k a end.

Definition restoreMap (o : originalElement) (a : gmap string string) : gmap string string :=
  restoreValue "style" (o_style o)
    (restoreValue "stroke" (o_stroke o) (restoreValue "fill" (o_fill o) a)).

(** The test of the restore loop for the record [o] and the element at
    position [i] of the selection, whose tag name is [tagName]:
    [elements[o.index]] is that element and
    [element.tagName === o.tagName]. *)
Definition matchesRecord (i : nat) (tagName : option string) (o : originalElement) : bool :=
  bool_decide (o_index o = i) && bool_decide (tagName = o_tagName o).

(** The record the restore loop applies last to the node [n] at position
    [i] of the selection, if it applies any. *)
Definition recordFor (recs : list originalElement) (i : nat) (n : node)
  : option originalElement :=
  last (filter (fun o => matchesRecord i (tagOf n) o = true) recs).

(** The trees a colouring pass can produce from [t0]: it writes [fill]
    and [stroke] on elements matched by the selector of the snapshot, and
    appends gradients to the element at [dp]. *)
Inductive recolored (dp : path) (t0 : node) : node -> Prop :=
| recolored_start : recolored dp t0 t0
| recolored_attr t p k v :
    recolored dp t0 t ->
    p ∈ querySelectorAll paintable_or_g t0 ->
    k = "fill" \/ k = "stroke" ->
    recolored dp t0 (update (setAttr k v) p t)
| recolored_gradient t gradientId color1 color2 :
    recolored dp t0 t ->
    recolored dp t0 (update (appendTo (gradientElement gradientId color1 color2)) dp t).

(** The trees that differ from [t0] by gradients appended at [dp]. *)
Inductive grown (dp : path) (t0 : node) : node -> Prop :=
| grown_start : grown dp t0 t0
| grown_gradient t gradientId color1 color2 :
    grown dp t0 t ->
    grown dp t0 (update (appendTo (gradientElement gradientId color1 color2)) dp t).

(** The records of a snapshot describe the elements of [t] at the paths
    [elements], position by position. *)
Definition aligned (recs : list originalElement) (elements : list path) (t : node) : Prop :=
  length recs = length elements /\
  forall i o, recs !! i = Some o ->
    o_index o = i /\
    exists p n, elements !! i = Some p /\ get t p = Some n /\
      o_tagName o = tagOf n /\
      o_fill o = attrsOf n !! "fill" /\
      o_stroke o = attrsOf n !! "stroke" /\
      o_style o = attrsOf n !! "style".

(** The target without its first [defs] element. *)
Definition withoutDefs (t : node) : node :=
  match querySelector is_defs t with
  | Some p => remove p t
  | None => t
  end.

(** The first [defs] element of the target, if any. *)
Definition firstDefs (t : node) : option node :=
  match querySelector is_defs t with
  | Some p => get t p
  | None => None
  end.

(** A copy of the recorded [defs] element, if any, as first child. *)
Definition putDefs (defs : option node) (t : node) : node :=
  match defs with
  | Some d => insertFirst d t
  | None => t
  end.

(** [m] keeps [I], whether it returns or throws. *)
Definition preserves {A} (I : state -> Prop) (m : M A) : Prop :=
  forall s, I s -> I (m s).2.

(** A property of the store and of the target only. *)
Definition framed (P : gmap string originalState -> node -> Prop) (s : state) : Prop :=
  P (svgStates s) (svg (document s)).

(** The store is the one the pass started with and the target is a
    recolouring of the tree the pass started with. *)
Definition pass_inv (store : gmap string originalState) (dp : path) (t0 : node)
  : state -> Prop :=
  framed (fun m t => m = store /\ recolored dp t0 t).

(** The snapshot [saveOriginalState] takes of a document. *)
Definition snapshotOf (d : dom) : originalState :=
  mkOriginalState
    (imap (originalElementOf d) (querySelectorAll paintable_or_g (svg d)))
    (firstDefs (svg d)).

Definition newDefs : node := Elem "defs" ∅ [].


(** The target with its first [defs] element moved to the front. *)
Definition defsFirst (t : node) : node := putDefs (firstDefs t) (withoutDefs t).

(** Tag, [fill], [stroke] and [style] of the elements the snapshot
    selector matches, in document order. *)
Definition elementRecords (t : node)
  : list (option string * option string * option string * option string) :=
  map (fun p =>
         match get t p with
         | Some n => (tagOf n, attrsOf n !! "fill", attrsOf n !! "stroke", attrsOf n !! "style")
         | None => (None, None, None, None)
         end)
      (querySelectorAll paintable_or_g t).

(** The claim of restoration, from tree [t0] to tree [t]: the first
    [defs] element has the same content, and outside of it the matched
    elements are the same, in the same order, with the same [fill],
    [stroke] and [style]. *)
Definition restored (t0 t : node) : Prop :=
  firstDefs t = firstDefs t0 /\
  elementRecords (withoutDefs t) = elementRecords (withoutDefs t0).

(** ** Example instances, hosts and documents *)

Definition attrsFrom (l : list (string * string)) : gmap string string := list_to_map l.

(** The configuration the constructor builds when given no options. *)
Definition defaultConfig : config :=
  mkConfig
    [ "#ff6b6b"; "#4ecdc4"; "#45b7d1"; "#96ceb4"; "#feca57";
      "#ff9ff3"; "#54a0ff"; "#5f27cd"; "#00d2d3"; "#ff9f43";
      "#10ac84"; "#ee5253"; "#0abde3"; "#3742fa"; "#2f3542";
      "#409eff"; "#67c23a"; "#e6a23c"; "#f56c6c"; "#909399" ]
    true true (3 # 10)%Q false.

(** [new SVGSmartColorizer()] *)
Definition defaultColorizer : colorizer := mkColorizer defaultConfig None None.

(** [new SVGSmartColorizer({ independentColors: false })] *)
Definition dependentColorizer : colorizer :=
  mkColorizer
    (mkConfig (colorPalette defaultConfig) true false (3 # 10)%Q false) None None.

(** [new SVGSmartColorizer({ preserveLinearStyle: false })] after
    [setElementFilter(() => false)]. *)
Definition rejectingColorizer : colorizer :=
  mkColorizer
    (mkConfig (colorPalette defaultConfig) false true (3 # 10)%Q false)
    (Some (fun _ _ => false)) None.

(** [new SVGSmartColorizer()] after
    [setColorValidator(color => color === '#ff6b6b')]. *)
Definition pickyColorizer : colorizer :=
  mkColorizer defaultConfig None (Some (fun color => bool_decide (color = Some "#ff6b6b"))).

(** A host whose clock stands still over the calls made, and one whose
    clock advances between any two calls; nothing binds [fillColor]
    around the class. *)
Definition steadyHost : host :=
  mkHost (fun _ => (1 # 2)%Q) (fun _ => 1700000000000%N) (fun _ => "k3j9x0q2a") None.

Definition tickingHost : host :=
  mkHost (fun _ => (1 # 2)%Q) (fun n => (1700000000000 + N.of_nat n)%N) (fun _ => "k3j9x0q2a")
    None.

(** A page with an element of id [fillColor]: the global object binds
    the name to that element. *)
Definition namedHost : host :=
  mkHost (fun _ => (1 # 2)%Q) (fun _ => 1700000000000%N) (fun _ => "k3j9x0q2a")
    (Some (Some "[object HTMLDivElement]")).

Definition stateOf (above : list (string * gmap string string)) (target : node) : state :=
  mkState ∅ (mkDom above target) [] 0 0.

(** [<svg id="icon"> text <g stroke="#000"><circle/><path fill="none"/></g>
    <defs><linearGradient id="g1"/></defs>
    <rect fill="red" style="opacity:1"/></svg>] *)
Definition iconSvg : node :=
  Elem "svg" (attrsFrom [("id", "icon")])
    [ Text " ";
      Elem "g" (attrsFrom [("stroke", "#000")])
        [ Elem "circle" ∅ []; Elem "path" (attrsFrom [("fill", "none")]) [] ];
      Elem "defs" ∅ [ Elem "linearGradient" (attrsFrom [("id", "g1")]) [] ];
      Elem "rect" (attrsFrom [("fill", "red"); ("style", "opacity:1")]) [] ].

(** [<svg><path fill="red"/></svg>]: a target without an [id]. *)
Definition anonymousSvg : node :=
  Elem "svg" ∅ [ Elem "path" (attrsFrom [("fill", "red")]) [] ].

(** [<svg id="a"><path fill="red" stroke="#000"/></svg>] *)
Definition outlinedSvg : node :=
  Elem "svg" (attrsFrom [("id", "a")])
    [ Elem "path" (attrsFrom [("fill", "red"); ("stroke", "#000")]) [] ].

(** [<svg id="b"><path stroke="#000"/><path/></svg>] *)
Definition linearSvg : node :=
  Elem "svg" (attrsFrom [("id", "b")])
    [ Elem "path" (attrsFrom [("stroke", "#000")]) []; Elem "path" ∅ [] ].

(** [new SVGSmartColorizer({ preserveLinearStyle: false })] *)
Definition fillingColorizer : colorizer :=
  mkColorizer
    (mkConfig (colorPalette defaultConfig) false true (3 # 10)%Q false) None None.

(** [new SVGSmartColorizer({ gradientProbability: 0.7 })] *)
Definition gradientColorizer : colorizer :=
  mkColorizer
    (mkConfig (colorPalette defaultConfig) true true (7 # 10)%Q false) None None.

(** [<svg id="grp"><g fill="#333"><path/><circle/></g></svg>] *)
Definition groupSvg : node :=
  Elem "svg" (attrsFrom [("id", "grp")])
    [ Elem "g" (attrsFrom [("fill", "#333")])
        [ Elem "path" ∅ []; Elem "circle" ∅ [] ] ].

(** [<svg id="line"><path fill="none" stroke="#000"/><rect/></svg>] *)
Definition lineIconSvg : node :=
  Elem "svg" (attrsFrom [("id", "line")])
    [ Elem "path" (attrsFrom [("fill", "none"); ("stroke", "#000")]) []; Elem "rect" ∅ [] ].

(** ** Indices and events of [applyRandomPathColors] *)

(** [index >= 0 && index < elements.length] *)
Definition inRange (elements : list path) (index : Z) : bool :=
  (0 <=? index)%Z && (index <? Z.of_nat (length elements))%Z.

Definition isColorApplied (e : event) : Prop :=
  match e with ColorApplied _ _ _ _ => True | _ => False end.

(** A state that differs from [s] by colour writes and [colorApplied]
    events only. *)
Definition coloredFrom (s s' : state) : Prop :=
  svgStates s' = svgStates s /\
  exists evs, events s' = events s ++ evs /\ Forall isColorApplied evs.

(** ** Invariants of the store and of the events *)

(** [I] depends on the store and the events only. *)
Definition doc_free (I : state -> Prop) : Prop :=
  forall s d rc nc, I s -> I (mkState (svgStates s) d (events s) rc nc).

(** [I] survives the emission of an event. *)
Definition emit_stable (I : state -> Prop) : Prop :=
  forall s e, I s -> I (emit e s).2.

(** The events of [s0] are the first events of [s]. *)
Definition eventsFrom (s0 s : state) : Prop := events s0 `prefix_of` events s.

(** The identifier [applyRandomColors] files the snapshot under. *)
Definition svgIdOf (h : host) (s : state) : string :=
  if truthy (Some (idOf (svg (document s)))) then idOf (svg (document s))
  else "svg-" +:+ pretty (now_at h (nowCalls s)) +:+ "-" +:+
       toString36 h (random_at h (randomCalls s)).

(** * The other methods of the class *)

(** ** Filter, validator and store *)

(** [setElementFilter(filter)] and [setColorValidator(validator)]: the
    argument replaces the field; [None] is [null]. *)
Definition setElementFilter (filter : option (dom -> path -> bool)) (this : colorizer)
  : colorizer :=
  mkColorizer (cfg this) filter (colorValidator this).

Definition setColorValidator (validator : option (jsval -> bool)) (this : colorizer)
  : colorizer :=
  mkColorizer (cfg this) (elementFilter this) validator.

(** [clearStates()] *)
Definition clearStates : M unit := modify (set_svgStates ∅).

(** [getVersion()] *)
Definition getVersion : string := "1.0.0".

(** ** The colour state of a target *)

(** The flags of [getColorState] are built with [&&] and [||], which
    return one of their operands: a flag is [null], a string or a
    boolean. *)
Inductive flag :=
| FNull
| FStr (s : string)
| FBool (b : bool).

Definition ofAttr (v : option string) : flag :=
  match v with Some s => FStr s | None => FNull end.

Definition flagTruthy (f : flag) : bool :=
  match f with
  | FNull => false
  | FStr s => negb (bool_decide (s = ""))
  | FBool b => b
  end.

(** [a && b] and [a || b] *)
Definition flagAnd (a b : flag) : flag := if flagTruthy a then b else a.

Definition flagOr (a b : flag) : flag := if flagTruthy a then a else b.

(** [v.startsWith('url(')], evaluated for strings only. *)
Definition startsWithUrl (v : option string) : bool :=
  match v with Some s => String.prefix "url(" s | None => false end.

(** [v && v !== 'none' && v !== 'transparent'], as a value. *)
Definition hasOwn (v : option string) : flag :=
  flagAnd (flagAnd (ofAttr v) (FBool (negb (bool_decide (v = Some "none")))))
          (FBool (negb (bool_decide (v = Some "transparent")))).

(** [(fill && fill.startsWith('url(')) || (stroke && stroke.startsWith('url('))] *)
Definition hasGradientFlag (fill stroke : option string) : flag :=
  flagOr (flagAnd (ofAttr fill) (FBool (startsWithUrl fill)))
         (flagAnd (ofAttr stroke) (FBool (startsWithUrl stroke))).

(** [checkInheritance(element)] *)
Definition checkInheritance (d : dom) (element : path) : bool :=
  let fillParent := closest "fill" d element in
  let strokeParent := closest "stroke" d element in
  bool_decide (is_Some (match fillParent with Some g => Some g | None => strokeParent end)).

(** One entry of [colorState.elements]. *)
Record elementColor := mkElementColor {
  ec_index : nat;
  ec_tagName : option string;
  ec_fill : option string;
  ec_stroke : option string;
  ec_hasFill : flag;
  ec_hasStroke : flag;
  ec_hasGradient : flag;
  ec_hasInheritance : bool
}.

(** The object [getColorState] returns. *)
Record colorState := mkColorState {
  totalElements : nat;
  fillElements : nat;
  strokeElements : nat;
  gradientElements : nat;
  inheritedElements : nat;
  cs_elements : list elementColor
}.

(** The entry pushed for the element at [element]. *)
Definition elementColorOf (d : dom) (index : nat) (element : path) : elementColor :=
  let fill := getAttribute d (Inner element) "fill" in
  let stroke := getAttribute d (Inner element) "stroke" in
  mkElementColor index
    (match get (svg d) element with Some n => tagOf n | None => None end)
    fill stroke (hasOwn fill) (hasOwn stroke) (hasGradientFlag fill stroke)
    (checkInheritance d element).

(** [if (flag) counter++] *)
Definition countIf (f : bool) (counter : nat) : nat := if f then S counter else counter.

(** The callback of [elements.forEach] in [getColorState]. *)
Definition countElement (d : dom) (cs : colorState) (x : nat * path) : colorState :=
  let e := elementColorOf d x.1 x.2 in
  mkColorState (totalElements cs)
    (countIf (flagTruthy (ec_hasFill e)) (fillElements cs))
    (countIf (flagTruthy (ec_hasStroke e)) (strokeElements cs))
    (countIf (flagTruthy (ec_hasGradient e)) (gradientElements cs))
    (countIf (ec_hasInheritance e) (inheritedElements cs))
    (cs_elements cs ++ [e]).

(** [getColorState(svgElement)]: the state, or [null] after an
    exception. *)
Definition getColorState : M (option colorState) :=
  try_catch
    (s <- gets id ;;
     match svg (document s) with
     | Text _ => throw TypeError
     | Elem _ _ _ =>
         let elements := querySelectorAll paintable (svg (document s)) in
         ret (Some (fold_left (countElement (document s)) (indexed elements)
                      (mkColorState (length elements) 0 0 0 0 [])))
     end)
    (fun error => ret None).

(** ** Event listeners *)

(** The name under which each event is emitted. *)
Definition eventNameOf (e : event) : string :=
  match e with
  | ColorApplied _ _ _ _ => "colorApplied"
  | ErrorEvent _ _ _ => "error"
  | Complete _ _ => "complete"
  | Reset _ => "reset"
  end.

Module Listeners.

(** A listener is a function object.  [indexOf] compares function objects
    by identity: the embedding names each of them by a number, and the
    host says what calling it does.  [emit] below is the dispatch to
    listeners that make no call of [on] or [off] while they run;
    [emitLive] is the dispatch to listeners that do. *)
Definition listener := nat.

(** [this.eventListeners] *)
Abbreviation eventListeners := (gmap string (list listener)).

(** [on(eventName, listener)] *)
Definition on (eventName : string) (l : listener) (m : eventListeners) : eventListeners :=
  let m' := if bool_decide (is_Some (m !! eventName)) then m else <[eventName := []]> m in
  alter (fun listeners => listeners ++ [l]) eventName m'.

(** [listeners.indexOf(listener)] *)
Definition indexOf (listeners : list listener) (l : listener) : Z :=
  match list_find (fun x => x = l) listeners with
  | Some (i, _) => Z.of_nat i
  | None => (-1)%Z
  end.

(** [off(eventName, listener)]: [splice(index, 1)] on the stored array. *)
Definition off (eventName : string) (l : listener) (m : eventListeners) : eventListeners :=
  let listeners := default [] (m !! eventName) in
  let index := indexOf listeners l in
  if (-1 <? index)%Z then alter (delete (Z.to_nat index)) eventName m else m.

(** [emit(eventName, eventData)], where [call l eventData] is what the
    function object [l] does when it is called with [eventData]. *)
Definition emit (call : listener -> event -> M unit) (m : eventListeners)
    (eventName : string) (eventData : event) : M unit :=
  let listeners := default [] (m !! eventName) in
  forEach (fun l => try_catch (call l eventData) (fun error => ret tt)) listeners.

(** *** Listeners that register and unregister *)

(** A call of [on] or of [off] that a listener makes while it runs. *)
Inductive registryCall :=
| CallOn (eventName : string) (l : listener)
| CallOff (eventName : string) (l : listener).

Definition perform (m : eventListeners) (c : registryCall) : eventListeners :=
  match c with
  | CallOn eventName l => on eventName l m
  | CallOff eventName l => off eventName l m
  end.

(** [listeners.forEach(callback)] over the array stored in the registry,
    from position [k] on, [n] positions.  [forEach] reads the length of
    the array once, before the first call, and looks each position below
    it up in the array as it is by then: [on] pushes onto that array and
    [off] splices it, so a position can hold another listener than at
    the start, and a position past the end is skipped.  [call l
    eventData] is what the function object [l] does to the state when it
    is called with [eventData], [calls l eventData] are its calls of
    [on] and [off]. *)
Fixpoint dispatch (call : listener -> event -> M unit)
    (calls : listener -> event -> list registryCall)
    (eventName : string) (eventData : event) (k n : nat) (m : eventListeners)
  : M eventListeners :=
  match n with
  | 0 => ret m
  | S n' =>
      match default [] (m !! eventName) !! k with
      | Some l =>
          try_catch (call l eventData) (fun error => ret tt) ;;
          dispatch call calls eventName eventData (S k) n'
            (fold_left perform (calls l eventData) m)
      | None => dispatch call calls eventName eventData (S k) n' m
      end
  end.

(** [emit(eventName, eventData)] with such listeners; it returns the
    registry they leave behind. *)
Definition emitLive (call : listener -> event -> M unit)
    (calls : listener -> event -> list registryCall)
    (m : eventListeners) (eventName : string) (eventData : event) : M eventListeners :=
  dispatch call calls eventName eventData 0 (length (default [] (m !! eventName))) m.

End Listeners.

(** The object [getStats] returns. *)
Record stats := mkStats {
  st_version : string;
  st_savedStates : nat;
  st_eventListeners : gmap string nat;
  st_config : config
}.

(** [getStats()] *)
Definition getStats (this : colorizer) (m : Listeners.eventListeners) : M stats :=
  gets (fun s => mkStats getVersion (size (svgStates s)) (length <$> m) (cfg this)).

(** ** Notions of the further statements *)

(** The number of entries with a flag set. *)
Definition tally (P : elementColor -> bool) (l : list elementColor) : nat :=
  length (filter (fun e => P e = true) l).

(** What a computation returns, if it returns. *)
Definition returned {A} (r : result A * state) : option A :=
  match r.1 with Return a => Some a | Throw _ => None end.

(** ** The parts of [applyRandomColors] *)

(** The state after [svgId] was computed and [saveOriginalState] ran. *)
Definition afterSave (h : host) (s : state) : state :=
  (saveOriginalState (svgIdOf h s)
     (if truthy (Some (idOf (svg (document s)))) then s else next_random (next_now s))).2.

(** The [defs] element the pass appends gradients to, the elements it
    visits with their indices, and the state it starts from: the state
    [s1], with a new [defs] element when there was none. *)
Definition passStart (s1 : state) : path * list (nat * path) * state :=
  let t := svg (document s1) in
  let elements := querySelectorAll paintable t in
  match querySelector is_defs t with
  | Some defsElement => (defsElement, indexed elements, s1)
  | None => ([0], indexed (map relocate elements), set_svg (insertFirst newDefs t) s1)
  end.

(** The [forEach] of [applyRandomColors] with its counter. *)
Definition elementLoop (this : colorizer) (h : host) (svgId : string) (defsElement : path)
    (l : list (nat * path)) (count : nat) : M nat :=
  foldM
    (fun processedCount '(index, element) =>
       try_catch
         (colorElement this h svgId defsElement index element ;;
          ret (S processedCount))
         (fun error =>
            emit (ErrorEvent error element (Some index)) ;;
            ret processedCount))
    l count.

(** The part of [applyRandomColors] that follows the snapshot. *)
Definition colorPass (this : colorizer) (h : host) (svgId : string) : M bool :=
  fun s1 =>
    let elements := querySelectorAll paintable (svg (document s1)) in
    if bool_decide (length elements = 0) then (Return false, s1)
    else
      let '(dp, l, s2) := passStart s1 in
      (processedCount <- elementLoop this h svgId dp l 0 ;;
       emit (Complete processedCount (length elements)) ;;
       ret true) s2.

(** ** Sequences of colouring calls *)

(** The trees writes of [fill] and [stroke] can make of [t0]: each write
    is on an element the snapshot selector matches, the target itself
    included. *)
Inductive tinted (t0 : node) : node -> Prop :=
| tinted_start : tinted t0 t0
| tinted_attr t p k v :
    tinted t0 t ->
    p ∈ subtree_paths paintable_or_g t0 ->
    k = "fill" \/ k = "stroke" ->
    tinted t0 (update (setAttr k v) p t).

(** The trees colouring calls can make of [t0]: gradients go to the
    first [defs] element of [t0], or to a new first child when [t0] has
    none. *)
Definition reachable (t0 t : node) : Prop :=
  match querySelector is_defs t0 with
  | Some dp => recolored dp t0 t
  | None => tinted t0 t \/ recolored [0] (insertFirst newDefs t0) t
  end.

(** The store holds the snapshot of [d0] under the id of its target,
    and the target is a tree colouring calls can make of the one of
    [d0]. *)
Definition snapshot_inv (d0 : dom) : state -> Prop :=
  framed (fun m t => m !! idOf (svg d0) = Some (snapshotOf d0) /\ reachable (svg d0) t).

(** A call of one of the two colouring methods, with the configuration,
    the filter and the validator the instance has when it is made. *)
Inductive call :=
| ApplyColors (this : colorizer) (h : host)
| ApplyPathColors (this : colorizer) (h : host) (options : pathOptions).

Definition run (c : call) : M bool :=
  match c with
  | ApplyColors this h => applyRandomColors this h
  | ApplyPathColors this h options => applyRandomPathColors this h options
  end.

(** The state after the calls were made one after the other. *)
Definition runAll (calls : list call) (s : state) : state :=
  fold_left (fun s c => (run c s).2) calls s.

(** ** What the calls leave alone *)

(** The attributes of an element without the attributes [ks]; only
    elements the snapshot selector matches lose them. *)
Definition bleachAttrs (ks : list string) (t : string) (a : gmap string string)
  : gmap string string :=
  if paintable_or_g t then foldr delete a ks else a.

(** The tree without those attributes. *)
Fixpoint bleach (ks : list string) (n : node) : node :=
  match n with
  | Elem t a ch => Elem t (bleachAttrs ks t a) (map (bleach ks) ch)
  | Text s => Text s
  end.

Definition bleachOuter (ks : list string) (x : string * gmap string string)
  : string * gmap string string :=
  (x.1, bleachAttrs ks x.1 x.2).

(** The attributes a colouring call may write, and those [resetColors]
    may write. *)
Definition colorKeys : list string := ["fill"; "stroke"].

Definition restoreKeys : list string := ["fill"; "stroke"; "style"].

(** ** The colours a call applies *)

(** The event is a [colorApplied] event whose colour satisfies [P]. *)
Definition appliesOnly (P : jsval -> Prop) (e : event) : Prop :=
  match e with ColorApplied _ _ color _ => P color | _ => False end.

(** The state [s'] differs from [s] by events that apply colours
    satisfying [P], and by the document and the calls made to the
    host. *)
Definition emitted (P : jsval -> Prop) (s s' : state) : Prop :=
  svgStates s' = svgStates s /\
  exists evs, events s' = events s ++ evs /\ Forall (appliesOnly P) evs.

(** The indices [applyRandomPathColors] goes through. *)
Definition targetIndices (options : pathOptions) (elements : list path) : list Z :=
  default (map Z.of_nat (seq 0 (length elements))) (pathIndices options).

(** ** Further example documents and listeners *)

(** [<svg id="grad"><defs><linearGradient id="g1"/></defs>
    <path fill="url(#g1)"/>
    <g stroke="#000"><circle/><rect fill="none" stroke="url(#g1)"/></g></svg>] *)
Definition gradientSvg : node :=
  Elem "svg" (attrsFrom [("id", "grad")])
    [ Elem "defs" ∅ [ Elem "linearGradient" (attrsFrom [("id", "g1")]) [] ];
      Elem "path" (attrsFrom [("fill", "url(#g1)")]) [];
      Elem "g" (attrsFrom [("stroke", "#000")])
        [ Elem "circle" ∅ [];
          Elem "rect" (attrsFrom [("fill", "none"); ("stroke", "url(#g1)")]) [] ] ].

(** [<svg id="e"><g><text>hi</text></g><defs/></svg>]: no paintable
    element. *)
Definition emptySvg : node :=
  Elem "svg" (attrsFrom [("id", "e")])
    [ Elem "g" ∅ [ Elem "text" ∅ [ Text "hi" ] ]; Elem "defs" ∅ [] ].

(** Listeners that record the event they are called with; those with an
    even number throw after that. *)
Definition recordingCall (l : Listeners.listener) (e : event) : M unit :=
  if Nat.even l then (emit e ;; throw TypeError) else emit e.

(** Listeners that record their own number, as the identifier of a
    [reset] event, whatever the event they are called with. *)
Definition signingCall (l : Listeners.listener) (e : event) : M unit :=
  emit (Reset (pretty l)).

(** Listener 1 calls [off('complete', itself)] while it runs; the others
    leave the registry alone. *)
Definition leavingCalls (l : Listeners.listener) (e : event)
  : list Listeners.registryCall :=
  if bool_decide (l = 1) then [Listeners.CallOff "complete" 1] else [].


(** ** Gradients and their references *)

(** [color] is the [url] token of a gradient that is a child of the
    node at [dp]. *)
Definition resolvesAt (dp : path) (t : node) (color : jsval) : Prop :=
  exists gradientId color1 color2 i,
    color = Some ("url(#" +:+ gradientId +:+ ")") /\
    get t (dp ++ [i]) = Some (gradientElement gradientId color1 color2).

(** [color] is the [url] token of a gradient in the first [defs]
    element of [t]. *)
Definition resolves (t : node) (color : jsval) : Prop :=
  exists dp, querySelector is_defs t = Some dp /\ resolvesAt dp t color.

(** [color] is a value [generateRandomColor] returns for some value of
    [Math.random]. *)
Definition sampled (this : colorizer) (h : host) (color : jsval) : Prop :=
  exists n, color = sampleColor this (random_at h n).

(** [color] is the value the name [fillColor] is bound to around the
    class, which an instance without independent colours applies to
    [stroke] when it is truthy. *)
Definition borrowed (this : colorizer) (h : host) (color : jsval) : Prop :=
  independentColors (cfg this) = false /\
  fillColorBinding h = Some color /\ truthy color = true.

(** The colour of a [colorApplied] event satisfies [P]; other events
    are not concerned. *)
Definition colorOk (P : jsval -> Prop) (e : event) : Prop :=
  match e with ColorApplied _ _ color _ => P color | _ => True end.

(** A Hoare triple for the monad of the methods, with a condition for
    the state an exception leaves. *)
Definition triple {A} (Pre : state -> Prop) (m : M A) (Post : A -> state -> Prop)
    (Exc : state -> Prop) : Prop :=
  forall s, Pre s ->
    match m s with
    | (Return a, s') => Post a s'
    | (Throw _, s') => Exc s'
    end.

(** [color] is a sample or the value bound to [fillColor] around the
    class, or the token of a gradient that is a child of the node at
    [dp]. *)
Definition okAt (this : colorizer) (h : host) (dp : path) (t : node) (color : jsval) : Prop :=
  (sampled this h color \/ borrowed this h color) \/ resolvesAt dp t color.

(** During a pass that started from the tree [t0] with the events
    [ev0]: the tree is a recolouring of [t0], and every colour applied
    since is a sample, the value bound to [fillColor] around the class,
    or the token of a gradient that is a child of the node at [dp]. *)
Definition gradient_inv (this : colorizer) (h : host) (dp : path) (t0 : node)
    (ev0 : list event) (s : state) : Prop :=
  recolored dp t0 (svg (document s)) /\
  exists evs,
    events s = ev0 ++ evs /\
    Forall (colorOk (okAt this h dp (svg (document s)))) evs.

(** ** Colours that are not independent *)

(** The event is no [colorApplied] event for another attribute than
    [fill]. *)
Definition fillOnly (e : event) : Prop :=
  match e with ColorApplied _ attribute _ _ => attribute = "fill" | _ => True end.

Definition fillKeys : list string := ["fill"].

(** Since the state with the events [ev0]: the part [view] of the
    target and the ancestors are the same up to [fill] attributes, the
    paintable elements and the [defs] elements are at the same places,
    and no colour was applied to another attribute than [fill]. *)
Definition fill_inv (view : node -> node) (B : node)
    (Bo : list (string * gmap string string)) (els ds : list path) (ev0 : list event)
    (s : state) : Prop :=
  bleach fillKeys (view (svg (document s))) = B /\
  bleachOuter fillKeys <$> outer (document s) = Bo /\
  querySelectorAll paintable (svg (document s)) = els /\
  querySelectorAll is_defs (svg (document s)) = ds /\
  exists evs, events s = ev0 ++ evs /\ Forall fillOnly evs.

(** * Properties *)

(** Induction over nodes with the hypothesis available for every child. *)
Lemma node_ind' (P : node -> Prop) :
  (forall s, P (Text s)) ->
  (forall t a ch, Forall P ch -> P (Elem t a ch)) ->
  forall n, P n.
Proof.
  intros HT HE. fix IH 1. intros [t a ch | s]; [ | apply HT ].
  apply HE. induction ch as [ | c ch IHch ]; constructor; [ apply IH | exact IHch ].
Qed.

(** ** The classifier *)

Lemma colored_uncolored v : uncolored v = negb (colored v).
Proof.
  unfold uncolored, colored.
  destruct (truthy v), (bool_decide (v = Some "none")),
    (bool_decide (v = Some "transparent")); reflexivity.
Qed.

(** What [shouldProcessElementColor] returns for an accepted element. *)
Lemma shouldProcess_accepted this d element attribute :
  accepted this d element ->
  shouldProcessElementColor this d element attribute =
    hasColor d element attribute ||
    (bool_decide (attribute = "fill") &&
     negb (hasColor d element "stroke" && preserveLinearStyle (cfg this))).
Proof.
  unfold accepted, shouldProcessElementColor, hasColor. intros Hacc.
  assert (match elementFilter this with
          | Some filter => negb (filter d element) | None => false end = false) as ->.
  { destruct (elementFilter this); [ rewrite Hacc | ]; reflexivity. }
  rewrite colored_uncolored.
  generalize (colored (getAttribute d (Inner element) attribute)),
    (inheritsColor d element attribute), (bool_decide (attribute = "fill")),
    (colored (getAttribute d (Inner element) "stroke")),
    (inheritsColor d element "stroke"), (preserveLinearStyle (cfg this)).
  intros [] [] [] [] [] []; reflexivity.
Qed.

(** A rejected element is not processed on any channel. *)
Lemma shouldProcess_rejected this d element attribute filter :
  elementFilter this = Some filter -> filter d element = false ->
  shouldProcessElementColor this d element attribute = false.
Proof.
  intros Hf Hr. unfold shouldProcessElementColor. rewrite Hf, Hr. reflexivity.
Qed.

(** Whatever the filter says, a channel is only processed when the
    accepted case processes it. *)
Lemma shouldProcess_bound this d element attribute :
  shouldProcessElementColor this d element attribute = true ->
  hasColor d element attribute ||
  (bool_decide (attribute = "fill") &&
   negb (hasColor d element "stroke" && preserveLinearStyle (cfg this))) = true.
Proof.
  destruct (elementFilter this) as [filter | ] eqn:Hf.
  - destruct (filter d element) eqn:Hr.
    + rewrite shouldProcess_accepted; [ auto | unfold accepted; rewrite Hf; exact Hr ].
    + rewrite (shouldProcess_rejected this d element attribute filter Hf Hr). discriminate.
  - rewrite shouldProcess_accepted; [ auto | unfold accepted; rewrite Hf; exact I ].
Qed.

(** C6 (amended): an element with a stroke and no fill, own or inherited
    from the nearest declaring [g], is never given a fill when
    [preserveLinearStyle] is set; when it is not set, the fill channel is
    processed provided the element filter, if any, accepts the element. *)
Theorem linear_style_fill this d element :
  hasColor d element "stroke" = true ->
  hasColor d element "fill" = false ->
  (preserveLinearStyle (cfg this) = true ->
   shouldProcessElementColor this d element "fill" = false) /\
  (preserveLinearStyle (cfg this) = false -> accepted this d element ->
   shouldProcessElementColor this d element "fill" = true).
Proof.
  intros Hs Hf. split.
  - intros Hp. destruct (shouldProcessElementColor this d element "fill") eqn:E; [ | reflexivity ].
    apply shouldProcess_bound in E. rewrite Hs, Hf, Hp in E. discriminate.
  - intros Hp Hacc. rewrite shouldProcess_accepted by exact Hacc.
    rewrite Hs, Hf, Hp. reflexivity.
Qed.

(** C7 (amended): an element with neither fill nor stroke, own or
    inherited, never has its stroke channel processed, and has its fill
    channel processed provided the element filter, if any, accepts it. *)
Theorem colorless_element this d element :
  hasColor d element "fill" = false ->
  hasColor d element "stroke" = false ->
  (accepted this d element -> shouldProcessElementColor this d element "fill" = true) /\
  shouldProcessElementColor this d element "stroke" = false.
Proof.
  intros Hf Hs. split.
  - intros Hacc. rewrite shouldProcess_accepted by exact Hacc.
    rewrite Hf, Hs. reflexivity.
  - destruct (shouldProcessElementColor this d element "stroke") eqn:E; [ | reflexivity ].
    apply shouldProcess_bound in E. rewrite Hs in E. discriminate.
Qed.

(** ** Reset without a snapshot *)

(** C9: when no snapshot is stored under the id of the target,
    [resetColors] returns [false] and changes nothing: neither the
    document, nor the store, nor the list of emitted events. *)
Theorem resetColors_without_snapshot s :
  svgStates s !! idOf (svg (document s)) = None ->
  resetColors s = (Return false, s).
Proof.
  intros Hno.
  assert ((if truthy (Some (idOf (svg (document s))))
           then svgStates s !! idOf (svg (document s)) else None) = None) as E.
  { destruct (truthy _); [ exact Hno | reflexivity ]. }
  unfold resetColors, try_catch, bind, gets, id. cbv beta iota. rewrite E. reflexivity.
Qed.

(** ** Gradient tokens *)

Lemma generateRandomColor_run this h s :
  generateRandomColor this h s =
    (Return (sampleColor this (random_at h (randomCalls s))), next_random s).
Proof. reflexivity. Qed.

Lemma generateRandomGradient_run this h id s :
  generateRandomGradient this h id s =
    (Return (gradientElement (gradientIdOf id (now_at h (nowCalls s)))
               (sampleColor this (random_at h (randomCalls s)))
               (sampleColor this (random_at h (S (randomCalls s)))),
             "url(#" +:+ gradientIdOf id (now_at h (nowCalls s)) +:+ ")"),
     next_now (next_random (next_random s))).
Proof. reflexivity. Qed.

Lemma string_app_inj_r (t s1 s2 : string) : s1 +:+ t = s2 +:+ t -> s1 = s2.
Proof.
  assert (Hlen : forall a b : string,
             String.length (a +:+ b) = String.length a + String.length b).
  { intros a b. induction a as [ | c a IH ]; simpl; [ reflexivity | ].
    change (String c a +:+ b) with (String c (a +:+ b)). simpl. rewrite IH. reflexivity. }
  revert s2. induction s1 as [ | c s1 IH ]; intros [ | c' s2 ] E.
  - reflexivity.
  - apply (f_equal String.length) in E. rewrite !Hlen in E. simpl in E. lia.
  - apply (f_equal String.length) in E. rewrite !Hlen in E. simpl in E. lia.
  - change (String c (s1 +:+ t) = String c' (s2 +:+ t)) in E.
    injection E as -> E. f_equal. apply IH, E.
Qed.

Lemma token_inj id n1 n2 :
  "url(#" +:+ gradientIdOf id n1 +:+ ")" = "url(#" +:+ gradientIdOf id n2 +:+ ")" ->
  n1 = n2.
Proof.
  intros E. apply (inj (String.app _)) in E. apply string_app_inj_r in E.
  unfold gradientIdOf in E.
  do 3 apply (inj (String.app _)) in E.
  apply (inj pretty) in E. exact E.
Qed.

(** C5 (amended): two calls of [generateRandomGradient] with the same
    seed both return, and their tokens differ whenever the two calls read
    different values from [Date.now()]. *)
Theorem gradient_tokens_distinct this h id s1 s2 :
  now_at h (nowCalls s1) <> now_at h (nowCalls s2) ->
  exists u1 u2,
    tokenOf (generateRandomGradient this h id s1) = Some u1 /\
    tokenOf (generateRandomGradient this h id s2) = Some u2 /\
    u1 <> u2.
Proof.
  intros Hclock. rewrite !generateRandomGradient_run. unfold tokenOf. simpl.
  eexists _, _. split; [ reflexivity | ]. split; [ reflexivity | ].
  intros E. apply Hclock. eapply token_inj, E.
Qed.

(** With equal readings of the clock the two tokens are the same. *)
Lemma gradient_tokens_equal this h id s1 s2 :
  now_at h (nowCalls s1) = now_at h (nowCalls s2) ->
  tokenOf (generateRandomGradient this h id s1) =
  tokenOf (generateRandomGradient this h id s2).
Proof.
  intros E. rewrite !generateRandomGradient_run. unfold tokenOf. simpl. rewrite E. reflexivity.
Qed.

(** ** The write target *)

Lemma closest_in_None k n p :
  is_Some (get n p) ->
  closest_in k n p = None ->
  forall q' m', q' `prefix_of` p -> get n q' = Some m' -> matches_g k m' = false.
Proof.
  revert n. induction p as [ | i r IH ]; intros n Hval H q' m' Hpre Hget; simpl in H.
  - apply prefix_nil_inv in Hpre as ->. simpl in Hget. injection Hget as <-.
    destruct (matches_g k n); [ discriminate | reflexivity ].
  - destruct n as [t a ch | ]; [ | destruct Hval; discriminate ].
    simpl in Hval. destruct (ch !! i) as [c | ] eqn:Hc; [ | destruct Hval; discriminate ].
    destruct (closest_in k c r) eqn:Hq0; [ discriminate | ].
    destruct q' as [ | j q' ].
    + simpl in Hget. injection Hget as <-.
      destruct (matches_g k (Elem t a ch)); [ discriminate | reflexivity ].
    + pose proof (prefix_cons_inv_1 _ _ _ _ Hpre) as ->.
      apply prefix_cons_inv_2 in Hpre. simpl in Hget. rewrite Hc in Hget.
      eapply IH; eauto.
Qed.

Lemma closest_in_Some k n p q :
  is_Some (get n p) ->
  closest_in k n p = Some q ->
  q `prefix_of` p /\
  (exists m, get n q = Some m /\ matches_g k m = true) /\
  forall q' m', q' `prefix_of` p -> get n q' = Some m' -> matches_g k m' = true ->
                length q' <= length q.
Proof.
  revert n q. induction p as [ | i r IH ]; intros n q Hval H; simpl in H.
  - destruct (matches_g k n) eqn:Hm; [ | discriminate ]. injection H as <-.
    split; [ reflexivity | ]. split; [ exists n; auto | ].
    intros q' m' Hpre _ _. apply prefix_nil_inv in Hpre as ->. reflexivity.
  - destruct n as [t a ch | ]; [ | discriminate ].
    simpl in Hval. destruct (ch !! i) as [c | ] eqn:Hc; [ | discriminate ].
    destruct (closest_in k c r) as [q0 | ] eqn:Hq0.
    + injection H as <-. destruct (IH _ _ Hval Hq0) as (Hpre & (m & Hget & Hm) & Hmax).
      split; [ apply prefix_cons, Hpre | ].
      split; [ exists m; simpl; rewrite Hc; auto | ].
      intros q' m' Hpre' Hget' Hm'. destruct q' as [ | j q' ]; [ simpl; lia | ].
      pose proof (prefix_cons_inv_1 _ _ _ _ Hpre') as ->.
      apply prefix_cons_inv_2 in Hpre'. simpl in Hget'. rewrite Hc in Hget'.
      simpl. apply le_n_S. eapply Hmax; eauto.
    + destruct (matches_g k (Elem t a ch)) eqn:Hm; [ | discriminate ]. injection H as <-.
      split; [ apply prefix_nil | ]. split; [ eexists; split; [ reflexivity | exact Hm ] | ].
      intros q' m' Hpre' Hget' Hm'. destruct q' as [ | j q' ]; [ reflexivity | ].
      exfalso.
      pose proof (prefix_cons_inv_1 _ _ _ _ Hpre') as ->.
      apply prefix_cons_inv_2 in Hpre'. simpl in Hget'. rewrite Hc in Hget'.
      rewrite (closest_in_None k c r Hval Hq0 q' m' Hpre' Hget') in Hm'. discriminate.
Qed.

(** *** Reading and writing through paths *)

Lemma get_app n p q : get n (p ++ q) = get n p ≫= fun m => get m q.
Proof.
  revert n. induction p as [ | i r IH ]; intros n; simpl; [ reflexivity | ].
  destruct n as [t a ch | ]; [ | reflexivity ].
  destruct (ch !! i); [ apply IH | reflexivity ].
Qed.

Lemma get_update_eq f n p : get (update f p n) p = f <$> get n p.
Proof.
  revert n. induction p as [ | i r IH ]; intros n; simpl; [ reflexivity | ].
  destruct n as [t a ch | ]; [ | reflexivity ].
  rewrite list_lookup_alter_eq. destruct (ch !! i); simpl; [ apply IH | reflexivity ].
Qed.

Lemma setAttr_keeps_shape k v : keeps_shape (setAttr k v).
Proof. intros [t a ch | s]; simpl; auto. Qed.

Lemma removeAttr_keeps_shape k : keeps_shape (removeAttr k).
Proof. intros [t a ch | s]; simpl; auto. Qed.

Lemma keeps_shape_compose f g : keeps_shape f -> keeps_shape g -> keeps_shape (fun n => f (g n)).
Proof.
  intros Hf Hg n. specialize (Hg n). specialize (Hf (g n)).
  destruct n; simpl in *; destruct (g _); try tauto; destruct (f _); try tauto;
    intuition congruence.
Qed.

Lemma get_keeps_shape f n q :
  keeps_shape f -> is_Some (get n q) -> is_Some (get (f n) q).
Proof.
  intros Hf Hq. specialize (Hf n). destruct q as [ | j q ]; simpl in *; [ eauto | ].
  destruct n as [t a ch | ]; [ | destruct Hq; discriminate ].
  destruct (f _) as [t' a' ch' | ]; [ | tauto ].
  destruct Hf as [_ <-]. exact Hq.
Qed.

Lemma get_update_is_Some f n p q :
  keeps_shape f -> is_Some (get n q) -> is_Some (get (update f p n) q).
Proof.
  intros Hf. revert n q. induction p as [ | i r IH ]; intros n q Hq; simpl.
  - apply get_keeps_shape; assumption.
  - destruct n as [t a ch | ]; [ | exact Hq ].
    destruct q as [ | j q ]; simpl in *; [ eauto | ].
    destruct (decide (i = j)) as [<- | Hne].
    + rewrite list_lookup_alter_eq. destruct (ch !! i); simpl in *; [ apply IH, Hq | exact Hq ].
    + rewrite list_lookup_alter_ne by exact Hne. exact Hq.
Qed.

(** An update that does not change which nodes match [g[k]] does not
    change the result of [closest]. *)
Lemma closest_in_update k f q n p :
  keeps_shape f ->
  (forall m, get n q = Some m -> matches_g k (f m) = matches_g k m) ->
  closest_in k (update f q n) p = closest_in k n p.
Proof.
  intros Hf. revert n q. induction p as [ | i r IH ]; intros n q Hm.
  - destruct q as [ | j q ]; simpl.
    + rewrite Hm by reflexivity. reflexivity.
    + destruct n; reflexivity.
  - destruct q as [ | j q ]; simpl.
    + rewrite (Hm n) by reflexivity. specialize (Hf n).
      destruct n as [t a ch | ], (f _) as [t' a' ch' | ]; try tauto.
      destruct Hf as [_ <-]. reflexivity.
    + destruct n as [t a ch | ]; [ | reflexivity ].
      change (matches_g k (Elem t a (alter (update f q) j ch)))
        with (matches_g k (Elem t a ch)).
      destruct (decide (j = i)) as [-> | Hne].
      * rewrite list_lookup_alter_eq. destruct (ch !! i) as [c | ] eqn:Hc; simpl; [ | reflexivity ].
        rewrite IH; [ reflexivity | ]. intros m Hget. apply Hm. simpl. rewrite Hc. exact Hget.
      * rewrite list_lookup_alter_ne by exact Hne. reflexivity.
Qed.

Lemma matches_g_setAttr k v m :
  matches_g k m = true -> matches_g k (setAttr k v m) = matches_g k m.
Proof.
  destruct m as [t a ch | ]; simpl; [ | reflexivity ]. unfold declares_g.
  intros [Ht Ha]%andb_true_iff. rewrite Ht. simpl.
  apply bool_decide_eq_true in Ha. rewrite !bool_decide_eq_true_2; auto.
  rewrite lookup_insert_eq. eauto.
Qed.

Lemma list_find_alter {A} (P : A -> Prop) `{!forall x, Decision (P x)} (f : A -> A) l i x j y :
  l !! i = Some x -> P x -> P (f x) ->
  list_find P l = Some (j, y) ->
  exists y', list_find P (alter f i l) = Some (j, y').
Proof.
  intros Hi Px Pfx (Hj & Py & Hmin)%list_find_Some.
  assert (j <= i) as Hle.
  { destruct (decide (j <= i)); [ assumption | ]. destruct (Hmin i x Hi); [ lia | exact Px ]. }
  destruct (decide (i = j)) as [-> | Hne].
  - exists (f y). apply list_find_Some. rewrite list_lookup_alter_eq, Hj. simpl.
    assert (x = y) as -> by congruence.
    split; [ reflexivity | ]. split; [ exact Pfx | ].
    intros j' z Hz Hlt. rewrite list_lookup_alter_ne in Hz by lia. eapply Hmin; eauto.
  - exists y. apply list_find_Some. rewrite list_lookup_alter_ne by exact Hne.
    split; [ exact Hj | ]. split; [ exact Py | ].
    intros j' z Hz Hlt. rewrite list_lookup_alter_ne in Hz by lia. eapply Hmin; eauto.
Qed.

Lemma closest_setAttribute k v d g element :
  qualifies k d g ->
  closest k (setAttribute g k v d) element = closest k d element.
Proof.
  intros Hq. unfold closest. destruct g as [q | i]; simpl.
  - destruct Hq as (m & Hget & Hm).
    rewrite closest_in_update; [ reflexivity | apply setAttr_keeps_shape | ].
    intros m' Hget'. simpl in Hget. rewrite Hget in Hget'. injection Hget' as <-.
    apply matches_g_setAttr, Hm.
  - destruct (closest_in k (svg d) element); [ reflexivity | ].
    destruct Hq as (x & Hx & Px).
    destruct (list_find _ (outer d)) as [[j y] | ] eqn:Hfind.
    + destruct (list_find_alter (fun x => declares_g k x.1 x.2 = true)
                  (fun x => (x.1, <[k:=v]> x.2)) (outer d) i x j y Hx Px) as [y' ->]; auto.
      simpl. unfold declares_g in *. apply andb_true_iff in Px as [-> _]. simpl.
      apply bool_decide_eq_true_2. rewrite lookup_insert_eq. eauto.
    + apply list_find_None in Hfind. rewrite Forall_forall in Hfind.
      destruct (Hfind x); [ eapply list_elem_of_lookup_2; eauto | exact Px ].
Qed.

Lemma getAttribute_setAttribute k v d g :
  qualifies k d g -> getAttribute (setAttribute g k v d) g k = Some v.
Proof.
  destruct g as [q | i]; simpl.
  - intros (m & Hget & Hm). rewrite get_update_eq, Hget. simpl.
    destruct m; simpl; [ apply lookup_insert_eq | discriminate ].
  - intros (x & Hx & _). rewrite list_lookup_alter_eq, Hx. simpl. apply lookup_insert_eq.
Qed.

(** A write of attributes at [p] leaves the attributes of every other
    node as they are. *)
Lemma get_update_attrs phi p t q :
  p <> q -> attrsOf <$> get (update (onAttrs phi) p t) q = attrsOf <$> get t q.
Proof.
  revert t q. induction p as [ | i r IH ]; intros t q Hne.
  - destruct q as [ | j q ]; [ congruence | ]. destruct t; reflexivity.
  - destruct t as [tg a ch | ]; [ | reflexivity ].
    destruct q as [ | j q ]; [ reflexivity | ]. simpl.
    destruct (decide (i = j)) as [<- | Hij].
    + rewrite list_lookup_alter_eq. destruct (ch !! i); simpl; [ | reflexivity ].
      apply IH. congruence.
    + rewrite list_lookup_alter_ne by exact Hij. reflexivity.
Qed.

(** [setAttribute] on an element writes the value there, and leaves
    every other attribute of every node as it is. *)
Lemma getAttribute_setAttribute_element k v d l :
  match l with
  | Inner p => exists t a ch, get (svg d) p = Some (Elem t a ch)
  | Outer i => is_Some (outer d !! i)
  end ->
  getAttribute (setAttribute l k v d) l k = Some v.
Proof.
  destruct l as [p | i]; simpl.
  - intros (t & a & ch & Hget). rewrite get_update_eq, Hget. apply lookup_insert_eq.
  - intros [x Hx]. rewrite list_lookup_alter_eq, Hx. apply lookup_insert_eq.
Qed.

Lemma getAttribute_setAttribute_other k v d l l' k' :
  (l', k') <> (l, k) -> getAttribute (setAttribute l k v d) l' k' = getAttribute d l' k'.
Proof.
  intros Hne. destruct l as [p | i], l' as [q | j]; simpl; try reflexivity.
  - destruct (decide (p = q)) as [<- | Hpq].
    + rewrite get_update_eq. destruct (get (svg d) p) as [[t a ch | data] | ]; try reflexivity.
      simpl. apply lookup_insert_ne. congruence.
    + pose proof (get_update_attrs (insert k v) p (svg d) q Hpq) as H.
      fold (setAttr k v) in H.
      destruct (get (update (setAttr k v) p (svg d)) q), (get (svg d) q);
        simpl in H; congruence.
  - destruct (decide (i = j)) as [<- | Hij].
    + rewrite list_lookup_alter_eq. destruct (outer d !! i) as [x | ]; [ | reflexivity ].
      simpl. apply lookup_insert_ne. congruence.
    + rewrite list_lookup_alter_ne by exact Hij. reflexivity.
Qed.

(** [closest] finds the nearest qualifying [g], and only that one. *)
Lemma closest_nearest k d element g :
  is_Some (get (svg d) element) ->
  closest k d element = Some g -> nearest_g k d element g.
Proof.
  intros Hval. unfold closest.
  destruct (closest_in k (svg d) element) as [q | ] eqn:Hin.
  - intros [= <-]. destruct (closest_in_Some _ _ _ _ Hval Hin) as (Hpre & Hq & Hmax).
    split; [ exact Hpre | ]. split; [ exact Hq | ].
    intros [q' | j] Henc Hqual; simpl; [ | tauto ].
    destruct Hqual as (m' & Hget' & Hm'). specialize (Hmax _ _ Henc Hget' Hm'). lia.
  - destruct (list_find _ (outer d)) as [[i x] | ] eqn:Hfind; [ | discriminate ].
    intros [= <-]. apply list_find_Some in Hfind as (Hx & Px & Hmin).
    split; [ exact I | ]. split; [ exists x; auto | ].
    intros [q' | j] Henc Hqual; simpl.
    + destruct Hqual as (m' & Hget' & Hm').
      rewrite (closest_in_None _ _ _ Hval Hin _ _ Henc Hget') in Hm'. discriminate.
    + destruct Hqual as (y & Hy & Py). intros Hlt. exact (Hmin _ _ Hy Hlt Py).
Qed.

Lemma closest_None k d element g :
  is_Some (get (svg d) element) ->
  closest k d element = None -> encloses g element -> ~ qualifies k d g.
Proof.
  intros Hval. unfold closest.
  destruct (closest_in k (svg d) element) as [q | ] eqn:Hin; [ discriminate | ].
  destruct (list_find _ (outer d)) as [[i x] | ] eqn:Hfind; [ discriminate | ].
  intros _ Henc Hqual. destruct g as [q' | j]; simpl in *.
  - destruct Hqual as (m' & Hget' & Hm').
    rewrite (closest_in_None _ _ _ Hval Hin _ _ Henc Hget') in Hm'. discriminate.
  - destruct Hqual as (y & Hy & Py). apply list_find_None in Hfind.
    rewrite Forall_forall in Hfind. eapply Hfind; [ eapply list_elem_of_lookup_2 | ]; eauto.
Qed.

Lemma nearest_g_unique k d element g1 g2 :
  nearest_g k d element g1 -> nearest_g k d element g2 -> g1 = g2.
Proof.
  intros (E1 & Q1 & N1) (E2 & Q2 & N2).
  specialize (N1 _ E2 Q2). specialize (N2 _ E1 Q1).
  destruct g1 as [p1 | i1], g2 as [p2 | i2]; simpl in *; try tauto.
  - f_equal. destruct (prefix_weak_total _ _ _ E1 E2) as [H | H].
    + apply prefix_length_eq; [ exact H | lia ].
    + symmetry. apply prefix_length_eq; [ exact H | lia ].
  - f_equal. lia.
Qed.

Lemma nearest_closest k d element g :
  is_Some (get (svg d) element) ->
  nearest_g k d element g -> closest k d element = Some g.
Proof.
  intros Hval Hn. destruct (closest k d element) as [g0 | ] eqn:Hc.
  - f_equal. eapply nearest_g_unique; [ apply closest_nearest | ]; eauto.
  - destruct Hn as (Henc & Hq & _). destruct (closest_None _ _ _ _ Hval Hc Henc Hq).
Qed.

Lemma applyColorToElement_run element attribute color s :
  applyColorToElement element attribute color s =
    (Return tt,
     set_document
       (setAttribute (writeTarget (document s) element attribute) attribute (toStr color)
          (document s)) s).
Proof.
  unfold applyColorToElement, writeTarget, bind, gets, modify.
  destruct (if uncolored _ then _ else _); reflexivity.
Qed.

(** C8 (corrected): [applyColorToElement] sets one attribute of one node
    and changes nothing else: after the call the target carries the value
    on the channel, and every other attribute of every node reads as
    before.  The target is the element itself when the element has a
    colour of its own on the channel, and also when it has none and
    neither the element nor any ancestor is a [g] declaring the
    attribute; otherwise it is the nearest [g] declaring the attribute,
    and then every element whose nearest such [g] this is still finds it
    nearest, now with the new value. *)
Theorem applyColorToElement_target element attribute color s :
  (exists t a ch, get (svg (document s)) element = Some (Elem t a ch)) ->
  let d := document s in
  let own := getAttribute d (Inner element) attribute in
  let r := applyColorToElement element attribute color s in
  let d' := document r.2 in
  exists target,
    r = (Return tt, set_document (setAttribute target attribute (toStr color) d) s) /\
    getAttribute d' target attribute = Some (toStr color) /\
    (forall l k, (l, k) <> (target, attribute) -> getAttribute d' l k = getAttribute d l k) /\
    (colored own = true -> target = Inner element) /\
    (colored own = false ->
     (forall g, encloses g element -> ~ qualifies attribute d g) ->
     target = Inner element) /\
    (forall g, colored own = false -> nearest_g attribute d element g ->
       target = g /\
       forall sibling, is_Some (get (svg d) sibling) ->
         nearest_g attribute d sibling g ->
         nearest_g attribute d' sibling g /\
         getAttribute d' g attribute = Some (toStr color)).
Proof.
  intros Hel. cbv zeta.
  assert (is_Some (get (svg (document s)) element)) as Hval
    by (destruct Hel as (t & a & ch & ->); eauto).
  exists (writeTarget (document s) element attribute).
  rewrite applyColorToElement_run.
  change (document (_, set_document ?d s).2) with d.
  split; [ reflexivity | ].
  assert (writeTarget (document s) element attribute = Inner element \/
          nearest_g attribute (document s) element
            (writeTarget (document s) element attribute)) as Htarget.
  { unfold writeTarget. destruct (uncolored _); [ | left; reflexivity ].
    destruct (closest attribute (document s) element) as [g | ] eqn:Hc;
      [ right; apply closest_nearest; assumption | left; reflexivity ]. }
  split.
  { destruct Htarget as [-> | (_ & Hq & _)];
      [ apply getAttribute_setAttribute_element; exact Hel
      | apply getAttribute_setAttribute; exact Hq ]. }
  split; [ intros l k Hne; apply getAttribute_setAttribute_other; exact Hne | ].
  unfold writeTarget. rewrite colored_uncolored.
  split; [ intros ->; reflexivity | ].
  split.
  - intros -> Hnone. cbn [negb].
    destruct (closest attribute (document s) element) as [g | ] eqn:Hc; [ | reflexivity ].
    apply closest_nearest in Hc as (Henc & Hq & _); [ | exact Hval ].
    destruct (Hnone _ Henc Hq).
  - intros g -> Hn. cbn [negb]. rewrite (nearest_closest _ _ _ _ Hval Hn).
    split; [ reflexivity | ]. intros sibling Hsib Hn'.
    pose proof Hn as (_ & Hq & _). split.
    + apply closest_nearest.
      * destruct g; simpl;
          [ apply get_update_is_Some; [ apply setAttr_keeps_shape | exact Hsib ] | exact Hsib ].
      * rewrite closest_setAttribute by exact Hq.
        apply nearest_closest; assumption.
    + apply getAttribute_setAttribute, Hq.
Qed.

(** ** Selectors and writes *)

Lemma onAttrs_keeps_shape phi : keeps_shape (onAttrs phi).
Proof. intros [t a ch | s]; simpl; auto. Qed.

Arguments children_paths : simpl never.

Section PathLemmas.
Variable sel : string -> bool.

Lemma children_paths_nil (F : node -> list path) j : children_paths F j [] = [].
Proof. reflexivity. Qed.

Lemma children_paths_cons (F : node -> list path) j c l :
  children_paths F j (c :: l) = map (cons j) (F c) ++ children_paths F (S j) l.
Proof. reflexivity. Qed.

Lemma children_paths_app (F : node -> list path) j l1 l2 :
  children_paths F j (l1 ++ l2) =
  children_paths F j l1 ++ children_paths F (j + length l1) l2.
Proof.
  revert j. induction l1 as [ | c l1 IH ]; intros j; cbn [app length].
  - rewrite ?children_paths_nil, Nat.add_0_r. reflexivity.
  - rewrite !children_paths_cons, IH, <- app_assoc. do 3 f_equal. lia.
Qed.

Lemma children_paths_alter (F : node -> list path) (g : node -> node) j i l :
  (forall c, l !! i = Some c -> F (g c) = F c) ->
  children_paths F j (alter g i l) = children_paths F j l.
Proof.
  revert j i. induction l as [ | c l IH ]; intros j i H; [ reflexivity | ].
  destruct i as [ | i ]; simpl; rewrite !children_paths_cons.
  - rewrite H by reflexivity. reflexivity.
  - f_equal. apply IH. intros c' Hc'. apply H. exact Hc'.
Qed.

Lemma elem_of_children_paths (F : node -> list path) j l p :
  p ∈ children_paths F j l <->
  exists i c r, l !! i = Some c /\ r ∈ F c /\ p = (j + i) :: r.
Proof.
  revert j. induction l as [ | c l IH ]; intros j.
  - rewrite children_paths_nil.
    split; [ intros H; inversion H | intros (i & c & r & H & _); discriminate ].
  - rewrite children_paths_cons, elem_of_app, list_elem_of_fmap, IH. split.
    + intros [(r & -> & Hr) | (i & c' & r & Hi & Hr & ->)].
      * exists 0, c, r. rewrite Nat.add_0_r. auto.
      * exists (S i), c', r. split; [ exact Hi | ]. split; [ exact Hr | ]. f_equal. lia.
    + intros ([ | i ] & c' & r & Hi & Hr & ->); simpl in Hi.
      * injection Hi as <-. left. exists r. rewrite Nat.add_0_r. auto.
      * right. exists i, c', r. split; [ exact Hi | ]. split; [ exact Hr | ]. f_equal. lia.
Qed.

(** The paths a selector returns lead to elements it matches, and to
    all of them. *)
Lemma elem_of_subtree_paths n p :
  p ∈ subtree_paths sel n <->
  exists t a ch, get n p = Some (Elem t a ch) /\ sel t = true.
Proof.
  revert p. induction n as [ s | t a ch IH ] using node_ind'; intros p.
  - simpl. split; [ intros H; inversion H | ].
    intros (t & a & ch & H & _). destruct p; discriminate.
  - simpl. rewrite elem_of_app, elem_of_children_paths. split.
    + intros [H | (i & c & r & Hi & Hr & ->)].
      * destruct (sel t) eqn:Hs; [ | inversion H ].
        apply list_elem_of_singleton in H as ->. exists t, a, ch. auto.
      * simpl. rewrite Hi. rewrite Forall_forall in IH.
        apply IH; [ eapply list_elem_of_lookup_2; eauto | exact Hr ].
    + intros (t' & a' & ch' & Hget & Hs). destruct p as [ | i r ]; simpl in Hget.
      * injection Hget as -> -> ->. left. rewrite Hs. apply list_elem_of_here.
      * right. destruct (ch !! i) as [c | ] eqn:Hi; [ | discriminate ].
        exists i, c, r. split; [ exact Hi | ]. split; [ | reflexivity ].
        rewrite Forall_forall in IH.
        apply IH; [ eapply list_elem_of_lookup_2; eauto | eauto ].
Qed.

Lemma elem_of_querySelectorAll n p :
  p ∈ querySelectorAll sel n <->
  p <> [] /\ exists t a ch, get n p = Some (Elem t a ch) /\ sel t = true.
Proof.
  destruct n as [t a ch | s]; simpl.
  - rewrite elem_of_children_paths. split.
    + intros (i & c & r & Hi & Hr & ->). split; [ discriminate | ].
      simpl. rewrite Hi. apply elem_of_subtree_paths, Hr.
    + intros [Hne H]. destruct p as [ | i r ]; [ congruence | ]. simpl in H.
      destruct (ch !! i) as [c | ] eqn:Hi; [ | destruct H as (? & ? & ? & ? & _); discriminate ].
      exists i, c, r. split; [ exact Hi | ]. split; [ | reflexivity ].
      apply elem_of_subtree_paths, H.
  - split; [ intros H; inversion H | ].
    intros [Hne (t & a & ch & H & _)]. destruct p; [ congruence | discriminate ].
Qed.

(** Attribute writes do not change what a selector on tag names
    returns. *)
Lemma subtree_paths_update_attrs phi p n :
  subtree_paths sel (update (onAttrs phi) p n) = subtree_paths sel n.
Proof.
  revert n. induction p as [ | i r IH ]; intros n; simpl.
  - destruct n; reflexivity.
  - destruct n as [t a ch | ]; [ | reflexivity ]. simpl. f_equal.
    apply children_paths_alter. intros c _. apply IH.
Qed.

Lemma querySelectorAll_update_attrs phi p n :
  querySelectorAll sel (update (onAttrs phi) p n) = querySelectorAll sel n.
Proof.
  destruct p as [ | i r ]; simpl.
  - destruct n; reflexivity.
  - destruct n as [t a ch | ]; [ | reflexivity ]. simpl.
    apply children_paths_alter. intros c _. apply subtree_paths_update_attrs.
Qed.

(** Neither does appending a subtree in which the selector matches
    nothing. *)
Lemma subtree_paths_appendTo g n :
  subtree_paths sel g = [] ->
  subtree_paths sel (appendTo g n) = subtree_paths sel n.
Proof.
  intros Hg. destruct n as [t a ch | ]; [ | reflexivity ]. simpl. f_equal.
  rewrite children_paths_app, children_paths_cons, Hg. simpl. apply app_nil_r.
Qed.

Lemma subtree_paths_update_append g p n :
  subtree_paths sel g = [] ->
  subtree_paths sel (update (appendTo g) p n) = subtree_paths sel n.
Proof.
  intros Hg. revert n. induction p as [ | i r IH ]; intros n; simpl.
  - apply subtree_paths_appendTo, Hg.
  - destruct n as [t a ch | ]; [ | reflexivity ]. simpl. f_equal.
    apply children_paths_alter. intros c _. apply IH.
Qed.

Lemma querySelectorAll_update_append g p n :
  subtree_paths sel g = [] ->
  querySelectorAll sel (update (appendTo g) p n) = querySelectorAll sel n.
Proof.
  intros Hg. destruct p as [ | i r ]; simpl.
  - destruct n as [t a ch | ]; [ | reflexivity ]. simpl.
    rewrite children_paths_app, children_paths_cons, Hg. simpl. apply app_nil_r.
  - destruct n as [t a ch | ]; [ | reflexivity ]. simpl.
    apply children_paths_alter. intros c _. apply subtree_paths_update_append, Hg.
Qed.

(** A new first child shifts the references to the other children. *)
Lemma children_paths_shift (F : node -> list path) j l :
  children_paths F (S j) l = map relocate (children_paths F j l).
Proof.
  revert j. induction l as [ | c l IH ]; intros j; [ reflexivity | ].
  rewrite !children_paths_cons, map_app, map_map, <- IH. reflexivity.
Qed.

Lemma querySelectorAll_insertFirst c n :
  subtree_paths sel c = [] ->
  querySelectorAll sel (insertFirst c n) = map relocate (querySelectorAll sel n).
Proof.
  intros Hc. destruct n as [t a ch | ]; [ | reflexivity ]. simpl.
  rewrite children_paths_cons, Hc. simpl. apply children_paths_shift.
Qed.
End PathLemmas.

(** ** Writes at different places *)

Lemma update_ext f g p n :
  (forall m, get n p = Some m -> f m = g m) -> update f p n = update g p n.
Proof.
  revert n. induction p as [ | i r IH ]; intros n H; simpl.
  - apply H. reflexivity.
  - destruct n as [t a ch | ]; [ | reflexivity ]. f_equal.
    apply list_alter_ext; [ | reflexivity ]. intros c Hc. apply IH.
    intros m Hm. apply H. simpl. rewrite Hc. exact Hm.
Qed.

Lemma update_id f p n :
  (forall m, get n p = Some m -> f m = m) -> update f p n = n.
Proof.
  revert n. induction p as [ | i r IH ]; intros n H; simpl.
  - apply H. reflexivity.
  - destruct n as [t a ch | ]; [ | reflexivity ]. f_equal.
    rewrite <- (list_alter_id (fun x => x) ch i) at 2 by reflexivity.
    apply list_alter_ext; [ | reflexivity ]. intros c Hc. apply IH.
    intros m Hm. apply H. simpl. rewrite Hc. exact Hm.
Qed.

Lemma update_update_eq f g p n :
  update f p (update g p n) = update (fun m => f (g m)) p n.
Proof.
  revert n. induction p as [ | i r IH ]; intros n; simpl; [ reflexivity | ].
  destruct n as [t a ch | ]; [ | reflexivity ]. simpl. f_equal.
  rewrite list_alter_alter_eq. apply list_alter_ext; [ | reflexivity ].
  intros c _. apply IH.
Qed.

(** Attribute writes on two different nodes commute. *)
Lemma update_attrs_comm phi psi p q n :
  p <> q ->
  update (onAttrs phi) p (update (onAttrs psi) q n) =
  update (onAttrs psi) q (update (onAttrs phi) p n).
Proof.
  revert q n. induction p as [ | i r IH ]; intros q n Hne.
  - destruct q as [ | j r' ]; [ congruence | ]. destruct n; reflexivity.
  - destruct q as [ | j r' ]; [ destruct n; reflexivity | ].
    destruct n as [t a ch | ]; [ | reflexivity ]. simpl. f_equal.
    destruct (decide (i = j)) as [<- | Hij].
    + rewrite !list_alter_alter_eq. apply list_alter_ext; [ | reflexivity ].
      intros c _. simpl. apply IH. congruence.
    + apply list_alter_alter_ne, Hij.
Qed.

(** An attribute write on an existing node commutes with appending a
    child anywhere. *)
Lemma update_attrs_append_comm phi g p dp n :
  is_Some (get n p) ->
  update (onAttrs phi) p (update (appendTo g) dp n) =
  update (appendTo g) dp (update (onAttrs phi) p n).
Proof.
  revert dp n. induction p as [ | i r IH ]; intros dp n Hval.
  - destruct dp as [ | j r' ]; destruct n; reflexivity.
  - destruct n as [t a ch | ]; [ | destruct dp; reflexivity ].
    simpl in Hval. destruct (ch !! i) as [c | ] eqn:Hc; [ | destruct Hval; discriminate ].
    destruct dp as [ | j r' ]; simpl; f_equal.
    + apply alter_app_l. eapply lookup_lt_Some, Hc.
    + destruct (decide (i = j)) as [<- | Hij].
      * rewrite !list_alter_alter_eq. apply list_alter_ext; [ | reflexivity ].
        intros c' Hc'. simpl. apply IH. rewrite Hc in Hc'. injection Hc' as <-. exact Hval.
      * apply list_alter_alter_ne, Hij.
Qed.

Lemma onAttrs_extends phi : extends (onAttrs phi).
Proof. intros [t a ch | s]; simpl; auto. Qed.

Lemma appendTo_extends g : extends (appendTo g).
Proof.
  intros [t a ch | s]; simpl; split; auto.
  intros i c H. destruct (ch !! i) as [c' | ] eqn:Hc; [ | discriminate ].
  rewrite (lookup_app_l_Some _ _ _ _ Hc). exact H.
Qed.

(** Such an update keeps every node in place, with its tag. *)
Lemma get_update_extends f q n p m :
  extends f -> get n p = Some m ->
  exists m', get (update f q n) p = Some m' /\ tagOf m' = tagOf m.
Proof.
  intros Hf. revert n p. induction q as [ | j r IH ]; intros n p Hget.
  - simpl. destruct (Hf n) as [Ht Hc]. destruct p as [ | i p ].
    + simpl in *. injection Hget as <-. eauto.
    + destruct n as [t a ch | ]; [ | discriminate ]. simpl in Hget.
      destruct (ch !! i) as [c | ] eqn:Hi; [ | discriminate ].
      specialize (Hc i c). simpl in Hc. rewrite Hi in Hc. specialize (Hc eq_refl).
      destruct (f (Elem t a ch)) as [t' a' ch' | ]; [ | discriminate ]. simpl in *.
      destruct (ch' !! i) as [c' | ]; [ | discriminate ]. injection Hc as ->.
      eauto.
  - destruct n as [t a ch | ]; [ | simpl; eauto ]. destruct p as [ | i p ].
    + simpl in *. injection Hget as <-. eauto.
    + simpl in *. destruct (ch !! i) as [c | ] eqn:Hi; [ | discriminate ].
      destruct (decide (j = i)) as [-> | Hne].
      * rewrite list_lookup_alter_eq, Hi. simpl. apply IH, Hget.
      * rewrite list_lookup_alter_ne, Hi by exact Hne. eauto.
Qed.

(** Removing a node makes an earlier update of that node irrelevant. *)
Lemma remove_update f p n : p <> [] -> remove p (update f p n) = remove p n.
Proof.
  revert n. induction p as [ | i r IH ]; intros n Hne; [ congruence | ].
  destruct n as [t a ch | ]; [ | destruct r; reflexivity ].
  destruct r as [ | i' r ].
  - simpl. f_equal. clear. revert i. induction ch as [ | c ch IHch ]; intros [ | i ]; simpl; auto.
    f_equal. apply IHch.
  - change (Elem t a (alter (remove (i' :: r)) i (alter (update f (i' :: r)) i ch)) =
            Elem t a (alter (remove (i' :: r)) i ch)).
    f_equal. rewrite list_alter_alter_eq. apply list_alter_ext; [ | reflexivity ].
    intros c _. simpl. apply IH. discriminate.
Qed.

(** ** Restoring the recorded attributes *)

Lemma set_svg_id s : set_svg (svg (document s)) s = s.
Proof. destruct s as [? [? ?] ? ? ?]. reflexivity. Qed.

Lemma set_svg_set_svg t t' s : set_svg t' (set_svg t s) = set_svg t' s.
Proof. reflexivity. Qed.

Lemma restoreElement_run elements o s :
  restoreElement elements o s =
    (Return tt, set_svg (restoreStep elements (svg (document s)) o) s).
Proof.
  unfold restoreElement, restoreStep, bind, gets, id. cbv beta iota.
  destruct (elements !! o_index o) as [element | ]; [ | unfold ret; rewrite set_svg_id; reflexivity ].
  destruct (get (svg (document s)) element) as [n | ]; [ | unfold ret; rewrite set_svg_id; reflexivity ].
  destruct (bool_decide _); [ reflexivity | unfold ret; rewrite set_svg_id; reflexivity ].
Qed.

Lemma forEach_restoreElement elements recs s :
  forEach (restoreElement elements) recs s =
    (Return tt, set_svg (fold_left (restoreStep elements) recs (svg (document s))) s).
Proof.
  unfold forEach. revert s. induction recs as [ | o recs IH ]; intros s; simpl.
  - unfold ret. rewrite set_svg_id. reflexivity.
  - unfold bind at 1. rewrite restoreElement_run, IH. reflexivity.
Qed.

Lemma restoreNode_onAttrs o n : restoreNode o n = onAttrs (restoreMap o) n.
Proof.
  unfold restoreNode, restoreMap, restoreAttribute, restoreValue, setAttr, removeAttr.
  destruct (o_fill o), (o_stroke o), (o_style o), n; reflexivity.
Qed.

Lemma restoreValue_comm k1 v1 k2 v2 a :
  k1 <> k2 ->
  restoreValue k1 v1 (restoreValue k2 v2 a) = restoreValue k2 v2 (restoreValue k1 v1 a).
Proof.
  intros Hne. destruct v1, v2; simpl.
  - apply insert_insert_ne; congruence.
  - symmetry. apply delete_insert_ne. congruence.
  - apply delete_insert_ne. congruence.
  - apply delete_delete.
Qed.

Lemma restoreValue_insert k value v a :
  restoreValue k value (<[k:=v]> a) = restoreValue k value a.
Proof.
  destruct value; simpl; [ apply insert_insert_eq | apply delete_insert_eq ].
Qed.

(** Restoring overwrites whatever a colouring wrote. *)
Lemma restoreMap_insert o k v a :
  k = "fill" \/ k = "stroke" ->
  restoreMap o (<[k:=v]> a) = restoreMap o a.
Proof.
  unfold restoreMap. intros [-> | ->].
  - rewrite restoreValue_insert. reflexivity.
  - change (<["stroke":=v]> a) with (restoreValue "stroke" (Some v) a).
    rewrite (restoreValue_comm "fill" _ "stroke") by discriminate.
    simpl. rewrite restoreValue_insert. reflexivity.
Qed.

(** Restoring the values a node has leaves it as it is. *)
Lemma restoreValue_id k a : restoreValue k (a !! k) a = a.
Proof.
  destruct (a !! k) eqn:E; simpl; [ apply insert_id, E | apply delete_id, E ].
Qed.

Lemma restoreMap_id o a :
  o_fill o = a !! "fill" -> o_stroke o = a !! "stroke" -> o_style o = a !! "style" ->
  restoreMap o a = a.
Proof.
  unfold restoreMap. intros -> -> ->. rewrite !restoreValue_id. reflexivity.
Qed.

(** The tag found at a path survives an attribute write. *)
Lemma get_update_tag phi q n p :
  tagOf <$> get (update (onAttrs phi) q n) p = tagOf <$> get n p.
Proof.
  revert n p. induction q as [ | j r IH ]; intros n p; simpl.
  - destruct n as [t a ch | ]; destruct p; reflexivity.
  - destruct n as [t a ch | ]; [ | reflexivity ].
    destruct p as [ | i p ]; simpl; [ reflexivity | ].
    destruct (decide (j = i)) as [-> | Hne].
    + rewrite list_lookup_alter_eq. destruct (ch !! i); simpl; [ apply IH | reflexivity ].
    + rewrite list_lookup_alter_ne by exact Hne. reflexivity.
Qed.

Section Restore.
Variable elements : list path.

(** A colour written on an element that has a record is overwritten by
    the restore loop. *)
Lemma restore_absorbs recs t p k v :
  k = "fill" \/ k = "stroke" ->
  (exists o n, o ∈ recs /\ elements !! o_index o = Some p /\
               get t p = Some n /\ tagOf n = o_tagName o) ->
  fold_left (restoreStep elements) recs (update (setAttr k v) p t) =
  fold_left (restoreStep elements) recs t.
Proof.
  intros Hk. revert t. induction recs as [ | o' recs IH ]; intros t (o & n & Ho & Hp & Hn & Ht).
  - inversion Ho.
  - simpl. unfold restoreStep at 2 4.
    destruct (elements !! o_index o') as [p' | ] eqn:Hp'.
    2:{ apply IH. exists o, n. apply elem_of_cons in Ho as [-> | Ho]; [ congruence | auto ]. }
    pose proof (get_update_tag (insert k v) p t p') as Htag. fold (setAttr k v) in Htag.
    destruct (get t p') as [n' | ] eqn:Hn';
      destruct (get (update (setAttr k v) p t) p') as [n1 | ] eqn:Hn1; try discriminate.
    2:{ apply IH. exists o, n. apply elem_of_cons in Ho as [-> | Ho]; [ congruence | auto ]. }
    simpl in Htag. injection Htag as Htag. rewrite Htag.
    destruct (bool_decide (tagOf n' = o_tagName o')) eqn:Hmatch.
    2:{ apply IH. exists o, n. apply elem_of_cons in Ho as [-> | Ho]; [ | auto ].
        apply bool_decide_eq_false in Hmatch. congruence. }
    destruct (decide (p' = p)) as [-> | Hne].
    + f_equal. rewrite update_update_eq. apply update_ext. intros m _.
      rewrite !restoreNode_onAttrs. destruct m; simpl; [ | reflexivity ].
      f_equal. apply restoreMap_insert, Hk.
    + rewrite (update_ext (restoreNode o') (onAttrs (restoreMap o')) p')
        by (intros; apply restoreNode_onAttrs).
      rewrite (update_ext (restoreNode o') (onAttrs (restoreMap o')) p' t)
        by (intros; apply restoreNode_onAttrs).
      unfold setAttr. rewrite update_attrs_comm by exact Hne.
      apply IH. apply elem_of_cons in Ho as [-> | Ho]; [ congruence | ].
      pose proof (get_update_tag (restoreMap o') p' t p) as Htag'. rewrite Hn in Htag'.
      destruct (get (update (onAttrs (restoreMap o')) p' t) p) as [n2 | ]; [ | discriminate ].
      injection Htag' as Htag'. exists o, n2. split; [ exact Ho | ]. split; [ exact Hp | ].
      split; [ reflexivity | congruence ].
Qed.

(** A child appended anywhere stays where it is through the restore
    loop. *)
Lemma restore_append recs t g dp :
  (forall p, p ∈ elements -> is_Some (get t p)) ->
  fold_left (restoreStep elements) recs (update (appendTo g) dp t) =
  update (appendTo g) dp (fold_left (restoreStep elements) recs t).
Proof.
  revert t. induction recs as [ | o recs IH ]; intros t Hval; [ reflexivity | ].
  simpl. unfold restoreStep at 2 4.
  destruct (elements !! o_index o) as [p | ] eqn:Hp; [ | apply IH, Hval ].
  destruct (Hval p) as [n Hn]; [ eapply list_elem_of_lookup_2, Hp | ].
  destruct (get_update_extends (appendTo g) dp t p n (appendTo_extends g) Hn) as (n' & Hn' & Ht).
  rewrite Hn, Hn', Ht.
  destruct (bool_decide (tagOf n = o_tagName o)); [ | apply IH, Hval ].
  rewrite (update_ext (restoreNode o) (onAttrs (restoreMap o)) p)
    by (intros; apply restoreNode_onAttrs).
  rewrite (update_ext (restoreNode o) (onAttrs (restoreMap o)) p t)
    by (intros; apply restoreNode_onAttrs).
  rewrite update_attrs_append_comm by eauto.
  apply IH. intros q Hq. apply get_update_is_Some; [ apply onAttrs_keeps_shape | apply Hval, Hq ].
Qed.

(** On a tree that still has the recorded values the restore loop
    changes nothing. *)
Lemma restore_id recs t :
  (forall o p n, o ∈ recs -> elements !! o_index o = Some p -> get t p = Some n ->
     o_fill o = attrsOf n !! "fill" /\ o_stroke o = attrsOf n !! "stroke" /\
     o_style o = attrsOf n !! "style") ->
  fold_left (restoreStep elements) recs t = t.
Proof.
  induction recs as [ | o recs IH ]; intros H; [ reflexivity | ].
  simpl. assert (restoreStep elements t o = t) as ->.
  { unfold restoreStep. destruct (elements !! o_index o) as [p | ] eqn:Hp; [ | reflexivity ].
    destruct (get t p) as [n | ] eqn:Hn; [ | reflexivity ].
    destruct (bool_decide _); [ | reflexivity ].
    apply update_id. intros m Hm. rewrite Hn in Hm. injection Hm as <-.
    destruct (H o p n) as (Hf & Hs & Hy); [ apply list_elem_of_here | assumption.. | ].
    rewrite restoreNode_onAttrs. destruct n; simpl; [ | reflexivity ].
    f_equal. apply restoreMap_id; assumption. }
  apply IH. intros o' p n Ho'. apply H. apply list_elem_of_further, Ho'.
Qed.
End Restore.

(** ** What a colouring pass does to the target *)

Lemma gradient_unselected sel gradientId color1 color2 :
  sel "linearGradient" = false -> sel "stop" = false ->
  subtree_paths sel (gradientElement gradientId color1 color2) = [].
Proof.
  intros H1 H2. unfold gradientElement. simpl. rewrite H1.
  rewrite !children_paths_cons. simpl. rewrite H2. reflexivity.
Qed.

Section Recolored.
Variables (dp : path) (t0 : node).

Lemma recolored_querySelectorAll sel t :
  sel "linearGradient" = false -> sel "stop" = false ->
  recolored dp t0 t -> querySelectorAll sel t = querySelectorAll sel t0.
Proof.
  intros H1 H2. induction 1 as [ | t p k v _ IH _ _ | t gid c1 c2 _ IH ].
  - reflexivity.
  - unfold setAttr. rewrite querySelectorAll_update_attrs. exact IH.
  - rewrite querySelectorAll_update_append; [ exact IH | ].
    apply gradient_unselected; assumption.
Qed.

Lemma grown_querySelectorAll sel t :
  sel "linearGradient" = false -> sel "stop" = false ->
  grown dp t0 t -> querySelectorAll sel t = querySelectorAll sel t0.
Proof.
  intros H1 H2. induction 1 as [ | t gid c1 c2 _ IH ]; [ reflexivity | ].
  rewrite querySelectorAll_update_append; [ exact IH | ].
  apply gradient_unselected; assumption.
Qed.

Lemma grown_remove t : dp <> [] -> grown dp t0 t -> remove dp t = remove dp t0.
Proof.
  intros Hdp. induction 1 as [ | t gid c1 c2 _ IH ]; [ reflexivity | ].
  rewrite remove_update by exact Hdp. exact IH.
Qed.

(** Every node of [t0] is still in place, with its tag. *)
Lemma recolored_get t p n :
  recolored dp t0 t -> get t0 p = Some n ->
  exists n', get t p = Some n' /\ tagOf n' = tagOf n.
Proof.
  intros H Hn. induction H as [ | t q k v _ IH _ _ | t gid c1 c2 _ IH ].
  - eauto.
  - destruct IH as (n1 & Hn1 & Ht1).
    destruct (get_update_extends (setAttr k v) q t p n1 (onAttrs_extends _) Hn1)
      as (n2 & Hn2 & Ht2).
    exists n2. split; [ exact Hn2 | congruence ].
  - destruct IH as (n1 & Hn1 & Ht1).
    destruct (get_update_extends (appendTo (gradientElement gid c1 c2)) dp t p n1
                (appendTo_extends _) Hn1) as (n2 & Hn2 & Ht2).
    exists n2. split; [ exact Hn2 | congruence ].
Qed.

(** The target element itself keeps its tag and its attributes. *)
Lemma recolored_root t :
  dp <> [] -> recolored dp t0 t -> tagOf t = tagOf t0 /\ attrsOf t = attrsOf t0.
Proof.
  intros Hdp. induction 1 as [ | t p k v _ IH Hp _ | t gid c1 c2 _ IH ].
  - auto.
  - apply elem_of_querySelectorAll in Hp as [Hp _].
    destruct p as [ | i r ]; [ congruence | ]. destruct t; exact IH.
  - destruct dp as [ | i r ]; [ congruence | ]. destruct t; exact IH.
Qed.

(** After a colouring pass the restore loop gives [t0] back, up to the
    gradients appended at [dp]. *)
Lemma recolored_restore recs t :
  aligned recs (querySelectorAll paintable_or_g t0) t0 ->
  recolored dp t0 t ->
  grown dp t0 (fold_left (restoreStep (querySelectorAll paintable_or_g t0)) recs t).
Proof.
  intros [Hlen Hal] H. induction H as [ | t p k v Hrec IH Hp Hk | t gid c1 c2 Hrec IH ].
  - rewrite restore_id; [ constructor | ].
    intros o p n Ho Hp Hn. apply list_elem_of_lookup_1 in Ho as [i Hi].
    destruct (Hal i o Hi) as (<- & p' & n' & Hp' & Hn' & _ & Hvals).
    rewrite Hp in Hp'. injection Hp' as <-. rewrite Hn in Hn'. injection Hn' as <-.
    exact Hvals.
  - rewrite restore_absorbs; [ exact IH | exact Hk | ].
    apply list_elem_of_lookup_1 in Hp as [i Hi].
    destruct (lookup_lt_is_Some_2 recs i) as [o Ho].
    { rewrite Hlen. eapply lookup_lt_Some, Hi. }
    destruct (Hal i o Ho) as (Hidx & p' & n' & Hp' & Hn' & Htag & _).
    rewrite Hi in Hp'. injection Hp' as <-.
    destruct (recolored_get t p n' Hrec Hn') as (n1 & Hn1 & Ht1).
    exists o, n1. split; [ eapply list_elem_of_lookup_2, Ho | ].
    split; [ rewrite Hidx; exact Hi | ]. split; [ exact Hn1 | congruence ].
  - rewrite restore_append; [ constructor; exact IH | ].
    intros p Hp. apply elem_of_querySelectorAll in Hp as (_ & tg & a & ch & Hget & _).
    destruct (recolored_get t p _ Hrec Hget) as (n1 & Hn1 & _). eauto.
Qed.
End Recolored.

(** ** What [resetColors] computes *)

Lemma resetColors_run s o :
  idOf (svg (document s)) <> "" ->
  svgStates s !! idOf (svg (document s)) = Some o ->
  let restored :=
    fold_left (restoreStep (querySelectorAll paintable_or_g (svg (document s))))
      (os_elements o) (svg (document s)) in
  let r := resetColors s in
  r.1 = Return true /\
  svg (document r.2) = putDefs (os_defs o) (withoutDefs restored) /\
  outer (document r.2) = outer (document s) /\
  svgStates r.2 = svgStates s /\
  events r.2 = events s ++ [Reset (idOf (svg (document s)))].
Proof.
  intros Hid Hsnap.
  assert ((if truthy (Some (idOf (svg (document s))))
           then svgStates s !! idOf (svg (document s)) else None) = Some o) as E.
  { unfold truthy. rewrite bool_decide_eq_false_2 by exact Hid. exact Hsnap. }
  unfold resetColors, try_catch, bind, gets, id. cbv beta iota zeta. rewrite E.
  rewrite forEach_restoreElement. cbv beta iota.
  unfold withoutDefs, putDefs.
  change (svg (document (set_svg ?t s))) with t.
  destruct (querySelector is_defs _) as [p | ]; destruct (os_defs o) as [d | ];
    repeat split; reflexivity.
Qed.

(** ** Invariants of the methods *)

Section Preserves.
Context {A B : Type} (I : state -> Prop).

Lemma preserves_ret (a : A) : preserves I (ret a).
Proof. intros s H. exact H. Qed.

Lemma preserves_throw (e : exn) : preserves I (@throw A e).
Proof. intros s H. exact H. Qed.

Lemma preserves_gets (f : state -> A) : preserves I (gets f).
Proof. intros s H. exact H. Qed.

Lemma preserves_modify (f : state -> state) :
  (forall s, I s -> I (f s)) -> preserves I (modify f).
Proof. intros Hf s H. apply Hf, H. Qed.

Lemma preserves_bind (m : M A) (k : A -> M B) :
  preserves I m -> (forall a, preserves I (k a)) -> preserves I (bind m k).
Proof.
  intros Hm Hk s H. unfold bind. specialize (Hm s H).
  destruct (m s) as [[a | e] s']; simpl in *; [ apply Hk, Hm | exact Hm ].
Qed.

Lemma preserves_try_catch (m : M A) (handler : exn -> M A) :
  preserves I m -> (forall e, preserves I (handler e)) -> preserves I (try_catch m handler).
Proof.
  intros Hm Hh s H. unfold try_catch. specialize (Hm s H).
  destruct (m s) as [[a | e] s']; simpl in *; [ exact Hm | apply Hh, Hm ].
Qed.

End Preserves.

(** The value of [fillColor || this.generateRandomColor()] outside the
    block that declares [fillColor]. *)
Lemma preserves_outerFillColor (I : state -> Prop) this h :
  preserves I (generateRandomColor this h) ->
  preserves I
    (fillColor <- outerFillColor h ;;
     if truthy fillColor then ret fillColor else generateRandomColor this h).
Proof.
  intros H. apply preserves_bind.
  - unfold outerFillColor.
    destruct (fillColorBinding h); [ apply preserves_ret | apply preserves_throw ].
  - intros fillColor. destruct (truthy fillColor); [ apply preserves_ret | exact H ].
Qed.

Lemma preserves_foldM {A B} (I : state -> Prop) (f : B -> A -> M B) (l : list A) (b : B) :
  (forall b x, x ∈ l -> preserves I (f b x)) -> preserves I (foldM f l b).
Proof.
  revert b. induction l as [ | x l IH ]; intros b Hf; simpl.
  - apply preserves_ret.
  - apply preserves_bind.
    + apply Hf, list_elem_of_here.
    + intros b'. apply IH. intros b'' y Hy. apply Hf, list_elem_of_further, Hy.
Qed.

Section Framed.
Variable P : gmap string originalState -> node -> Prop.

Lemma framed_emit e : preserves (framed P) (emit e).
Proof. intros s H. exact H. Qed.

Lemma framed_random h : preserves (framed P) (Math_random h).
Proof. intros s H. exact H. Qed.

Lemma framed_now h : preserves (framed P) (Date_now h).
Proof. intros s H. exact H. Qed.

Lemma framed_generateRandomColor this h : preserves (framed P) (generateRandomColor this h).
Proof. intros s H. exact H. Qed.
End Framed.

(** ** The colouring pass of [applyRandomColors] *)

Lemma paintable_or_g_paintable t : paintable t = true -> paintable_or_g t = true.
Proof.
  unfold paintable, paintable_or_g. rewrite !bool_decide_eq_true, !elem_of_cons. tauto.
Qed.

Lemma matches_g_tag k n : tagOf n <> Some "g" -> matches_g k n = false.
Proof.
  destruct n as [t a ch | ]; simpl; [ | reflexivity ]. intros Ht. unfold declares_g.
  rewrite bool_decide_eq_false_2; [ reflexivity | congruence ].
Qed.

Lemma matches_g_inv k n :
  matches_g k n = true -> exists a ch, n = Elem "g" a ch.
Proof.
  destruct n as [t a ch | ]; simpl; [ | discriminate ]. unfold declares_g.
  intros [Ht _]%andb_true_iff. apply bool_decide_eq_true in Ht as ->. eauto.
Qed.

(** A write that stays below the target lands on an element the snapshot
    records. *)
Lemma writeTarget_inner d element k p :
  tagOf (svg d) <> Some "g" ->
  element ∈ querySelectorAll paintable (svg d) ->
  writeTarget d element k = Inner p ->
  p ∈ querySelectorAll paintable_or_g (svg d).
Proof.
  intros Hroot Hel. apply elem_of_querySelectorAll in Hel as (Hne & t & a & ch & Hget & Hsel).
  unfold writeTarget.
  destruct (if uncolored _ then _ else _) as [g | ] eqn:E.
  - intros ->. destruct (uncolored _); [ | discriminate ]. unfold closest in E.
    destruct (closest_in k (svg d) element) as [q | ] eqn:Hin.
    + injection E as ->.
      destruct (closest_in_Some k (svg d) element p) as (_ & (m & Hm & Hg) & _);
        [ rewrite Hget; eauto | exact Hin | ].
      apply elem_of_querySelectorAll. split.
      * intros ->. simpl in Hm. injection Hm as <-.
        rewrite matches_g_tag in Hg by exact Hroot. discriminate.
      * destruct (matches_g_inv _ _ Hg) as (a' & ch' & ->). exists "g", a', ch'. auto.
    + destruct (list_find _ _) as [[i x] | ]; discriminate.
  - intros [= <-]. apply elem_of_querySelectorAll. split; [ exact Hne | ].
    exists t, a, ch. split; [ exact Hget | apply paintable_or_g_paintable, Hsel ].
Qed.

Section ColoringPass.
Variables (this : colorizer) (h : host).
Variables (store : gmap string originalState) (dp : path) (t0 : node).
Hypothesis root_not_g : tagOf t0 <> Some "g".
Hypothesis dp_inner : dp <> [].

Lemma pass_applyColorToElement element k color :
  element ∈ querySelectorAll paintable t0 ->
  k = "fill" \/ k = "stroke" ->
  preserves (pass_inv store dp t0) (applyColorToElement element k color).
Proof.
  intros Hel Hk s [Hstore Hrec]. rewrite applyColorToElement_run.
  split; [ exact Hstore | ]. simpl.
  destruct (writeTarget (document s) element k) as [p | i] eqn:Ht; simpl; [ | exact Hrec ].
  apply recolored_attr; [ exact Hrec | | exact Hk ].
  rewrite <- (recolored_querySelectorAll dp t0 paintable_or_g _ eq_refl eq_refl Hrec).
  eapply writeTarget_inner; [ | | exact Ht ].
  - destruct (recolored_root dp t0 _ dp_inner Hrec) as [-> _]. exact root_not_g.
  - rewrite (recolored_querySelectorAll dp t0 paintable _ eq_refl eq_refl Hrec). exact Hel.
Qed.

Lemma pass_colorElement svgId index element :
  element ∈ querySelectorAll paintable t0 ->
  preserves (pass_inv store dp t0) (colorElement this h svgId dp index element).
Proof.
  intros Hel. unfold colorElement.
  apply preserves_bind; [ apply preserves_gets | intros d ].
  apply preserves_bind.
  - destruct (shouldProcessElementColor this d element "fill"); [ | apply preserves_ret ].
    apply preserves_bind; [ apply framed_random | intros r ].
    apply preserves_bind.
    + destruct (negb _).
      * intros s [Hstore Hrec]. unfold bind at 1. rewrite generateRandomGradient_run.
        split; [ exact Hstore | ]. simpl. apply recolored_gradient, Hrec.
      * apply framed_generateRandomColor.
    + intros fillColor. apply preserves_bind; [ | intros _; apply framed_emit ].
      apply pass_applyColorToElement; auto.
  - intros _. destruct (shouldProcessElementColor this d element "stroke"); [ | apply preserves_ret ].
    apply preserves_bind.
    + destruct (independentColors (cfg this));
        [ apply framed_generateRandomColor | apply preserves_outerFillColor, framed_generateRandomColor ].
    + intros strokeColor. apply preserves_bind; [ | intros _; apply framed_emit ].
      apply pass_applyColorToElement; auto.
Qed.

Lemma pass_loop svgId (elements : list path) (count : nat) :
  (forall p, p ∈ elements -> p ∈ querySelectorAll paintable t0) ->
  preserves (pass_inv store dp t0)
    (foldM
       (fun processedCount '(index, element) =>
          try_catch
            (colorElement this h svgId dp index element ;; ret (S processedCount))
            (fun error =>
               emit (ErrorEvent error element (Some index)) ;; ret processedCount))
       (indexed elements) count).
Proof.
  intros Hel. apply preserves_foldM. intros b [index element] Hx.
  assert (element ∈ elements) as Hin.
  { unfold indexed in Hx. apply list_elem_of_lookup_1 in Hx as [i Hi].
    rewrite list_lookup_imap in Hi. destruct (elements !! i) eqn:E; [ | discriminate ].
    injection Hi as <- <-. eapply list_elem_of_lookup_2, E. }
  apply preserves_try_catch.
  - apply preserves_bind; [ apply pass_colorElement, Hel, Hin | intros _; apply preserves_ret ].
  - intros e. apply preserves_bind; [ apply framed_emit | intros _; apply preserves_ret ].
Qed.
End ColoringPass.

(** ** What [applyRandomColors] leaves behind *)

Lemma bind_run {A B} (m : M A) (k : A -> M B) s a s' :
  m s = (Return a, s') -> bind m k s = k a s'.
Proof. intros E. unfold bind. rewrite E. reflexivity. Qed.




(** ** Apply, then reset *)

Lemma aligned_snapshot d :
  aligned (os_elements (snapshotOf d)) (querySelectorAll paintable_or_g (svg d)) (svg d).
Proof.
  split; [ apply length_imap | ].
  intros i o Ho. simpl in Ho. rewrite list_lookup_imap in Ho.
  destruct (querySelectorAll paintable_or_g (svg d) !! i) as [p | ] eqn:Hp; [ | discriminate ].
  injection Ho as <-. split; [ reflexivity | ].
  assert (p ∈ querySelectorAll paintable_or_g (svg d)) as Hin
    by (eapply list_elem_of_lookup_2, Hp).
  apply elem_of_querySelectorAll in Hin as (_ & t & a & ch & Hget & _).
  exists p, (Elem t a ch). unfold originalElementOf, getAttribute. rewrite Hget. auto 10.
Qed.

Lemma get_insertFirst c n p : p <> [] -> get (insertFirst c n) (relocate p) = get n p.
Proof. intros Hp. destruct p as [ | i r ]; [ congruence | ]. destruct n; reflexivity. Qed.

Lemma aligned_insertFirst recs elements t c :
  (forall p, p ∈ elements -> p <> []) ->
  aligned recs elements t ->
  aligned recs (map relocate elements) (insertFirst c t).
Proof.
  intros Hne [Hlen Hal]. split; [ rewrite length_map; exact Hlen | ].
  intros i o Ho. destruct (Hal i o Ho) as (Hidx & p & n & Hp & Hn & Hvals).
  split; [ exact Hidx | ]. exists (relocate p), n.
  split; [ change (map relocate elements) with (relocate <$> elements);
           rewrite list_lookup_fmap, Hp; reflexivity | ].
  split; [ | exact Hvals ].
  rewrite get_insertFirst; [ exact Hn | ]. apply Hne. eapply list_elem_of_lookup_2, Hp.
Qed.

Lemma querySelector_valid sel t p :
  querySelector sel t = Some p ->
  p <> [] /\ exists tg a ch, get t p = Some (Elem tg a ch) /\ sel tg = true.
Proof.
  unfold querySelector. intros H. apply head_Some_elem_of in H.
  apply elem_of_querySelectorAll in H. exact H.
Qed.


Lemma querySelector_defs_first t a d ch :
  tagOf d = Some "defs" -> querySelector is_defs (Elem t a (d :: ch)) = Some [0].
Proof.
  destruct d as [td ad chd | ]; [ | discriminate ]. intros [= ->].
  unfold querySelector, querySelectorAll. rewrite children_paths_cons. reflexivity.
Qed.




(** ** The claims at concrete inputs *)



(** C2 (code bug), at a target without [id]: [applyRandomColors] stores
    the snapshot under a synthesized key but leaves the element without
    an [id], so [resetColors] finds nothing, returns [false] and leaves
    the new colour in place. *)
Theorem synthesized_id_not_assigned :
  let r := applyRandomColors defaultColorizer steadyHost (stateOf [] anonymousSvg) in
  r.1 = Return true /\
  idOf (svg (document r.2)) = "" /\
  is_Some (svgStates r.2 !! "svg-1700000000000-k3j9x0q2a") /\
  (resetColors r.2).1 = Return false /\
  elementRecords (svg (document (resetColors r.2).2)) =
    [(Some "path", Some "#10ac84", None, None)].
Proof.
  cbv zeta. split; [ vm_compute; reflexivity | ]. split; [ vm_compute; reflexivity | ].
  split; [ vm_compute; eexists; reflexivity | ].
  split; vm_compute; reflexivity.
Qed.

(** C3 (code bug), at a target with an [id] and no snapshot:
    [applyRandomPathColors] recolours the element and stores no
    snapshot, so a following [resetColors] returns [false] and changes
    nothing. *)
Theorem path_colors_take_no_snapshot :
  let s := stateOf [] outlinedSvg in
  let r := applyRandomPathColors defaultColorizer steadyHost (mkPathOptions None None) s in
  svgStates s !! idOf (svg (document s)) = None /\
  r.1 = Return true /\
  elementRecords (svg (document r.2)) =
    [(Some "path", Some "#10ac84", Some "#10ac84", None)] /\
  svgStates r.2 = ∅ /\
  resetColors r.2 = (Return false, r.2).
Proof.
  cbv zeta. repeat split; vm_compute; reflexivity.
Qed.

(** C4 (code bug), with [independentColors] false on an element whose
    stroke channel is selected: no stroke value is computed.  In
    [applyRandomColors] the element gets its new fill, the stroke step
    throws a [ReferenceError] that is reported as an error event, and the
    stroke stays as it was; in [applyRandomPathColors] the same error ends
    the call, which returns [false]. *)
Theorem stroke_without_independent_colors :
  let s := stateOf [] outlinedSvg in
  let r := applyRandomColors dependentColorizer steadyHost s in
  let r' := applyRandomPathColors defaultColorizer steadyHost
              (mkPathOptions None (Some false)) s in
  shouldProcessElementColor dependentColorizer (document s) [0] "stroke" = true /\
  r.1 = Return true /\
  events r.2 =
    [ ColorApplied [1] "fill" (Some "#10ac84") None;
      ErrorEvent (ReferenceError "fillColor") [1] (Some 0);
      Complete 0 1 ] /\
  elementRecords (svg (document r.2)) = [(Some "path", Some "#10ac84", Some "#000", None)] /\
  r'.1 = Return false /\
  events r'.2 =
    [ ColorApplied [0] "fill" (Some "#10ac84") (Some 0%Z);
      ErrorEvent (ReferenceError "fillColor") [] None ] /\
  elementRecords (svg (document r'.2)) = [(Some "path", Some "#10ac84", Some "#000", None)].
Proof.
  cbv zeta. repeat split; vm_compute; reflexivity.
Qed.

(** C10 (code bug), with explicit indices and [independentColors: false]
    on a target whose second element has a stroke: the out-of-range
    indices 5 and -1 are skipped, index 1 is in range and throws while
    its stroke colour is computed, so the call returns [false], emits an
    error event and no [complete] event, and index 0 is never reached. *)
Theorem path_indices_without_independent_colors :
  let s := stateOf [] (Elem "svg" (attrsFrom [("id", "c")])
                         [ Elem "path" (attrsFrom [("fill", "red")]) [];
                           Elem "path" (attrsFrom [("stroke", "#000")]) [] ]) in
  let r := applyRandomPathColors defaultColorizer steadyHost
             (mkPathOptions (Some [5; -1; 1; 0]%Z) (Some false)) s in
  length (querySelectorAll paintable (svg (document s))) = 2 /\
  r.1 = Return false /\
  events r.2 = [ ErrorEvent (ReferenceError "fillColor") [] None ] /\
  svg (document r.2) = svg (document s).
Proof.
  cbv zeta. repeat split; vm_compute; reflexivity.
Qed.

(** On a page that binds the name [fillColor], here to an element of
    that id, the stroke step does not throw: the stroke is written from
    the string conversion of that value, which is not the fill colour of
    the element either. *)
Example stroke_from_outer_binding :
  let s := stateOf [] outlinedSvg in
  let r := applyRandomColors dependentColorizer namedHost s in
  let r' := applyRandomPathColors defaultColorizer namedHost
              (mkPathOptions None (Some false)) s in
  r.1 = Return true /\
  events r.2 =
    [ ColorApplied [1] "fill" (Some "#10ac84") None;
      ColorApplied [1] "stroke" (Some "[object HTMLDivElement]") None;
      Complete 1 1 ] /\
  elementRecords (svg (document r.2)) =
    [(Some "path", Some "#10ac84", Some "[object HTMLDivElement]", None)] /\
  r'.1 = Return true /\
  elementRecords (svg (document r'.2)) =
    [(Some "path", Some "#10ac84", Some "[object HTMLDivElement]", None)].
Proof.
  cbv zeta. repeat split; vm_compute; reflexivity.
Qed.

(** C5, as stated, fails when the clock does not advance between the two
    calls: both calls return the same token. *)
Lemma gradient_tokens_same_clock :
  let s := stateOf [] iconSvg in
  let first := generateRandomGradient defaultColorizer steadyHost "icon-fill-0" s in
  let second := generateRandomGradient defaultColorizer steadyHost "icon-fill-0" first.2 in
  tokenOf first = Some "url(#gradient-icon-fill-0-1700000000000)" /\
  tokenOf second = Some "url(#gradient-icon-fill-0-1700000000000)".
Proof. cbv zeta. split; vm_compute; reflexivity. Qed.

(** [gradient_tokens_distinct] for two calls in a row under a clock that
    advances between them. *)
Lemma gradient_tokens_distinct_witness :
  let s := stateOf [] iconSvg in
  let first := generateRandomGradient defaultColorizer tickingHost "icon-fill-0" s in
  now_at tickingHost (nowCalls s) <> now_at tickingHost (nowCalls first.2) /\
  exists u1 u2,
    tokenOf first = Some u1 /\
    tokenOf (generateRandomGradient defaultColorizer tickingHost "icon-fill-0" first.2) = Some u2 /\
    u1 <> u2.
Proof.
  cbv zeta. split; [ vm_compute; discriminate | ].
  apply (gradient_tokens_distinct defaultColorizer tickingHost "icon-fill-0"
           (stateOf [] iconSvg)
           (generateRandomGradient defaultColorizer tickingHost "icon-fill-0"
              (stateOf [] iconSvg)).2).
  vm_compute. discriminate.
Defined.

(** C6, as stated, fails when the element filter rejects the element:
    the fill channel is not processed although [preserveLinearStyle] is
    off. *)
Lemma linear_style_fill_rejected :
  let d := mkDom [] linearSvg in
  hasColor d [0] "stroke" = true /\
  hasColor d [0] "fill" = false /\
  preserveLinearStyle (cfg rejectingColorizer) = false /\
  shouldProcessElementColor rejectingColorizer d [0] "fill" = false.
Proof. cbv zeta. repeat split; vm_compute; reflexivity. Qed.

(** [linear_style_fill] on [<path stroke="#000"/>], with and without
    [preserveLinearStyle]. *)
Lemma linear_style_fill_witness :
  let d := mkDom [] linearSvg in
  hasColor d [0] "stroke" = true /\
  hasColor d [0] "fill" = false /\
  shouldProcessElementColor defaultColorizer d [0] "fill" = false /\
  shouldProcessElementColor fillingColorizer d [0] "fill" = true.
Proof.
  cbv zeta. split; [ reflexivity | ]. split; [ reflexivity | ]. split.
  - apply (linear_style_fill defaultColorizer (mkDom [] linearSvg) [0]); reflexivity.
  - apply (linear_style_fill fillingColorizer (mkDom [] linearSvg) [0]);
      [ reflexivity | reflexivity | reflexivity | exact I ].
Defined.

(** C7, as stated, fails when the element filter rejects the element:
    no fill is synthesized for an element without any colour. *)
Lemma colorless_element_rejected :
  let d := mkDom [] linearSvg in
  hasColor d [1] "fill" = false /\
  hasColor d [1] "stroke" = false /\
  shouldProcessElementColor rejectingColorizer d [1] "fill" = false.
Proof. cbv zeta. repeat split; vm_compute; reflexivity. Qed.

(** [colorless_element] on [<path/>]. *)
Lemma colorless_element_witness :
  let d := mkDom [] linearSvg in
  hasColor d [1] "fill" = false /\
  hasColor d [1] "stroke" = false /\
  shouldProcessElementColor defaultColorizer d [1] "fill" = true /\
  shouldProcessElementColor defaultColorizer d [1] "stroke" = false.
Proof.
  cbv zeta. split; [ reflexivity | ]. split; [ reflexivity | ].
  destruct (colorless_element defaultColorizer (mkDom [] linearSvg) [1]) as [Hfill Hstroke];
    [ reflexivity | reflexivity | ].
  split; [ apply Hfill; exact I | exact Hstroke ].
Defined.

(** [resetColors_without_snapshot] on a target that was never coloured. *)
Lemma resetColors_without_snapshot_witness :
  let s := stateOf [] outlinedSvg in
  svgStates s !! idOf (svg (document s)) = None /\
  resetColors s = (Return false, s).
Proof.
  cbv zeta. split; [ reflexivity | ].
  apply (resetColors_without_snapshot (stateOf [] outlinedSvg)). reflexivity.
Defined.

(** C8, as stated, fails for an element that lacks the attribute
    entirely below a [g] that declares it: in
    [<g fill="#333"><path/><circle/></g>] the [path] has no [fill] of its
    own, and the write goes to the [g]; the [path] still has no [fill]
    afterwards. *)
Lemma applyColorToElement_below_group :
  let s := stateOf [] groupSvg in
  let r := applyColorToElement [0; 0] "fill" (Some "#10ac84") s in
  tagOf <$> get (svg (document s)) [0; 0] = Some (Some "path") /\
  getAttribute (document s) (Inner [0; 0]) "fill" = None /\
  r.1 = Return tt /\
  getAttribute (document r.2) (Inner [0; 0]) "fill" = None /\
  getAttribute (document r.2) (Inner [0]) "fill" = Some "#10ac84" /\
  elementRecords (svg (document r.2)) =
    [ (Some "g", Some "#10ac84", None, None);
      (Some "path", None, None, None);
      (Some "circle", None, None, None) ].
Proof. cbv zeta. repeat split; vm_compute; reflexivity. Qed.

(** [applyColorToElement_target] on a [circle] that inherits its stroke
    from the [g] around it: the write goes to the [g], whose stroke is
    the new colour afterwards; the [circle] still has no stroke of its
    own, and the [path] beside it finds the new colour on the [g]. *)
Lemma applyColorToElement_target_witness :
  let s := stateOf [] iconSvg in
  let r := applyColorToElement [1; 0] "stroke" (Some "#10ac84") s in
  (exists t a ch, get (svg (document s)) [1; 0] = Some (Elem t a ch)) /\
  r.1 = Return tt /\
  getAttribute (document s) (Inner [1]) "stroke" = Some "#000" /\
  getAttribute (document r.2) (Inner [1]) "stroke" = Some "#10ac84" /\
  getAttribute (document r.2) (Inner [1; 0]) "stroke" = None /\
  getAttribute (document r.2) (Inner [1; 1]) "fill" = Some "none" /\
  nearest_g "stroke" (document r.2) [1; 1] (Inner [1]).
Proof.
  cbv zeta.
  assert (exists t a ch, get (svg (document (stateOf [] iconSvg))) [1; 0] = Some (Elem t a ch))
    as Hel by (vm_compute; eauto).
  split; [ exact Hel | ].
  destruct (applyColorToElement_target [1; 0] "stroke" (Some "#10ac84") (stateOf [] iconSvg) Hel)
    as (target & Hrun & Hnew & Hother & _ & _ & Hnear).
  destruct (Hnear (Inner [1])) as [-> Hsib];
    [ reflexivity | apply closest_nearest; [ vm_compute; eauto | reflexivity ] | ].
  split; [ rewrite Hrun; reflexivity | ].
  split; [ reflexivity | ].
  split; [ exact Hnew | ].
  split; [ rewrite Hother by discriminate; reflexivity | ].
  split; [ rewrite Hother by discriminate; reflexivity | ].
  apply (Hsib [1; 1]); [ vm_compute; eauto | ].
  apply closest_nearest; [ vm_compute; eauto | reflexivity ].
Defined.

(** ** Indices of [applyRandomPathColors] *)

(** An index out of range is skipped: nothing is written and nothing is
    emitted. *)
Lemma colorPath_out_of_range this h independent elements count index s :
  inRange elements index = false ->
  colorPath this h independent elements count index s = (Return count, s).
Proof.
  unfold inRange, colorPath. intros ->. reflexivity.
Qed.

Lemma coloredFrom_refl s : coloredFrom s s.
Proof. split; [ reflexivity | ]. exists []. rewrite app_nil_r. auto. Qed.

Lemma coloredFrom_trans s1 s2 s3 : coloredFrom s1 s2 -> coloredFrom s2 s3 -> coloredFrom s1 s3.
Proof.
  intros [H1 (e1 & E1 & F1)] [H2 (e2 & E2 & F2)]. split; [ congruence | ].
  exists (e1 ++ e2). rewrite E2, E1, app_assoc. split; [ reflexivity | ].
  apply Forall_app; auto.
Qed.

(** One channel of one element: a sample, a write and an event. *)
Lemma color_channel this h element attribute index s :
  exists s',
    (fillColor <- generateRandomColor this h ;;
     applyColorToElement element attribute fillColor ;;
     emit (ColorApplied element attribute fillColor index)) s = (Return tt, s') /\
    coloredFrom s s'.
Proof.
  unfold bind at 1. rewrite generateRandomColor_run.
  unfold bind at 1. rewrite applyColorToElement_run.
  eexists. split; [ reflexivity | ]. split; [ reflexivity | ].
  eexists [_]. split; [ reflexivity | ]. repeat constructor.
Qed.







(** ** Sampling the palette *)

(** *** Doubles *)

Local Open Scope Q_scope.

Lemma pow2_pos e : 0 < pow2 e.
Proof. apply Qpower_0_lt. reflexivity. Qed.

Lemma pow2_add a b : pow2 (a + b) == pow2 a * pow2 b.
Proof. apply Qpower_plus. discriminate. Qed.

Lemma pow2_le a b : (a <= b)%Z -> pow2 a <= pow2 b.
Proof. intros H. apply Qpower_le_compat_l; [ exact H | discriminate ]. Qed.

Lemma pow2_Z e : (0 <= e)%Z -> pow2 e == inject_Z (2 ^ e).
Proof. intros H. unfold pow2. rewrite Zpower_Qpower by exact H. reflexivity. Qed.

Lemma pow2_succ e : pow2 (e + 1) == 2 * pow2 e.
Proof. rewrite pow2_add. change (pow2 1) with 2. ring. Qed.

Lemma pow2_sub a b : pow2 (a - b) == pow2 a / pow2 b.
Proof. apply Qpower_minus. discriminate. Qed.

Lemma log2_bounds a : (0 < a)%Z ->
  inject_Z (2 ^ Z.log2 a) <= inject_Z a /\ inject_Z a < 2 * inject_Z (2 ^ Z.log2 a).
Proof.
  intros H. destruct (Z.log2_spec a H) as [H1 H2]. split.
  - rewrite <- Zle_Qle. exact H1.
  - change 2 with (inject_Z 2). rewrite <- inject_Z_mult, <- Zlt_Qlt.
    rewrite Z.pow_succ_r in H2 by apply Z.log2_nonneg. exact H2.
Qed.

Lemma binade_spec q : 0 < q -> pow2 (binade q) <= q /\ q < pow2 (binade q + 1).
Proof.
  intros Hq. unfold binade.
  assert (Qabs q == q) as Habs by (apply Qabs_pos; lra).
  destruct q as [a b]. simpl Qnum. simpl Qden.
  assert (0 < a)%Z as Ha by (unfold Qlt in Hq; simpl in Hq; lia).
  rewrite Z.abs_eq by lia.
  set (la := Z.log2 a). set (lb := Z.log2 (Z.pos b)).
  destruct (log2_bounds a Ha) as [A1 A2]. fold la in A1, A2.
  destruct (log2_bounds (Z.pos b) eq_refl) as [B1 B2]. fold lb in B1, B2.
  assert (0 < inject_Z (2 ^ la)) as PA.
  { change 0 with (inject_Z 0). rewrite <- Zlt_Qlt. apply Z.pow_pos_nonneg; [ lia | apply Z.log2_nonneg ]. }
  assert (0 < inject_Z (2 ^ lb)) as PB.
  { change 0 with (inject_Z 0). rewrite <- Zlt_Qlt. apply Z.pow_pos_nonneg; [ lia | apply Z.log2_nonneg ]. }
  assert (pow2 (la - lb) == inject_Z (2 ^ la) / inject_Z (2 ^ lb)) as E.
  { rewrite pow2_sub, !pow2_Z by apply Z.log2_nonneg. reflexivity. }
  assert (a # b == inject_Z a / inject_Z (Z.pos b)) as Eq by apply Qmake_Qdiv.
  assert (0 < inject_Z (Z.pos b)) as Pb by reflexivity.
  destruct (Qle_bool (pow2 (la - lb)) (Qabs (a # b))) eqn:T.
  - apply Qle_bool_iff in T. rewrite Habs in T. split; [ exact T | ].
    rewrite pow2_succ, E, Eq.
    apply Qlt_shift_div_r; [ exact Pb | ].
    setoid_replace (2 * (inject_Z (2 ^ la) / inject_Z (2 ^ lb)) * inject_Z (Z.pos b))
      with ((2 * inject_Z (2 ^ la) * inject_Z (Z.pos b)) / inject_Z (2 ^ lb))
      using relation Qeq by (field; lra).
    apply Qlt_shift_div_l; [ exact PB | ]. nra.
  - assert (~ pow2 (la - lb) <= Qabs (a # b)) as T'.
    { intros H. apply Qle_bool_iff in H. congruence. }
    rewrite Habs in T'. split.
    + replace (la - lb - 1)%Z with (la - lb + (-1))%Z by lia.
      rewrite pow2_add, E, Eq. change (pow2 (-1)) with (1 # 2).
      apply Qle_shift_div_l; [ exact Pb | ].
      setoid_replace (inject_Z (2 ^ la) / inject_Z (2 ^ lb) * (1 # 2) * inject_Z (Z.pos b))
        with ((inject_Z (2 ^ la) * (1 # 2) * inject_Z (Z.pos b)) / inject_Z (2 ^ lb))
        using relation Qeq by (field; lra).
      apply Qle_shift_div_r; [ exact PB | ]. nra.
    + replace (la - lb - 1 + 1)%Z with (la - lb)%Z by lia.
      lra.
Qed.

Lemma roundEven_spec x :
  x - (1 # 2) <= inject_Z (roundEven x) /\ inject_Z (roundEven x) <= x + (1 # 2).
Proof.
  unfold roundEven.
  pose proof (Qfloor_le x) as H1. pose proof (Qlt_floor x) as H2.
  rewrite inject_Z_plus in H2. change (inject_Z 1) with 1 in H2.
  destruct (Qcompare (x - inject_Z (Qfloor x)) (1 # 2)) eqn:C.
  - apply Qeq_alt in C. destruct (Z.even _); rewrite ?inject_Z_plus; change (inject_Z 1) with 1; lra.
  - apply Qlt_alt in C. lra.
  - apply Qgt_alt in C. rewrite inject_Z_plus. change (inject_Z 1) with 1. lra.
Qed.

Lemma roundEven_nonneg x : 0 <= x -> (0 <= roundEven x)%Z.
Proof.
  intros H. assert (0 <= Qfloor x)%Z as Hf.
  { change 0%Z with (Qfloor 0). apply Qfloor_resp_le. exact H. }
  unfold roundEven. destruct (Qcompare _ _); [ destruct (Z.even _) | | ]; lia.
Qed.

(** Rounding moves a positive number by at most half a quantum. *)
Lemma toDouble_spec q :
  0 < q ->
  let u := Z.max (binade q - 52) (-1074) in
  0 <= toDouble q /\ toDouble q <= q + pow2 u * (1 # 2).
Proof.
  intros Hq u. unfold toDouble.
  destruct (Qeq_bool q 0) eqn:E.
  { apply Qeq_bool_iff in E. lra. }
  fold u. pose proof (pow2_pos u) as Hu.
  assert (0 <= q / pow2 u) as Hx.
  { apply Qle_shift_div_l; [ exact Hu | lra ]. }
  pose proof (roundEven_nonneg _ Hx) as Hn. rewrite Zle_Qle in Hn.
  destruct (roundEven_spec (q / pow2 u)) as [_ Hr].
  assert (q / pow2 u * pow2 u == q) as Hdiv by (field; lra).
  change (inject_Z 0) with 0 in Hn.
  split; [ nra | ]. nra.
Qed.

(** A double below one is at most [1 - 2^-53]. *)
Lemma double_below_one r : isDouble r -> 0 <= r -> r < 1 -> r <= 1 - pow2 (-53).
Proof.
  intros [Hd _] H0 H1. change (pow2 (-53)) with (1 # 9007199254740992).
  destruct (Qlt_le_dec r (1 # 2)) as [Hs | Hl]; [ lra | ].
  assert (0 < r) as Hr by lra.
  destruct (binade_spec r Hr) as [B1 B2].
  assert (binade r = (-1)%Z) as Hb.
  { destruct (Z.lt_trichotomy (binade r) (-1)) as [H | [H | H]]; [ | exact H | ].
    - assert (pow2 (binade r + 1) <= pow2 (-1)) by (apply pow2_le; lia).
      change (pow2 (-1)) with (1 # 2) in *. lra.
    - assert (pow2 0 <= pow2 (binade r)) by (apply pow2_le; lia).
      change (pow2 0) with 1 in *. lra. }
  unfold toDouble in Hd. destruct (Qeq_bool r 0) eqn:E.
  { apply Qeq_bool_iff in E. lra. }
  rewrite Hb in Hd. change (Z.max (-1 - 52) (-1074)) with (-53)%Z in Hd.
  change (pow2 (-53)) with (1 # 9007199254740992) in Hd.
  set (m := roundEven (r / (1 # 9007199254740992))) in *.
  assert (inject_Z m < inject_Z 9007199254740992) as Hm.
  { change (inject_Z 9007199254740992) with (9007199254740992 # 1). lra. }
  rewrite <- Zlt_Qlt in Hm.
  assert (inject_Z m <= inject_Z 9007199254740991) as Hm' by (rewrite <- Zle_Qle; lia).
  change (inject_Z 9007199254740991) with (9007199254740991 # 1) in Hm'. lra.
Qed.

(** The product of a double of [[0, 1)] and a positive integer, rounded,
    stays below the integer. *)
Lemma product_below r n :
  isDouble r -> 0 <= r -> r < 1 -> (0 < n)%Z ->
  0 <= toDouble (r * inject_Z n) /\ toDouble (r * inject_Z n) < inject_Z n.
Proof.
  intros Hd H0 H1 Hn.
  pose proof (double_below_one r Hd H0 H1) as Hr.
  change (pow2 (-53)) with (1 # 9007199254740992) in Hr.
  assert (1 <= inject_Z n) as Hn1.
  { change 1 with (inject_Z 1). rewrite <- Zle_Qle. lia. }
  set (p := r * inject_Z n).
  assert (0 <= p) as Hp0 by (unfold p; nra).
  assert (p <= (1 - (1 # 9007199254740992)) * inject_Z n) as Hp1 by (unfold p; nra).
  destruct (Qlt_le_dec 0 p) as [Hpos | Hzero].
  2:{ assert (p == 0) as Hz by lra. unfold toDouble.
      destruct (Qeq_bool p 0) eqn:E; [ lra | ].
      apply Qeq_bool_neq in E. contradiction. }
  destruct (toDouble_spec p Hpos) as [T0 T1]. cbv zeta in T1.
  split; [ exact T0 | ].
  destruct (binade_spec p Hpos) as [B1 B2].
  destruct (Z.max_spec (binade p - 52) (-1074)) as [[Hlt E] | [Hge E]]; rewrite E in T1.
  - (* below the normal range *)
    assert (pow2 (binade p + 1) <= pow2 (-1022)) as H by (apply pow2_le; lia).
    assert (pow2 (-1022) <= pow2 (-1)) as H' by (apply pow2_le; lia).
    assert (pow2 (-1074) <= pow2 (-1)) as H'' by (apply pow2_le; lia).
    change (pow2 (-1)) with (1 # 2) in *. pose proof (pow2_pos (-1074)). nra.
  - replace (binade p - 52)%Z with (binade p + (-52))%Z in T1 by lia.
    rewrite pow2_add in T1. change (pow2 (-52)) with (1 # 4503599627370496) in T1.
    pose proof (pow2_pos (binade p)). nra.
Qed.

Local Close Scope Q_scope.

(** With a double of [[0, 1)] from [Math.random] and a palette that is
    not empty, the sampled position is one of the palette. *)
Lemma paletteAt_in_range colors r :
  colors <> [] -> (Z.of_nat (length colors) < 2 ^ 32)%Z ->
  isDouble r -> (0 <= r)%Q -> (r < 1)%Q ->
  exists c, paletteAt colors r = Some c /\ c ∈ colors.
Proof.
  intros Hne Hlen Hd H0 H1. unfold paletteAt.
  set (n := Z.of_nat (length colors)) in *.
  assert (0 < n)%Z as Hn by (unfold n; destruct colors; [ congruence | simpl; lia ]).
  destruct (product_below r n Hd H0 H1 Hn) as [P0 P1].
  set (product := toDouble (r * inject_Z n)) in *.
  assert (Qle_bool (pow2 1024) (Qabs product) = false) as ->.
  { destruct (Qle_bool _ _) eqn:E; [ | reflexivity ].
    apply Qle_bool_iff in E. rewrite Qabs_pos in E by exact P0.
    assert (inject_Z n < inject_Z (2 ^ 32))%Q as Hn' by (rewrite <- Zlt_Qlt; exact Hlen).
    assert (inject_Z (2 ^ 32) <= pow2 1024)%Q as Hp by (vm_compute; discriminate).
    lra. }
  set (k := Qfloor product).
  assert (0 <= k)%Z as Hk0.
  { unfold k. change 0%Z with (Qfloor 0). apply Qfloor_resp_le. exact P0. }
  assert (k < n)%Z as Hkn.
  { rewrite Zlt_Qlt. eapply Qle_lt_trans; [ apply Qfloor_le | exact P1 ]. }
  rewrite (proj2 (Z.leb_le 0 k) Hk0).
  destruct (lookup_lt_is_Some_2 colors (Z.to_nat k)) as [c Hc]; [ unfold n in Hkn; lia | ].
  exists c. split; [ exact Hc | eapply list_elem_of_lookup_2, Hc ].
Qed.

(** The product is rounded before [Math.floor]: for the reading
    [2026619832316723 / 2^52] and the twenty colours of the default
    palette the exact product is [9 - 2^-50], half-way between two
    doubles, and the rounded one is [9]. *)
Example paletteAt_rounds :
  let r := (2026619832316723 # 4503599627370496)%Q in
  isDouble r /\
  Qfloor (r * inject_Z 20) = 8%Z /\
  paletteAt (colorPalette defaultConfig) r = Some "#ff9f43" /\
  colorPalette defaultConfig !! 9 = Some "#ff9f43".
Proof. cbv zeta. repeat split; vm_compute; reflexivity. Qed.

(** With a palette that is not empty and a reading of [Math.random] in
    [[0, 1)], [generateRandomColor] samples an entry of the palette; it
    returns that entry when no validator is set or the validator accepts
    the entry, and the fallback colour when a validator is set and
    rejects the entry.  It reads [Math.random] once and changes nothing
    else. *)
Theorem generateRandomColor_palette this h s :
  colorPalette (cfg this) <> [] ->
  (Z.of_nat (length (colorPalette (cfg this))) < 2 ^ 32)%Z ->
  isDouble (random_at h (randomCalls s)) ->
  (0 <= random_at h (randomCalls s))%Q ->
  (random_at h (randomCalls s) < 1)%Q ->
  exists c,
    c ∈ colorPalette (cfg this) /\
    paletteAt (colorPalette (cfg this)) (random_at h (randomCalls s)) = Some c /\
    generateRandomColor this h s =
      (Return (Some (match colorValidator this with
                     | Some validator => if validator (Some c) then c else "#409eff"
                     | None => c
                     end)),
       next_random s).
Proof.
  intros Hne Hlen Hd H0 H1. rewrite generateRandomColor_run. unfold sampleColor.
  destruct (paletteAt_in_range _ _ Hne Hlen Hd H0 H1) as (c & Hc & Hin).
  exists c. split; [ exact Hin | ]. split; [ exact Hc | ]. rewrite Hc.
  destruct (colorValidator this) as [validator | ]; [ | reflexivity ].
  destruct (validator (Some c)); reflexivity.
Qed.

(** [generateRandomColor_palette] with the default palette, without a
    validator and with one that accepts [#ff6b6b] only. *)
Lemma generateRandomColor_palette_witness :
  let s := stateOf [] iconSvg in
  generateRandomColor defaultColorizer steadyHost s = (Return (Some "#10ac84"), next_random s) /\
  generateRandomColor pickyColorizer steadyHost s = (Return (Some "#409eff"), next_random s).
Proof.
  cbv zeta. split.
  - destruct (generateRandomColor_palette defaultColorizer steadyHost (stateOf [] iconSvg))
      as (c & _ & Hc & ->);
      [ discriminate | reflexivity | split; vm_compute; reflexivity
      | vm_compute; discriminate | reflexivity | ].
    vm_compute in Hc. injection Hc as <-. reflexivity.
  - destruct (generateRandomColor_palette pickyColorizer steadyHost (stateOf [] iconSvg))
      as (c & _ & Hc & ->);
      [ discriminate | reflexivity | split; vm_compute; reflexivity
      | vm_compute; discriminate | reflexivity | ].
    vm_compute in Hc. injection Hc as <-. reflexivity.
Defined.

(** An element with a colour of its own on a channel has that channel
    processed, whatever [preserveLinearStyle] says, unless the element
    filter rejects it. *)
Theorem own_color_processed this d element attribute :
  accepted this d element ->
  colored (getAttribute d (Inner element) attribute) = true ->
  shouldProcessElementColor this d element attribute = true.
Proof.
  intros Hacc Hown. rewrite shouldProcess_accepted by exact Hacc.
  unfold hasColor. rewrite Hown. reflexivity.
Qed.

Lemma own_color_processed_witness :
  accepted defaultColorizer (mkDom [] iconSvg) [3] /\
  shouldProcessElementColor defaultColorizer (mkDom [] iconSvg) [3] "fill" = true.
Proof.
  split; [ exact I | ].
  apply (own_color_processed defaultColorizer (mkDom [] iconSvg) [3] "fill");
    [ exact I | reflexivity ].
Defined.

(** ** Invariants that do not look at the document *)

Section DocFree.
Variables (this : colorizer) (h : host).
Variable I : state -> Prop.
Hypothesis I_doc_free : doc_free I.
Hypothesis I_emit_stable : emit_stable I.

Lemma doc_free_emit e : preserves I (emit e).
Proof. intros s H. apply I_emit_stable, H. Qed.

Lemma doc_free_random : preserves I (Math_random h).
Proof. intros s H. apply (I_doc_free s (document s)), H. Qed.

Lemma doc_free_now : preserves I (Date_now h).
Proof. intros s H. apply (I_doc_free s (document s)), H. Qed.

Lemma doc_free_set_document (f : state -> dom) :
  preserves I (modify (fun s => set_document (f s) s)).
Proof. intros s H. apply (I_doc_free s (f s)), H. Qed.

Lemma doc_free_generateRandomColor : preserves I (generateRandomColor this h).
Proof.
  apply preserves_bind; [ apply doc_free_random | intros r; apply preserves_ret ].
Qed.

Lemma doc_free_generateRandomGradient id : preserves I (generateRandomGradient this h id).
Proof.
  unfold generateRandomGradient.
  apply preserves_bind; [ apply doc_free_generateRandomColor | intros c1 ].
  apply preserves_bind; [ apply doc_free_generateRandomColor | intros c2 ].
  apply preserves_bind; [ apply doc_free_now | intros now; apply preserves_ret ].
Qed.

Lemma doc_free_applyColorToElement element k color :
  preserves I (applyColorToElement element k color).
Proof.
  intros s H. rewrite applyColorToElement_run. apply (I_doc_free s), H.
Qed.

Lemma doc_free_colorElement svgId dp index element :
  preserves I (colorElement this h svgId dp index element).
Proof.
  unfold colorElement.
  apply preserves_bind; [ apply preserves_gets | intros d ].
  apply preserves_bind.
  - destruct (shouldProcessElementColor this d element "fill"); [ | apply preserves_ret ].
    apply preserves_bind; [ apply doc_free_random | intros r ].
    apply preserves_bind.
    + destruct (negb _); [ | apply doc_free_generateRandomColor ].
      apply preserves_bind; [ apply doc_free_generateRandomGradient | intros g ].
      apply preserves_bind; [ | intros _; apply preserves_ret ].
      apply (doc_free_set_document
               (fun s => mkDom (outer (document s))
                           (update (appendTo g.1) dp (svg (document s))))).
    + intros fillColor.
      apply preserves_bind; [ apply doc_free_applyColorToElement | intros _; apply doc_free_emit ].
  - intros _.
    destruct (shouldProcessElementColor this d element "stroke"); [ | apply preserves_ret ].
    apply preserves_bind.
    + destruct (independentColors (cfg this));
        [ apply doc_free_generateRandomColor | apply preserves_outerFillColor, doc_free_generateRandomColor ].
    + intros strokeColor.
      apply preserves_bind; [ apply doc_free_applyColorToElement | intros _; apply doc_free_emit ].
Qed.

Lemma doc_free_loop svgId dp (l : list (nat * path)) count :
  preserves I
    (foldM
       (fun processedCount '(index, element) =>
          try_catch
            (colorElement this h svgId dp index element ;; ret (S processedCount))
            (fun error =>
               emit (ErrorEvent error element (Some index)) ;; ret processedCount))
       l count).
Proof.
  apply preserves_foldM. intros b [index element] _.
  apply preserves_try_catch.
  - apply preserves_bind; [ apply doc_free_colorElement | intros _; apply preserves_ret ].
  - intros e. apply preserves_bind; [ apply doc_free_emit | intros _; apply preserves_ret ].
Qed.

(** [applyRandomColors] keeps such an invariant when
    [saveOriginalState] does. *)
Lemma doc_free_applyRandomColors :
  (forall svgId, preserves I (saveOriginalState svgId)) ->
  preserves I (applyRandomColors this h).
Proof.
  intros Hsave. unfold applyRandomColors. apply preserves_try_catch.
  2:{ intros e. apply preserves_bind; [ apply doc_free_emit | intros _; apply preserves_ret ]. }
  apply preserves_bind; [ apply preserves_gets | intros s0 ].
  destruct (svg (document s0)) as [t a ch | ]; [ | apply preserves_throw ].
  destruct (negb _).
  { apply preserves_bind; [ apply doc_free_emit | intros _; apply preserves_ret ]. }
  apply preserves_bind.
  { destruct (truthy _); [ apply preserves_ret | ].
    apply preserves_bind; [ apply doc_free_now | intros now ].
    apply preserves_bind; [ apply doc_free_random | intros r; apply preserves_ret ]. }
  intros svgId. apply preserves_bind; [ apply Hsave | intros _ ].
  apply preserves_bind; [ apply preserves_gets | intros elements ].
  destruct (bool_decide _); [ apply preserves_ret | ].
  apply preserves_bind; [ apply preserves_gets | intros found ].
  apply preserves_bind.
  { destruct found as [dp | ]; [ apply preserves_ret | ].
    apply preserves_bind; [ | intros dp; apply preserves_ret ].
    unfold createDefsElement.
    apply preserves_bind; [ apply preserves_gets | intros s1 ].
    apply preserves_bind; [ | intros _; apply preserves_ret ].
    apply (doc_free_set_document
             (fun s => mkDom (outer (document s)) (insertFirst newDefs (svg (document s1))))). }
  intros refs. apply preserves_bind; [ apply doc_free_loop | intros n ].
  apply preserves_bind; [ apply doc_free_emit | intros _; apply preserves_ret ].
Qed.

Lemma doc_free_colorPath independent elements count index :
  preserves I (colorPath this h independent elements count index).
Proof.
  unfold colorPath. destruct (_ && _); [ | apply preserves_ret ].
  destruct (elements !! Z.to_nat index) as [element | ]; [ | apply preserves_throw ].
  apply preserves_bind; [ apply preserves_gets | intros d ].
  apply preserves_bind.
  { destruct (shouldProcessElementColor this d element "fill"); [ | apply preserves_ret ].
    apply preserves_bind; [ apply doc_free_generateRandomColor | intros c ].
    apply preserves_bind; [ apply doc_free_applyColorToElement | intros _; apply doc_free_emit ]. }
  intros _. apply preserves_bind; [ | intros _; apply preserves_ret ].
  destruct (shouldProcessElementColor this d element "stroke"); [ | apply preserves_ret ].
  apply preserves_bind.
  { destruct independent; [ apply doc_free_generateRandomColor | apply preserves_outerFillColor, doc_free_generateRandomColor ]. }
  intros c.
  apply preserves_bind; [ apply doc_free_applyColorToElement | intros _; apply doc_free_emit ].
Qed.

Lemma doc_free_applyRandomPathColors options :
  preserves I (applyRandomPathColors this h options).
Proof.
  unfold applyRandomPathColors. apply preserves_try_catch.
  2:{ intros e. apply preserves_bind; [ apply doc_free_emit | intros _; apply preserves_ret ]. }
  apply preserves_bind; [ apply preserves_gets | intros s0 ].
  destruct (svg (document s0)) as [t a ch | ]; [ | apply preserves_throw ].
  destruct (bool_decide _); [ apply preserves_ret | ].
  apply preserves_bind.
  { apply preserves_foldM. intros b x _. apply doc_free_colorPath. }
  intros n. apply preserves_bind; [ apply doc_free_emit | intros _; apply preserves_ret ].
Qed.

Lemma doc_free_resetColors : preserves I resetColors.
Proof.
  unfold resetColors. apply preserves_try_catch.
  2:{ intros e. apply preserves_bind; [ apply doc_free_emit | intros _; apply preserves_ret ]. }
  apply preserves_bind; [ apply preserves_gets | intros s0 ].
  destruct (if truthy _ then _ else _) as [o | ]; [ | apply preserves_ret ].
  apply preserves_bind.
  { intros s H. rewrite forEach_restoreElement. apply (I_doc_free s), H. }
  intros _. apply preserves_bind; [ apply preserves_gets | intros currentDefs ].
  apply preserves_bind.
  { destruct currentDefs as [p | ]; [ | apply preserves_ret ].
    apply (doc_free_set_document
             (fun s => mkDom (outer (document s)) (remove p (svg (document s))))). }
  intros _. apply preserves_bind.
  { destruct (os_defs o) as [defs | ]; [ | apply preserves_ret ].
    apply (doc_free_set_document
             (fun s => mkDom (outer (document s)) (insertFirst defs (svg (document s))))). }
  intros _. apply preserves_bind; [ apply doc_free_emit | intros _; apply preserves_ret ].
Qed.
End DocFree.

(** ** Snapshots are kept *)

Lemma saveOriginalState_keeps svgId k o :
  preserves (fun s => svgStates s !! k = Some o) (saveOriginalState svgId).
Proof.
  intros s H. unfold saveOriginalState, bind, gets, id. cbv beta iota.
  destruct (bool_decide (is_Some (svgStates s !! svgId))) eqn:E; [ exact H | ].
  simpl. rewrite lookup_insert_ne; [ exact H | ].
  intros ->. apply bool_decide_eq_false in E. apply E. rewrite H. eauto.
Qed.

(** A snapshot that is stored stays stored, unchanged, through
    [applyRandomColors], [applyRandomPathColors] and [resetColors]. *)
Theorem snapshots_persist this h options k o s :
  svgStates s !! k = Some o ->
  svgStates (applyRandomColors this h s).2 !! k = Some o /\
  svgStates (applyRandomPathColors this h options s).2 !! k = Some o /\
  svgStates (resetColors s).2 !! k = Some o.
Proof.
  intros H.
  assert (doc_free (fun s => svgStates s !! k = Some o)) as Hd by (intros ? ? ? ? ?; assumption).
  assert (emit_stable (fun s => svgStates s !! k = Some o)) as He by (intros ? ? ?; assumption).
  split; [ | split ].
  - apply (doc_free_applyRandomColors this h _ Hd He); [ | exact H ].
    intros svgId. apply saveOriginalState_keeps.
  - apply (doc_free_applyRandomPathColors this h _ Hd He options), H.
  - apply (doc_free_resetColors _ Hd He), H.
Qed.

Lemma snapshots_persist_witness :
  let s := (applyRandomColors defaultColorizer steadyHost (stateOf [] outlinedSvg)).2 in
  let o := snapshotOf (mkDom [] outlinedSvg) in
  svgStates s !! "a" = Some o /\
  svgStates (applyRandomColors gradientColorizer tickingHost s).2 !! "a" = Some o /\
  svgStates (applyRandomPathColors gradientColorizer tickingHost
               (mkPathOptions (Some [0%Z]) None) s).2 !! "a" = Some o /\
  svgStates (resetColors s).2 !! "a" = Some o.
Proof.
  cbv zeta. split; [ vm_compute; reflexivity | ].
  apply (snapshots_persist gradientColorizer tickingHost).
  vm_compute. reflexivity.
Defined.

(** ** The result of [applyRandomColors] *)

(** A target that is not an [svg] element: the call returns [false],
    emits one error event and changes nothing else. *)
Theorem applyRandomColors_invalid_target this h s t a ch :
  svg (document s) = Elem t a ch ->
  toLowerCase t <> "svg" ->
  applyRandomColors this h s =
    (Return false,
     mkState (svgStates s) (document s)
       (events s ++ [ErrorEvent InvalidSvgElement [] None])
       (randomCalls s) (nowCalls s)).
Proof.
  intros Hsvg Htag. unfold applyRandomColors, try_catch.
  unfold bind at 1, gets at 1, id. cbv beta iota. rewrite Hsvg.
  rewrite bool_decide_eq_false_2 by exact Htag. reflexivity.
Qed.

Lemma applyRandomColors_invalid_target_witness :
  let s := stateOf [] (Elem "div" ∅ [ Elem "path" ∅ [] ]) in
  toLowerCase "div" <> "svg" /\
  applyRandomColors defaultColorizer steadyHost s =
    (Return false,
     mkState (svgStates s) (document s)
       (events s ++ [ErrorEvent InvalidSvgElement [] None])
       (randomCalls s) (nowCalls s)).
Proof.
  cbv zeta. split; [ discriminate | ].
  apply (applyRandomColors_invalid_target defaultColorizer steadyHost
           (stateOf [] (Elem "div" ∅ [ Elem "path" ∅ [] ])) "div" ∅ [ Elem "path" ∅ [] ]).
  - reflexivity.
  - discriminate.
Defined.

Lemma saveOriginalState_returns svgId s :
  exists s',
    saveOriginalState svgId s = (Return tt, s') /\
    document s' = document s /\ events s' = events s.
Proof.
  unfold saveOriginalState, bind, gets, id. cbv beta iota.
  destruct (bool_decide _); eexists; (split; [ reflexivity | split; reflexivity ]).
Qed.

Lemma loop_step_returns this h svgId dp index element count s :
  exists n s',
    try_catch
      (colorElement this h svgId dp index element ;; ret (S count))
      (fun error => emit (ErrorEvent error element (Some index)) ;; ret count) s =
      (Return n, s') /\
    n <= S count.
Proof.
  unfold try_catch, bind at 1.
  destruct (colorElement this h svgId dp index element s) as [[[] | e] s1];
    eexists _, _; (split; [ reflexivity | lia ]).
Qed.

(** The loop over the elements never throws, and counts at most the
    elements it is given. *)
Lemma loop_returns this h svgId dp (l : list (nat * path)) count s :
  exists n s',
    foldM
      (fun processedCount '(index, element) =>
         try_catch
           (colorElement this h svgId dp index element ;; ret (S processedCount))
           (fun error =>
              emit (ErrorEvent error element (Some index)) ;; ret processedCount))
      l count s = (Return n, s') /\
    n <= count + length l.
Proof.
  revert count s. induction l as [ | [index element] l IH ]; intros count s; simpl.
  - exists count, s. split; [ reflexivity | lia ].
  - destruct (loop_step_returns this h svgId dp index element count s) as (c & s1 & Hstep & Hc).
    rewrite (bind_run _ _ _ _ _ Hstep).
    destruct (IH c s1) as (n & s' & -> & Hn). exists n, s'.
    split; [ reflexivity | lia ].
Qed.

Lemma eventsFrom_doc_free s0 : doc_free (eventsFrom s0).
Proof. intros s d rc nc H. exact H. Qed.

Lemma eventsFrom_emit_stable s0 : emit_stable (eventsFrom s0).
Proof. intros s e H. unfold eventsFrom. simpl. etrans; [ exact H | apply prefix_app_r; reflexivity ]. Qed.

(** On a valid target with paintable elements, [applyRandomColors] comes
    down to its loop, run on a state with the events of the start, and
    the [complete] event. *)
Lemma applyRandomColors_loop this h s t a ch :
  svg (document s) = Elem t a ch ->
  toLowerCase t = "svg" ->
  querySelectorAll paintable (svg (document s)) <> [] ->
  exists s1 dp (l : list (nat * path)),
    applyRandomColors this h s =
      try_catch
        (processedCount <-
           foldM
             (fun processedCount '(index, element) =>
                try_catch
                  (colorElement this h (svgIdOf h s) dp index element ;;
                   ret (S processedCount))
                  (fun error =>
                     emit (ErrorEvent error element (Some index)) ;; ret processedCount))
             l 0 ;;
         emit (Complete processedCount
                 (length (querySelectorAll paintable (svg (document s))))) ;;
         ret true)
        (fun error => emit (ErrorEvent error [] None) ;; ret false) s1 /\
    length l = length (querySelectorAll paintable (svg (document s))) /\
    events s1 = events s.
Proof.
  intros Hsvg Htag Hne.
  assert (exists s0, events s0 = events s /\ document s0 = document s /\
            (if truthy (Some (idOf (svg (document s))))
             then ret (idOf (svg (document s)))
             else now <- Date_now h ;; r <- Math_random h ;;
                  ret ("svg-" +:+ pretty now +:+ "-" +:+ toString36 h r)) s =
            (Return (svgIdOf h s), s0)) as (s0 & Hev0 & Hdoc0 & Hid).
  { unfold svgIdOf.
    destruct (truthy _); [ exists s | exists (next_random (next_now s)) ];
      (split; [ | split ]); reflexivity. }
  destruct (saveOriginalState_returns (svgIdOf h s) s0) as (s1 & Hsave & Hdoc1 & Hev1).
  assert (Hstart : applyRandomColors this h s =
            try_catch
              (found <- gets (fun s => querySelector is_defs (svg (document s))) ;;
               refs <-
                 match found with
                 | Some defsElement =>
                     ret (defsElement, querySelectorAll paintable (svg (document s)))
                 | None =>
                     defsElement <- createDefsElement ;;
                     ret (defsElement,
                          map relocate (querySelectorAll paintable (svg (document s))))
                 end ;;
               processedCount <-
                 foldM
                   (fun processedCount '(index, element) =>
                      try_catch
                        (colorElement this h (svgIdOf h s) refs.1 index element ;;
                         ret (S processedCount))
                        (fun error =>
                           emit (ErrorEvent error element (Some index)) ;;
                           ret processedCount))
                   (indexed refs.2) 0 ;;
               emit (Complete processedCount
                       (length (querySelectorAll paintable (svg (document s))))) ;;
               ret true)
              (fun error => emit (ErrorEvent error [] None) ;; ret false) s1).
  { unfold applyRandomColors, try_catch.
    unfold bind at 1, gets at 1, id. cbv beta iota.
    destruct (svg (document s)) as [t' a' ch' | ] eqn:Hsvg'; [ | discriminate ].
    injection Hsvg as -> -> ->. rewrite Htag.
    rewrite bool_decide_eq_true_2 by reflexivity. cbn [negb].
    rewrite <- Hsvg' in *.
    rewrite (bind_run _ _ _ _ _ Hid).
    rewrite (bind_run _ _ _ _ _ Hsave).
    rewrite (bind_run (gets _) _ s1 _ s1 eq_refl).
    rewrite Hdoc1, Hdoc0.
    rewrite bool_decide_eq_false_2; [ reflexivity | ].
    intros H. apply Hne. apply nil_length_inv, H. }
  rewrite Hstart. unfold try_catch at 1 3.
  rewrite (bind_run (gets _) _ s1 _ s1 eq_refl). rewrite Hdoc1, Hdoc0.
  destruct (querySelector is_defs (svg (document s))) as [dp | ].
  - exists s1, dp, (indexed (querySelectorAll paintable (svg (document s)))).
    rewrite (bind_run (ret _) _ s1 _ s1 eq_refl). cbn [fst snd].
    split; [ reflexivity | ]. split; [ apply length_imap | congruence ].
  - assert (createDefsElement s1 =
              (Return [0], set_svg (insertFirst newDefs (svg (document s1))) s1)) as Hcreate
      by reflexivity.
    rewrite (bind_run (bind createDefsElement _) _ s1 _ _ (bind_run _ _ _ _ _ Hcreate)).
    cbn [fst snd].
    eexists _, [0], (indexed (map relocate (querySelectorAll paintable (svg (document s))))).
    split; [ reflexivity | ].
    split; [ unfold indexed; rewrite length_imap; apply length_map | simpl; congruence ].
Qed.

(** On an [svg] element with at least one paintable element the call
    returns [true], also when the processing of some elements failed; the
    last event it emits is the [complete] event, which carries the number
    of paintable elements and a number of processed elements that does
    not exceed it. *)
Theorem applyRandomColors_succeeds this h s t a ch :
  svg (document s) = Elem t a ch ->
  toLowerCase t = "svg" ->
  querySelectorAll paintable (svg (document s)) <> [] ->
  exists s' evs processedCount,
    applyRandomColors this h s = (Return true, s') /\
    events s' =
      events s ++ evs ++
      [Complete processedCount (length (querySelectorAll paintable (svg (document s))))] /\
    processedCount <= length (querySelectorAll paintable (svg (document s))).
Proof.
  intros Hsvg Htag Hne.
  destruct (applyRandomColors_loop this h s t a ch Hsvg Htag Hne)
    as (s1 & dp & l & -> & Hlen & Hev).
  destruct (loop_returns this h (svgIdOf h s) dp l 0 s1) as (n & s2 & Hloop & Hn).
  pose proof (doc_free_loop this h (eventsFrom s1) (eventsFrom_doc_free s1)
                (eventsFrom_emit_stable s1) (svgIdOf h s) dp l 0 s1
                (reflexivity (events s1))) as Hpre.
  rewrite Hloop in Hpre. unfold eventsFrom in Hpre. simpl in Hpre.
  destruct Hpre as [evs Hevs].
  exists (emit (Complete n (length (querySelectorAll paintable (svg (document s))))) s2).2,
    evs, n.
  split; [ | split; [ | lia ] ].
  - unfold try_catch. rewrite (bind_run _ _ _ _ _ Hloop). reflexivity.
  - simpl. rewrite Hevs, Hev, <- app_assoc. reflexivity.
Qed.

Lemma applyRandomColors_succeeds_witness :
  let s := stateOf [] outlinedSvg in
  exists s' evs processedCount,
    applyRandomColors dependentColorizer steadyHost s = (Return true, s') /\
    events s' =
      events s ++ evs ++
      [Complete processedCount (length (querySelectorAll paintable (svg (document s))))] /\
    processedCount <= length (querySelectorAll paintable (svg (document s))).
Proof.
  apply (applyRandomColors_succeeds dependentColorizer steadyHost (stateOf [] outlinedSvg)
           "svg" (attrsFrom [("id", "a")])
           [ Elem "path" (attrsFrom [("fill", "red"); ("stroke", "#000")]) [] ]).
  - reflexivity.
  - reflexivity.
  - vm_compute. discriminate.
Defined.

(** ** The examples of the documentation *)

(** A line icon: [fill="none" stroke="#000"] gets a new stroke and keeps
    [fill="none"]; an element without colour gets a fill and no stroke. *)
Example line_icon_example :
  let r := applyRandomColors defaultColorizer steadyHost (stateOf [] lineIconSvg) in
  r.1 = Return true /\
  elementRecords (svg (document r.2)) =
    [ (Some "path", Some "none", Some "#10ac84", None);
      (Some "rect", Some "#10ac84", None, None) ].
Proof. cbv zeta. split; vm_compute; reflexivity. Qed.

(** A group with [fill="#333"] around children without a fill of their
    own: the fill of the group changes, the children stay without one. *)
Example group_fill_example :
  let r := applyRandomColors defaultColorizer steadyHost (stateOf [] groupSvg) in
  r.1 = Return true /\
  elementRecords (svg (document r.2)) =
    [ (Some "g", Some "#10ac84", None, None);
      (Some "path", None, None, None);
      (Some "circle", None, None, None) ].
Proof. cbv zeta. split; vm_compute; reflexivity. Qed.

(** With gradients, each fill is a [url] token and its gradient is a
    child of the [defs] element that was created for it. *)
Example gradient_fill_example :
  let r := applyRandomColors gradientColorizer steadyHost (stateOf [] groupSvg) in
  r.1 = Return true /\
  elementRecords (svg (document r.2)) =
    [ (Some "g", Some "url(#gradient-grp-fill-1-1700000000000)", None, None);
      (Some "path", None, None, None);
      (Some "circle", None, None, None) ] /\
  (tagOf <$> (firstDefs (svg (document r.2)) ≫= fun d => get d [1])) =
    Some (Some "linearGradient").
Proof. cbv zeta. repeat split; vm_compute; reflexivity. Qed.

(** * The other methods *)

(** ** The colour state *)

Lemma tally_snoc P l e : tally P (l ++ [e]) = countIf (P e) (tally P l).
Proof.
  unfold tally, countIf. rewrite filter_app, length_app, filter_cons, filter_nil.
  destruct (P e); [ rewrite decide_True by reflexivity | rewrite decide_False by discriminate ];
    simpl; lia.
Qed.

Lemma tally_le P l : tally P l <= length l.
Proof. apply length_filter. Qed.

Lemma tally_union P Q R l :
  Forall (fun e => P e = true -> Q e = true \/ R e = true) l ->
  tally P l <= tally Q l + tally R l.
Proof.
  induction l as [ | e l IH ] using rev_ind; [ reflexivity | ].
  intros [Hl He%Forall_inv]%Forall_app. specialize (IH Hl).
  rewrite !tally_snoc. unfold countIf.
  destruct (P e), (Q e), (R e); try lia.
  all: destruct (He eq_refl); discriminate.
Qed.

Lemma indexed_snoc {A} (l : list A) x : indexed (l ++ [x]) = indexed l ++ [(length l, x)].
Proof. unfold indexed. rewrite imap_app. simpl. rewrite Nat.add_0_r. reflexivity. Qed.

(** The loop of [getColorState] pushes one entry per element and counts
    the entries with each flag. *)
Lemma countElement_fold d n l :
  fold_left (countElement d) (indexed l) (mkColorState n 0 0 0 0 []) =
    let entries := imap (elementColorOf d) l in
    mkColorState n
      (tally (fun e => flagTruthy (ec_hasFill e)) entries)
      (tally (fun e => flagTruthy (ec_hasStroke e)) entries)
      (tally (fun e => flagTruthy (ec_hasGradient e)) entries)
      (tally ec_hasInheritance entries)
      entries.
Proof.
  induction l as [ | x l IH ] using rev_ind; [ reflexivity | ].
  rewrite indexed_snoc, fold_left_app, IH. cbv zeta. simpl.
  rewrite imap_app. simpl. rewrite Nat.add_0_r, !tally_snoc. reflexivity.
Qed.

Lemma getColorState_run s t a ch :
  svg (document s) = Elem t a ch ->
  getColorState s =
    (Return (Some (fold_left (countElement (document s))
                     (indexed (querySelectorAll paintable (svg (document s))))
                     (mkColorState (length (querySelectorAll paintable (svg (document s))))
                        0 0 0 0 []))), s).
Proof.
  intros Hsvg. unfold getColorState, try_catch, bind, gets, id. cbv beta iota.
  rewrite Hsvg. reflexivity.
Qed.

(** On an element, [getColorState] returns a state and changes
    nothing; the state has one entry per paintable element, in document
    order and numbered from 0, [totalElements] is their number and each
    counter is the number of entries whose flag is truthy.  On a target
    that is no element it returns [null]. *)
Theorem getColorState_counts s :
  (forall t a ch, svg (document s) = Elem t a ch ->
     exists cs,
       getColorState s = (Return (Some cs), s) /\
       cs_elements cs =
         imap (elementColorOf (document s)) (querySelectorAll paintable (svg (document s))) /\
       totalElements cs = length (cs_elements cs) /\
       fillElements cs = tally (fun e => flagTruthy (ec_hasFill e)) (cs_elements cs) /\
       strokeElements cs = tally (fun e => flagTruthy (ec_hasStroke e)) (cs_elements cs) /\
       gradientElements cs = tally (fun e => flagTruthy (ec_hasGradient e)) (cs_elements cs) /\
       inheritedElements cs = tally ec_hasInheritance (cs_elements cs)) /\
  (forall data, svg (document s) = Text data -> getColorState s = (Return None, s)).
Proof.
  split.
  - intros t a ch Hsvg. rewrite (getColorState_run s t a ch Hsvg), countElement_fold.
    eexists. split; [ reflexivity | ]. cbv zeta. simpl.
    rewrite length_imap. repeat split; reflexivity.
  - intros data Hsvg. unfold getColorState, try_catch, bind, gets, id. cbv beta iota.
    rewrite Hsvg. reflexivity.
Qed.

Lemma startsWithUrl_colored v : startsWithUrl v = true -> colored v = true.
Proof.
  destruct v as [s | ]; [ | discriminate ]. simpl. intros H. unfold colored, truthy.
  rewrite !bool_decide_eq_false_2; [ reflexivity | | | ];
    (intros [= ->] || intros ->); vm_compute in H; discriminate.
Qed.

Lemma hasOwn_truthy v : flagTruthy (hasOwn v) = colored v.
Proof.
  destruct v as [s | ]; [ | reflexivity ].
  destruct (decide (s = "")) as [-> | Hne]; [ reflexivity | ].
  unfold hasOwn, colored, flagAnd, truthy. simpl.
  rewrite !(bool_decide_eq_false_2 _ Hne). simpl.
  destruct (bool_decide (Some s = Some "none")); reflexivity.
Qed.

Lemma hasGradientFlag_truthy fill stroke :
  flagTruthy (hasGradientFlag fill stroke) = true ->
  startsWithUrl fill = true \/ startsWithUrl stroke = true.
Proof.
  unfold hasGradientFlag, flagOr, flagAnd.
  destruct (flagTruthy (ofAttr fill)) eqn:Ef; simpl.
  - destruct (startsWithUrl fill); simpl; [ auto | ].
    destruct (flagTruthy (ofAttr stroke)) eqn:Es; simpl; [ auto | ].
    rewrite Es. discriminate.
  - rewrite Ef. destruct (flagTruthy (ofAttr stroke)) eqn:Es; simpl; [ auto | ].
    rewrite Es. discriminate.
Qed.

(** In the state [getColorState] returns no counter exceeds
    [totalElements], and an element counted as a gradient element is
    counted as a fill element or as a stroke element: a [url(] value is a
    colour. *)
Theorem getColorState_bounds s cs :
  getColorState s = (Return (Some cs), s) ->
  fillElements cs <= totalElements cs /\
  strokeElements cs <= totalElements cs /\
  gradientElements cs <= totalElements cs /\
  inheritedElements cs <= totalElements cs /\
  gradientElements cs <= fillElements cs + strokeElements cs.
Proof.
  intros Hrun. destruct (svg (document s)) as [t a ch | data ] eqn:Hsvg.
  2:{ unfold getColorState, try_catch, bind, gets, id in Hrun. cbv beta iota in Hrun.
      rewrite Hsvg in Hrun. discriminate. }
  rewrite (getColorState_run s t a ch Hsvg), countElement_fold in Hrun.
  injection Hrun as <-. cbv zeta. simpl.
  set (entries := imap _ _).
  assert (length entries = length (querySelectorAll paintable (svg (document s)))) as <-
    by apply length_imap.
  repeat split; try apply tally_le.
  apply tally_union. unfold entries. apply Forall_forall. intros e He.
  apply list_elem_of_lookup_1 in He as [i Hi]. rewrite list_lookup_imap in Hi.
  destruct (querySelectorAll paintable (svg (document s)) !! i) as [p | ]; [ | discriminate ].
  injection Hi as <-. simpl. rewrite !hasOwn_truthy. intros Hg.
  apply hasGradientFlag_truthy in Hg as [H | H]; [ left | right ];
    apply startsWithUrl_colored, H.
Qed.

(** ** Event listeners *)

Lemma on_insert eventName l m :
  Listeners.on eventName l m = <[eventName := default [] (m !! eventName) ++ [l]]> m.
Proof.
  unfold Listeners.on. destruct (m !! eventName) as [ls | ] eqn:E; simpl.
  - rewrite (alter_alt_Some _ _ _ _ E). reflexivity.
  - rewrite alter_insert_eq. reflexivity.
Qed.

Lemma indexOf_first l1 l2 l : l ∉ l1 -> Listeners.indexOf (l1 ++ l :: l2) l = Z.of_nat (length l1).
Proof.
  intros Hl. unfold Listeners.indexOf.
  assert (list_find (fun x => x = l) (l1 ++ l :: l2) = Some (length l1, l)) as ->; [ | reflexivity ].
  apply list_find_Some. split; [ apply list_lookup_middle; reflexivity | ].
  split; [ reflexivity | ]. intros j y Hj Hlt ->. apply Hl.
  rewrite lookup_app_l in Hj by exact Hlt. eapply list_elem_of_lookup_2, Hj.
Qed.

Lemma indexOf_absent ls l : l ∉ ls -> Listeners.indexOf ls l = (-1)%Z.
Proof.
  intros Hl. unfold Listeners.indexOf.
  assert (list_find (fun x => x = l) ls = None) as ->; [ | reflexivity ].
  apply list_find_None, Forall_forall. intros x Hx ->. exact (Hl Hx).
Qed.

Lemma off_first eventName l l1 l2 m :
  m !! eventName = Some (l1 ++ l :: l2) -> l ∉ l1 ->
  Listeners.off eventName l m = <[eventName := l1 ++ l2]> m.
Proof.
  intros Hm Hl. unfold Listeners.off. rewrite Hm. simpl. rewrite indexOf_first by exact Hl.
  destruct (-1 <? Z.of_nat (length l1))%Z eqn:E; [ | apply Z.ltb_ge in E; lia ].
  rewrite Nat2Z.id. rewrite (alter_alt_Some _ _ _ _ Hm), delete_middle. reflexivity.
Qed.

Lemma off_absent eventName l m :
  l ∉ default [] (m !! eventName) -> Listeners.off eventName l m = m.
Proof.
  intros Hl. unfold Listeners.off. rewrite indexOf_absent by exact Hl. reflexivity.
Qed.

Lemma emit_fold call m eventName eventData s :
  Listeners.emit call m eventName eventData s =
    (Return tt,
     fold_left (fun s l => (call l eventData s).2) (default [] (m !! eventName)) s).
Proof.
  unfold Listeners.emit, forEach. generalize (default [] (m !! eventName)). intros ls.
  revert s. induction ls as [ | l ls IH ]; intros s; [ reflexivity | ].
  simpl. unfold bind at 1, try_catch at 1.
  destruct (call l eventData s) as [[[] | e] s1]; simpl; apply IH.
Qed.

Lemma dispatch_call call calls eventName eventData k n m l :
  default [] (m !! eventName) !! k = Some l ->
  Listeners.dispatch call calls eventName eventData k (S n) m =
    (try_catch (call l eventData) (fun error => ret tt) ;;
     Listeners.dispatch call calls eventName eventData (S k) n
       (fold_left Listeners.perform (calls l eventData) m))%js.
Proof. intros H. simpl. rewrite H. reflexivity. Qed.

(** The dispatch over listeners that leave the registry alone: the
    listeners of the positions it goes through are called one after the
    other. *)
Lemma dispatch_quiet call calls eventName eventData k n m s :
  (forall l, l ∈ take n (drop k (default [] (m !! eventName))) -> calls l eventData = []) ->
  Listeners.dispatch call calls eventName eventData k n m s =
    (Return m,
     fold_left (fun s l => (call l eventData s).2)
       (take n (drop k (default [] (m !! eventName)))) s).
Proof.
  revert k s. induction n as [ | n IH ]; intros k s Hq; [ reflexivity | ].
  simpl Listeners.dispatch.
  destruct (default [] (m !! eventName) !! k) as [l | ] eqn:Hk.
  - rewrite (drop_S _ _ _ Hk) in Hq |- *. simpl take in Hq |- *.
    rewrite (Hq l) by apply list_elem_of_here. simpl fold_left.
    unfold bind at 1, try_catch at 1.
    destruct (call l eventData s) as [[[] | e] s1]; simpl;
      apply IH; intros l' Hl'; apply Hq; apply list_elem_of_further, Hl'.
  - apply lookup_ge_None in Hk.
    rewrite (drop_ge _ k) in Hq |- * by exact Hk.
    rewrite IH by (rewrite drop_ge by lia; rewrite take_nil; intros l' Hl'; inversion Hl').
    rewrite drop_ge by lia. rewrite !take_nil. reflexivity.
Qed.

(** [emit] goes through the array of listeners as it is while the
    listeners run.  When the listeners registered under the event name
    make no call of [on] or [off] while they run, it calls each of them,
    in the order of their registration, each one on the state the one
    before left behind, whether that one returned or threw, and it
    returns; with no listener under the name it does nothing.  A
    listener that unregisters itself while it runs makes [emit] skip the
    listener registered after it. *)
Theorem listeners_emit_dispatch call calls m eventName eventData s :
  let listeners := default [] (m !! eventName) in
  ((forall l, l ∈ listeners -> calls l eventData = []) ->
   Listeners.emitLive call calls m eventName eventData s =
     (Return m, fold_left (fun s l => (call l eventData s).2) listeners s) /\
   Listeners.emit call m eventName eventData s =
     (Return tt, fold_left (fun s l => (call l eventData s).2) listeners s)) /\
  (listeners = [] ->
   Listeners.emitLive call calls m eventName eventData s = (Return m, s)) /\
  (forall l1 l2 rest,
     m !! eventName = Some (l1 :: l2 :: rest) ->
     calls l1 eventData = [Listeners.CallOff eventName l1] ->
     (forall l, l ∈ rest -> calls l eventData = []) ->
     Listeners.emitLive call calls m eventName eventData s =
       (Return (<[eventName := l2 :: rest]> m),
        fold_left (fun s l => (call l eventData s).2) rest (call l1 eventData s).2)).
Proof.
  cbv zeta. split; [ | split ].
  - intros Hq. split; [ | apply emit_fold ].
    unfold Listeners.emitLive. rewrite dispatch_quiet.
    + rewrite drop_0, firstn_all. reflexivity.
    + rewrite drop_0, firstn_all. exact Hq.
  - intros Hnil. unfold Listeners.emitLive. rewrite Hnil. reflexivity.
  - intros l1 l2 rest Hm Hl1 Hrest.
    unfold Listeners.emitLive. rewrite Hm. simpl length.
    rewrite (dispatch_call _ _ _ _ _ _ _ l1) by (rewrite Hm; reflexivity).
    rewrite Hl1. simpl fold_left.
    rewrite (off_first eventName l1 [] (l2 :: rest) m Hm) by apply not_elem_of_nil.
    simpl app. unfold bind at 1, try_catch at 1.
    assert (forall s1,
              Listeners.dispatch call calls eventName eventData 1 (S (length rest))
                (<[eventName := l2 :: rest]> m) s1 =
              (Return (<[eventName := l2 :: rest]> m),
               fold_left (fun s l => (call l eventData s).2) rest s1)) as Hloop.
    { assert (take (S (length rest))
                (drop 1 (default [] (<[eventName := l2 :: rest]> m !! eventName))) = rest)
        as Hpos.
      { rewrite lookup_insert_eq. simpl default. simpl drop.
        apply firstn_all2. lia. }
      intros s1. rewrite dispatch_quiet; rewrite Hpos; [ reflexivity | exact Hrest ]. }
    destruct (call l1 eventData s) as [[[] | e] s1]; simpl; apply Hloop.
Qed.


(** [off(eventName, l)] removes the earliest registration of [l]
    under [eventName] and nothing else; when [l] is not registered under
    that name, or the name is unknown, nothing changes. *)
Theorem listeners_off eventName l m :
  (l ∉ default [] (m !! eventName) -> Listeners.off eventName l m = m) /\
  (forall l1 l2, m !! eventName = Some (l1 ++ l :: l2) -> l ∉ l1 ->
     Listeners.off eventName l m = <[eventName := l1 ++ l2]> m).
Proof.
  split; [ apply off_absent | ]. intros l1 l2. apply off_first.
Qed.

(** [on] followed by [off] with the same arguments.  When [l] was
    not registered under the name, the listeners are those of before,
    and the name is now known to the instance, with no listener if it
    was unknown.  When [l] was registered, it is its earliest
    registration that is removed, not the one just added: [l] moves to
    the end. *)
Theorem listeners_on_off eventName l m :
  (l ∉ default [] (m !! eventName) ->
   Listeners.off eventName l (Listeners.on eventName l m) =
     <[eventName := default [] (m !! eventName)]> m) /\
  (forall l1 l2, m !! eventName = Some (l1 ++ l :: l2) -> l ∉ l1 ->
     Listeners.off eventName l (Listeners.on eventName l m) =
       <[eventName := l1 ++ l2 ++ [l]]> m).
Proof.
  split.
  - intros Hl. rewrite on_insert.
    rewrite (off_first eventName l (default [] (m !! eventName)) []).
    + rewrite app_nil_r, insert_insert_eq. reflexivity.
    + apply lookup_insert_eq.
    + exact Hl.
  - intros l1 l2 Hm Hl. rewrite on_insert, Hm. simpl.
    rewrite (off_first eventName l l1 (l2 ++ [l])).
    + rewrite insert_insert_eq. reflexivity.
    + rewrite lookup_insert_eq, <- app_assoc. reflexivity.
    + exact Hl.
Qed.

(** ** The parts of [applyRandomColors] *)

Lemma afterSave_spec h s :
  document (afterSave h s) = document s /\
  events (afterSave h s) = events s /\
  svgStates (afterSave h s) =
    (if bool_decide (is_Some (svgStates s !! svgIdOf h s)) then svgStates s
     else <[svgIdOf h s := snapshotOf (document s)]> (svgStates s)).
Proof.
  unfold afterSave, saveOriginalState, bind, gets, id. cbv beta iota.
  destruct (truthy (Some (idOf (svg (document s))))); simpl;
    destruct (bool_decide (is_Some (svgStates s !! svgIdOf h s))); auto.
Qed.

Lemma elementLoop_returns this h svgId dp l count s :
  exists n s', elementLoop this h svgId dp l count s = (Return n, s') /\ n <= count + length l.
Proof. apply loop_returns. Qed.

(** On an [svg] element [applyRandomColors] is: the snapshot, then
    nothing more when no element is paintable, and else the loop and the
    [complete] event. *)
Lemma applyRandomColors_unfold this h s t a ch :
  svg (document s) = Elem t a ch ->
  toLowerCase t = "svg" ->
  applyRandomColors this h s =
    let s1 := afterSave h s in
    let elements := querySelectorAll paintable (svg (document s)) in
    if bool_decide (length elements = 0) then (Return false, s1)
    else
      let '(dp, l, s2) := passStart s1 in
      (processedCount <- elementLoop this h (svgIdOf h s) dp l 0 ;;
       emit (Complete processedCount (length elements)) ;;
       ret true) s2.
Proof.
  intros Hsvg Htag.
  assert ((if truthy (Some (idOf (svg (document s))))
           then ret (idOf (svg (document s)))
           else now <- Date_now h ;; r <- Math_random h ;;
                ret ("svg-" +:+ pretty now +:+ "-" +:+ toString36 h r))%js s =
          (Return (svgIdOf h s),
           if truthy (Some (idOf (svg (document s)))) then s else next_random (next_now s)))
    as Hid.
  { unfold svgIdOf. destruct (truthy _); reflexivity. }
  destruct (saveOriginalState_returns (svgIdOf h s)
              (if truthy (Some (idOf (svg (document s)))) then s else next_random (next_now s)))
    as (s1 & Hsave & Hdoc1 & Hev1).
  assert (afterSave h s = s1) as Hs1 by (unfold afterSave; rewrite Hsave; reflexivity).
  assert (document s1 = document s) as Hdoc.
  { rewrite Hdoc1. destruct (truthy _); reflexivity. }
  cbv zeta. rewrite Hs1.
  unfold applyRandomColors, try_catch at 1.
  unfold bind at 1, gets at 1, id. cbv beta iota.
  destruct (svg (document s)) as [t' a' ch' | ] eqn:Hsvg'; [ | discriminate ].
  injection Hsvg as -> -> ->. rewrite Htag.
  rewrite bool_decide_eq_true_2 by reflexivity. cbn [negb].
  rewrite <- Hsvg' in *.
  rewrite (bind_run _ _ _ _ _ Hid).
  rewrite (bind_run _ _ _ _ _ Hsave).
  rewrite (bind_run (gets _) _ s1 _ s1 eq_refl).
  rewrite Hdoc.
  destruct (bool_decide (length (querySelectorAll paintable (svg (document s))) = 0));
    [ reflexivity | ].
  rewrite (bind_run (gets _) _ s1 _ s1 eq_refl).
  unfold passStart. rewrite Hdoc.
  destruct (querySelector is_defs (svg (document s))) as [dp | ].
  - rewrite (bind_run (ret _) _ s1 _ s1 eq_refl). cbn [fst snd].
    fold (elementLoop this h (svgIdOf h s) dp
            (indexed (querySelectorAll paintable (svg (document s)))) 0).
    destruct (elementLoop_returns this h (svgIdOf h s) dp
                (indexed (querySelectorAll paintable (svg (document s)))) 0 s1)
      as (n & s' & Hloop & _).
    rewrite !(bind_run _ _ _ _ _ Hloop). reflexivity.
  - assert (createDefsElement s1 =
              (Return [0], set_svg (insertFirst newDefs (svg (document s))) s1)) as Hcreate
      by (unfold createDefsElement, bind, gets, modify, id, ret; rewrite Hdoc; reflexivity).
    rewrite (bind_run (bind createDefsElement _) _ s1 _ _ (bind_run _ _ _ _ _ Hcreate)).
    cbn [fst snd].
    fold (elementLoop this h (svgIdOf h s) [0]
            (indexed (map relocate (querySelectorAll paintable (svg (document s))))) 0).
    destruct (elementLoop_returns this h (svgIdOf h s) [0]
                (indexed (map relocate (querySelectorAll paintable (svg (document s))))) 0
                (set_svg (insertFirst newDefs (svg (document s))) s1))
      as (n & s' & Hloop & _).
    rewrite !(bind_run _ _ _ _ _ Hloop). reflexivity.
Qed.

(** ** Passes that cannot fail *)

(** The fill channel of one element in [applyRandomColors]: a gradient
    or a sample, a write and an event. *)
Lemma fill_channel this h svgId dp (index : nat) element s :
  exists s',
    (r <- Math_random h ;;
     fillColor <-
       (if negb (Qle_bool (gradientProbability (cfg this)) r) then
          gradientData <- generateRandomGradient this h (svgId +:+ "-fill-" +:+ pretty index) ;;
          modify (fun s => set_svg (update (appendTo gradientData.1) dp (svg (document s))) s) ;;
          ret (Some gradientData.2)
        else generateRandomColor this h) ;;
     applyColorToElement element "fill" fillColor ;;
     emit (ColorApplied element "fill" fillColor None))%js s = (Return tt, s') /\
    coloredFrom s s'.
Proof.
  unfold bind at 1, Math_random at 1.
  destruct (negb _).
  - unfold bind at 1. unfold bind at 1. rewrite generateRandomGradient_run.
    unfold bind at 1, modify at 1, ret at 1. unfold bind at 1.
    rewrite applyColorToElement_run.
    eexists. split; [ reflexivity | ]. split; [ reflexivity | ].
    eexists [_]. split; [ reflexivity | ]. repeat constructor.
  - destruct (color_channel this h element "fill" None (next_random s)) as (s' & Hrun & Hc).
    exists s'. split; [ exact Hrun | ].
    eapply coloredFrom_trans; [ | exact Hc ]. split; [ reflexivity | ].
    exists []. rewrite app_nil_r. auto.
Qed.

Lemma colorElement_independent this h svgId dp index element s :
  independentColors (cfg this) = true ->
  exists s',
    colorElement this h svgId dp index element s = (Return tt, s') /\ coloredFrom s s'.
Proof.
  intros Hind. unfold colorElement. rewrite Hind.
  unfold bind at 1, gets at 1. cbv beta iota zeta. unfold bind at 1.
  destruct (shouldProcessElementColor this (document s) element "fill").
  - destruct (fill_channel this h svgId dp index element s) as (s1 & -> & C1).
    destruct (shouldProcessElementColor this (document s) element "stroke").
    + destruct (color_channel this h element "stroke" None s1) as (s2 & -> & C2).
      eexists. split; [ reflexivity | ]. eapply coloredFrom_trans; eauto.
    + eexists. split; [ reflexivity | exact C1 ].
  - unfold ret at 1.
    destruct (shouldProcessElementColor this (document s) element "stroke").
    + destruct (color_channel this h element "stroke" None s) as (s2 & -> & C2).
      eexists. split; [ reflexivity | exact C2 ].
    + eexists. split; [ reflexivity | apply coloredFrom_refl ].
Qed.

Lemma elementLoop_independent this h svgId dp l count s :
  independentColors (cfg this) = true ->
  exists s',
    elementLoop this h svgId dp l count s = (Return (count + length l), s') /\
    coloredFrom s s'.
Proof.
  intros Hind. revert count s.
  induction l as [ | [index element] l IH ]; intros count s; simpl.
  - exists s. rewrite Nat.add_0_r. split; [ reflexivity | apply coloredFrom_refl ].
  - destruct (colorElement_independent this h svgId dp index element s Hind) as (s1 & H1 & C1).
    destruct (IH (S count) s1) as (s2 & H2 & C2).
    exists s2. split; [ | eapply coloredFrom_trans; eauto ].
    unfold elementLoop in *. simpl. unfold bind at 1, try_catch at 1, bind at 1.
    rewrite H1. simpl. rewrite H2. do 2 f_equal. lia.
Qed.

Lemma passStart_spec s1 :
  let '(dp, l, s2) := passStart s1 in
  length l = length (querySelectorAll paintable (svg (document s1))) /\
  events s2 = events s1 /\ svgStates s2 = svgStates s1 /\
  outer (document s2) = outer (document s1) /\
  svg (document s2) =
    match querySelector is_defs (svg (document s1)) with
    | Some _ => svg (document s1)
    | None => insertFirst newDefs (svg (document s1))
    end.
Proof.
  unfold passStart. destruct (querySelector is_defs (svg (document s1))); simpl;
    unfold indexed; rewrite length_imap, ?length_map; auto.
Qed.

(** With [independentColors] left at [true] and neither an element
    filter nor a colour validator installed, [applyRandomColors] on an
    [svg] element with at least one paintable element cannot fail on an
    element: it returns [true], emits [colorApplied] events only, and
    then one [complete] event in which [processedCount] is [totalCount],
    the number of paintable elements, whether or not a colour was
    written for each of them. *)
Theorem applyRandomColors_independent this h s t a ch :
  svg (document s) = Elem t a ch ->
  toLowerCase t = "svg" ->
  querySelectorAll paintable (svg (document s)) <> [] ->
  independentColors (cfg this) = true ->
  elementFilter this = None ->
  colorValidator this = None ->
  let total := length (querySelectorAll paintable (svg (document s))) in
  exists s' evs,
    applyRandomColors this h s = (Return true, s') /\
    events s' = events s ++ evs ++ [Complete total total] /\
    Forall isColorApplied evs.
Proof.
  intros Hsvg Htag Hne Hind _ _ total.
  rewrite (applyRandomColors_unfold this h s t a ch Hsvg Htag). cbv zeta.
  rewrite bool_decide_eq_false_2 by (intros H; apply Hne, nil_length_inv, H).
  destruct (afterSave_spec h s) as (Hdoc & Hev & _).
  pose proof (passStart_spec (afterSave h s)) as Hstart.
  destruct (passStart (afterSave h s)) as [[dp l] s2].
  destruct Hstart as (Hlen & Hev2 & _).
  destruct (elementLoop_independent this h (svgIdOf h s) dp l 0 s2 Hind)
    as (s3 & Hloop & [_ (evs & Hevs & Hall)]).
  rewrite (bind_run _ _ _ _ _ Hloop). eexists _, evs. split; [ reflexivity | ].
  split; [ | exact Hall ]. simpl. rewrite Hevs, Hev2, Hev, Hlen, Hdoc, <- app_assoc.
  reflexivity.
Qed.

(** ** Targets with nothing to colour *)

Lemma applyRandomPathColors_no_elements this h options s t a ch :
  svg (document s) = Elem t a ch ->
  querySelectorAll paintable (svg (document s)) = [] ->
  applyRandomPathColors this h options s = (Return false, s).
Proof.
  intros Hsvg Hnone. unfold applyRandomPathColors, try_catch, bind at 1, gets at 1, id.
  cbv beta iota zeta. rewrite Hsvg. rewrite <- Hsvg, Hnone. reflexivity.
Qed.

(** On a target in which no element is paintable both colouring
    methods return [false], emit nothing and leave the document as it
    is.  [applyRandomColors] has taken its snapshot by then: when the
    target is an [svg] element, the store holds a snapshot of the
    document under the id of the call afterwards, the one that was there
    or a new one. *)
Theorem nothing_to_color this h options s t a ch :
  svg (document s) = Elem t a ch ->
  querySelectorAll paintable (svg (document s)) = [] ->
  applyRandomPathColors this h options s = (Return false, s) /\
  (toLowerCase t = "svg" ->
   exists s',
     applyRandomColors this h s = (Return false, s') /\
     document s' = document s /\ events s' = events s /\
     svgStates s' =
       if bool_decide (is_Some (svgStates s !! svgIdOf h s)) then svgStates s
       else <[svgIdOf h s := snapshotOf (document s)]> (svgStates s)).
Proof.
  intros Hsvg Hnone. split; [ eapply applyRandomPathColors_no_elements; eauto | ].
  intros Htag. rewrite (applyRandomColors_unfold this h s t a ch Hsvg Htag). cbv zeta.
  rewrite Hnone. simpl. exists (afterSave h s). split; [ reflexivity | ].
  apply afterSave_spec.
Qed.

(** ** A filter that rejects every element *)

Lemma colorElement_rejected this h svgId dp index element s :
  (forall attribute, shouldProcessElementColor this (document s) element attribute = false) ->
  colorElement this h svgId dp index element s = (Return tt, s).
Proof.
  intros Hrej. unfold colorElement, bind at 1, gets at 1. cbv beta iota zeta.
  rewrite !Hrej. reflexivity.
Qed.

Lemma elementLoop_rejected this h svgId dp l count s :
  (forall d element attribute, shouldProcessElementColor this d element attribute = false) ->
  elementLoop this h svgId dp l count s = (Return (count + length l), s).
Proof.
  intros Hrej. revert count.
  induction l as [ | [index element] l IH ]; intros count; simpl.
  - rewrite Nat.add_0_r. reflexivity.
  - unfold elementLoop in *. simpl. unfold bind at 1, try_catch at 1, bind at 1.
    rewrite colorElement_rejected by (intros k; apply Hrej). simpl.
    rewrite IH. do 2 f_equal. lia.
Qed.

(** After [setElementFilter] with a filter that rejects every
    element, [applyRandomColors] on an [svg] element with paintable
    elements still returns [true] and reports every element as
    processed: it emits the [complete] event alone, with
    [processedCount] equal to [totalCount].  No attribute is written,
    but a [defs] element is inserted when the target had none. *)
Theorem rejecting_filter this h filter s t a ch :
  svg (document s) = Elem t a ch ->
  toLowerCase t = "svg" ->
  querySelectorAll paintable (svg (document s)) <> [] ->
  (forall d element, filter d element = false) ->
  let total := length (querySelectorAll paintable (svg (document s))) in
  exists s',
    applyRandomColors (setElementFilter (Some filter) this) h s = (Return true, s') /\
    events s' = events s ++ [Complete total total] /\
    outer (document s') = outer (document s) /\
    svg (document s') =
      match querySelector is_defs (svg (document s)) with
      | Some _ => svg (document s)
      | None => insertFirst newDefs (svg (document s))
      end.
Proof.
  intros Hsvg Htag Hne Hrej total.
  rewrite (applyRandomColors_unfold _ h s t a ch Hsvg Htag). cbv zeta.
  rewrite bool_decide_eq_false_2 by (intros H; apply Hne, nil_length_inv, H).
  destruct (afterSave_spec h s) as (Hdoc & Hev & _).
  pose proof (passStart_spec (afterSave h s)) as Hstart.
  destruct (passStart (afterSave h s)) as [[dp l] s2].
  destruct Hstart as (Hlen & Hev2 & _ & Hout & Ht).
  assert (forall d element attribute,
            shouldProcessElementColor (setElementFilter (Some filter) this) d element attribute =
            false) as Hnone.
  { intros d element attribute.
    apply (shouldProcess_rejected _ d element attribute filter); [ reflexivity | apply Hrej ]. }
  rewrite (bind_run _ _ _ _ _ (elementLoop_rejected _ h (svgIdOf h s) dp l 0 s2 Hnone)).
  eexists. split; [ reflexivity | ]. simpl.
  rewrite Hev2, Hev, Hlen, Hout, Ht, Hdoc. auto.
Qed.

(** ** The store of snapshots *)

Lemma store_doc_free m : doc_free (fun s => svgStates s = m).
Proof. intros s d rc nc H. exact H. Qed.

Lemma store_emit_stable m : emit_stable (fun s => svgStates s = m).
Proof. intros s e H. exact H. Qed.

Lemma elementLoop_store this h svgId dp l count s :
  svgStates (elementLoop this h svgId dp l count s).2 = svgStates s.
Proof.
  apply (doc_free_loop this h _ (store_doc_free (svgStates s)) (store_emit_stable (svgStates s))).
  reflexivity.
Qed.

Lemma applyRandomColors_store_kept this h s :
  (forall t a ch, svg (document s) = Elem t a ch -> toLowerCase t <> "svg") ->
  svgStates (applyRandomColors this h s).2 = svgStates s.
Proof.
  intros Hbad. unfold applyRandomColors, try_catch, bind at 1, gets at 1, id. cbv beta iota.
  destruct (svg (document s)) as [t a ch | data] eqn:Hsvg; [ | reflexivity ].
  rewrite bool_decide_eq_false_2 by (apply (Hbad t a ch eq_refl)). reflexivity.
Qed.

Lemma applyRandomColors_store this h s t a ch :
  svg (document s) = Elem t a ch ->
  toLowerCase t = "svg" ->
  svgStates (applyRandomColors this h s).2 =
    if bool_decide (is_Some (svgStates s !! svgIdOf h s)) then svgStates s
    else <[svgIdOf h s := snapshotOf (document s)]> (svgStates s).
Proof.
  intros Hsvg Htag.
  assert (svgStates (applyRandomColors this h s).2 = svgStates (afterSave h s)) as ->.
  { rewrite (applyRandomColors_unfold this h s t a ch Hsvg Htag). cbv zeta.
    destruct (bool_decide _); [ reflexivity | ].
    pose proof (passStart_spec (afterSave h s)) as Hstart.
    destruct (passStart (afterSave h s)) as [[dp l] s2].
    destruct Hstart as (_ & _ & <- & _).
    pose proof (elementLoop_store this h (svgIdOf h s) dp l 0 s2) as Hst.
    unfold bind at 1. destruct (elementLoop this h (svgIdOf h s) dp l 0 s2) as [[n | e] s3];
      exact Hst. }
  apply afterSave_spec.
Qed.

(** The store of snapshots changes in two ways only.  On an [svg]
    element [applyRandomColors] adds the snapshot of the document under
    the id of the call when none is stored under it, and leaves the
    store as it is when one is; on any other target it leaves the store
    as it is.  [clearStates] empties it.  [applyRandomPathColors] and
    [resetColors] never change it, whatever they return.  [getStats]
    reports the number of snapshots stored. *)
Theorem snapshot_store this h options m s :
  (forall t a ch, svg (document s) = Elem t a ch -> toLowerCase t = "svg" ->
     svgStates (applyRandomColors this h s).2 =
       if bool_decide (is_Some (svgStates s !! svgIdOf h s)) then svgStates s
       else <[svgIdOf h s := snapshotOf (document s)]> (svgStates s)) /\
  ((forall t a ch, svg (document s) = Elem t a ch -> toLowerCase t <> "svg") ->
   svgStates (applyRandomColors this h s).2 = svgStates s) /\
  svgStates (applyRandomPathColors this h options s).2 = svgStates s /\
  svgStates (resetColors s).2 = svgStates s /\
  svgStates (clearStates s).2 = ∅ /\
  st_savedStates <$> returned (getStats this m s) = Some (size (svgStates s)).
Proof.
  split; [ apply applyRandomColors_store | ].
  split; [ apply applyRandomColors_store_kept | ].
  split.
  { apply (doc_free_applyRandomPathColors this h _ (store_doc_free (svgStates s))
             (store_emit_stable (svgStates s))). reflexivity. }
  split.
  { apply (doc_free_resetColors _ (store_doc_free (svgStates s))
             (store_emit_stable (svgStates s))). reflexivity. }
  split; reflexivity.
Qed.

(** After [clearStates], [getStats] reports no saved state and
    [resetColors] returns [false] and changes nothing, for every target:
    the colours applied before stay. *)
Theorem clearStates_forgets this m s :
  let s' := (clearStates s).2 in
  clearStates s = (Return tt, s') /\
  document s' = document s /\ events s' = events s /\
  st_savedStates <$> returned (getStats this m s') = Some 0 /\
  resetColors s' = (Return false, s').
Proof.
  cbv zeta. repeat split.
  change (clearStates s).2 with (set_svgStates ∅ s).
  unfold resetColors, try_catch, bind, gets, id. cbv beta iota.
  change (svgStates (set_svgStates ∅ s)) with (∅ : gmap string originalState).
  rewrite lookup_empty. destruct (truthy _); reflexivity.
Qed.

(** ** Invariants of the colouring loops *)

Lemma applyRandomColors_colorPass this h s t a ch :
  svg (document s) = Elem t a ch ->
  toLowerCase t = "svg" ->
  applyRandomColors this h s = colorPass this h (svgIdOf h s) (afterSave h s).
Proof.
  intros Hsvg Htag. rewrite (applyRandomColors_unfold this h s t a ch Hsvg Htag).
  unfold colorPass. destruct (afterSave_spec h s) as (-> & _). reflexivity.
Qed.

Section PathInvariant.
Variables (this : colorizer) (h : host) (I : state -> Prop) (P : path -> Prop).
Hypothesis I_frame :
  forall s ev rc nc, I s -> I (mkState (svgStates s) (document s) ev rc nc).
Hypothesis I_color :
  forall element k color, P element -> k = "fill" \/ k = "stroke" ->
    preserves I (applyColorToElement element k color).

Lemma inv_emit e : preserves I (emit e).
Proof. intros s H. apply (I_frame s), H. Qed.

Lemma inv_random : preserves I (Math_random h).
Proof. intros s H. apply (I_frame s), H. Qed.

Lemma inv_now : preserves I (Date_now h).
Proof. intros s H. apply (I_frame s), H. Qed.

Lemma inv_generateRandomColor : preserves I (generateRandomColor this h).
Proof. apply preserves_bind; [ apply inv_random | intros r; apply preserves_ret ]. Qed.

Lemma inv_generateRandomGradient id : preserves I (generateRandomGradient this h id).
Proof.
  unfold generateRandomGradient.
  apply preserves_bind; [ apply inv_generateRandomColor | intros c1 ].
  apply preserves_bind; [ apply inv_generateRandomColor | intros c2 ].
  apply preserves_bind; [ apply inv_now | intros now; apply preserves_ret ].
Qed.

Lemma inv_colorPath independent elements count index :
  (forall element, element ∈ elements -> P element) ->
  preserves I (colorPath this h independent elements count index).
Proof.
  intros HP. unfold colorPath. destruct (_ && _); [ | apply preserves_ret ].
  destruct (elements !! Z.to_nat index) as [element | ] eqn:E; [ | apply preserves_throw ].
  assert (P element) as Hin by (eapply HP, list_elem_of_lookup_2, E).
  apply preserves_bind; [ apply preserves_gets | intros d ].
  apply preserves_bind.
  { destruct (shouldProcessElementColor this d element "fill"); [ | apply preserves_ret ].
    apply preserves_bind; [ apply inv_generateRandomColor | intros c ].
    apply preserves_bind; [ apply I_color; auto | intros _; apply inv_emit ]. }
  intros _. apply preserves_bind; [ | intros _; apply preserves_ret ].
  destruct (shouldProcessElementColor this d element "stroke"); [ | apply preserves_ret ].
  apply preserves_bind.
  { destruct independent; [ apply inv_generateRandomColor | apply preserves_outerFillColor, inv_generateRandomColor ]. }
  intros c. apply preserves_bind; [ apply I_color; auto | intros _; apply inv_emit ].
Qed.

Lemma inv_applyRandomPathColors options :
  (forall s element, I s -> element ∈ querySelectorAll paintable (svg (document s)) ->
     P element) ->
  preserves I (applyRandomPathColors this h options).
Proof.
  intros Hels s HI. unfold applyRandomPathColors, try_catch.
  unfold bind at 1, gets at 1, id. cbv beta iota zeta.
  destruct (svg (document s)) as [t a ch | data] eqn:Hsvg; [ | apply (I_frame s), HI ].
  rewrite <- Hsvg.
  destruct (bool_decide _); [ exact HI | ].
  assert (preserves I
            (foldM (colorPath this h (default true (opt_independentColors options))
                      (querySelectorAll paintable (svg (document s))))
               (default (map Z.of_nat
                           (seq 0 (length (querySelectorAll paintable (svg (document s))))))
                  (pathIndices options)) 0)) as Hloop.
  { apply preserves_foldM. intros b x _. apply inv_colorPath.
    intros element. apply Hels, HI. }
  specialize (Hloop s HI). unfold bind at 1.
  destruct (foldM _ _ _ s) as [[n | e] s1]; simpl in *; apply (I_frame s1), Hloop.
Qed.

Variable dp : path.
Hypothesis I_gradient :
  forall gradientId color1 color2,
    preserves I
      (modify (fun s =>
         set_svg (update (appendTo (gradientElement gradientId color1 color2)) dp
                    (svg (document s))) s)).

Lemma inv_colorElement svgId index element :
  P element -> preserves I (colorElement this h svgId dp index element).
Proof.
  intros Hel. unfold colorElement.
  apply preserves_bind; [ apply preserves_gets | intros d ].
  apply preserves_bind.
  - destruct (shouldProcessElementColor this d element "fill"); [ | apply preserves_ret ].
    apply preserves_bind; [ apply inv_random | intros r ].
    apply preserves_bind.
    + destruct (negb _); [ | apply inv_generateRandomColor ].
      intros s H. unfold bind at 1. rewrite generateRandomGradient_run.
      apply (I_gradient _ _ _ (next_now (next_random (next_random s)))).
      apply (I_frame s), H.
    + intros fillColor.
      apply preserves_bind; [ apply I_color; auto | intros _; apply inv_emit ].
  - intros _.
    destruct (shouldProcessElementColor this d element "stroke"); [ | apply preserves_ret ].
    apply preserves_bind.
    + destruct (independentColors (cfg this));
        [ apply inv_generateRandomColor | apply preserves_outerFillColor, inv_generateRandomColor ].
    + intros strokeColor.
      apply preserves_bind; [ apply I_color; auto | intros _; apply inv_emit ].
Qed.

Lemma inv_elementLoop svgId (l : list (nat * path)) count :
  (forall x, x ∈ l -> P x.2) ->
  preserves I (elementLoop this h svgId dp l count).
Proof.
  intros Hl. apply preserves_foldM. intros b [index element] Hx.
  apply preserves_try_catch.
  - apply preserves_bind; [ apply inv_colorElement, (Hl _ Hx) | intros _; apply preserves_ret ].
  - intros e. apply preserves_bind; [ apply inv_emit | intros _; apply preserves_ret ].
Qed.
End PathInvariant.

Lemma indexed_elem_of {A} (l : list A) (x : nat * A) : x ∈ indexed l -> x.2 ∈ l.
Proof.
  unfold indexed. intros Hx. apply list_elem_of_lookup_1 in Hx as [i Hi].
  rewrite list_lookup_imap in Hi. destruct (l !! i) eqn:E; [ | discriminate ].
  injection Hi as <-. eapply list_elem_of_lookup_2, E.
Qed.

(** ** Trees made by writes of [fill] and [stroke] *)

Lemma selectors_not_root t0 sel p :
  match tagOf t0 with Some t => sel t = false | None => True end ->
  p ∈ subtree_paths sel t0 -> p ∈ querySelectorAll sel t0.
Proof.
  intros Hroot Hp. apply elem_of_subtree_paths in Hp as (t & a & ch & Hget & Hsel).
  apply elem_of_querySelectorAll. split; [ | eauto ].
  intros ->. simpl in Hget. injection Hget as ->. simpl in Hroot. congruence.
Qed.

Lemma tinted_recolored dp t0 t :
  match tagOf t0 with Some t => paintable_or_g t = false | None => True end ->
  tinted t0 t -> recolored dp t0 t.
Proof.
  intros Hroot. induction 1 as [ | t p k v _ IH Hp Hk ]; [ constructor | ].
  apply recolored_attr; [ exact IH | | exact Hk ].
  apply selectors_not_root; assumption.
Qed.

Lemma tinted_subtree_paths sel t0 t :
  tinted t0 t -> subtree_paths sel t = subtree_paths sel t0.
Proof.
  induction 1 as [ | t p k v _ IH _ _ ]; [ reflexivity | ].
  unfold setAttr. rewrite subtree_paths_update_attrs. exact IH.
Qed.

Lemma tinted_querySelectorAll sel t0 t :
  tinted t0 t -> querySelectorAll sel t = querySelectorAll sel t0.
Proof.
  induction 1 as [ | t p k v _ IH _ _ ]; [ reflexivity | ].
  unfold setAttr. rewrite querySelectorAll_update_attrs. exact IH.
Qed.

(** A write that stays below the target, or on it, lands on an element
    the snapshot selector matches. *)
Lemma writeTarget_subtree d element k p :
  element ∈ querySelectorAll paintable (svg d) ->
  writeTarget d element k = Inner p ->
  p ∈ subtree_paths paintable_or_g (svg d).
Proof.
  intros Hel. apply elem_of_querySelectorAll in Hel as (Hne & t & a & ch & Hget & Hsel).
  unfold writeTarget.
  destruct (if uncolored _ then _ else _) as [g | ] eqn:E.
  - intros ->. destruct (uncolored _); [ | discriminate ]. unfold closest in E.
    destruct (closest_in k (svg d) element) as [q | ] eqn:Hin.
    + injection E as ->.
      destruct (closest_in_Some k (svg d) element p) as (_ & (m & Hm & Hg) & _);
        [ rewrite Hget; eauto | exact Hin | ].
      apply elem_of_subtree_paths.
      destruct (matches_g_inv _ _ Hg) as (a' & ch' & ->). exists "g", a', ch'. auto.
    + destruct (list_find _ _) as [[i x] | ]; discriminate.
  - intros [= <-]. apply elem_of_subtree_paths.
    exists t, a, ch. split; [ exact Hget | apply paintable_or_g_paintable, Hsel ].
Qed.

Lemma tinted_applyColorToElement store t0 element k color :
  element ∈ querySelectorAll paintable t0 ->
  k = "fill" \/ k = "stroke" ->
  preserves (framed (fun m t => m = store /\ tinted t0 t))
    (applyColorToElement element k color).
Proof.
  intros Hel Hk s [Hstore Htin]. rewrite applyColorToElement_run.
  split; [ exact Hstore | ]. simpl.
  destruct (writeTarget (document s) element k) as [p | i] eqn:Ht; simpl; [ | exact Htin ].
  apply tinted_attr; [ exact Htin | | exact Hk ].
  rewrite <- (tinted_subtree_paths paintable_or_g t0 _ Htin).
  eapply writeTarget_subtree; [ | exact Ht ].
  rewrite (tinted_querySelectorAll paintable t0 _ Htin). exact Hel.
Qed.

Lemma update_insertFirst f c p t a ch :
  p <> [] ->
  insertFirst c (update f p (Elem t a ch)) = update f (relocate p) (insertFirst c (Elem t a ch)).
Proof. intros Hp. destruct p as [ | i r ]; [ congruence | reflexivity ]. Qed.

Lemma tinted_root t0 t :
  tinted t0 t -> tagOf t = tagOf t0.
Proof.
  induction 1 as [ | t p k v _ IH _ _ ]; [ reflexivity | ].
  rewrite <- IH. destruct p as [ | i r ], t; reflexivity.
Qed.

(** Writes made before the [defs] element was created are writes on the
    tree with the [defs] element. *)
Lemma tinted_insertFirst c t0 t :
  subtree_paths paintable_or_g c = [] ->
  match tagOf t0 with Some t => paintable_or_g t = false | None => False end ->
  tinted t0 t -> recolored [0] (insertFirst c t0) (insertFirst c t).
Proof.
  intros Hc Hroot. induction 1 as [ | t p k v Htin IH Hp Hk ]; [ constructor | ].
  assert (p ∈ querySelectorAll paintable_or_g t0) as Hq.
  { apply selectors_not_root; [ | exact Hp ]. destruct (tagOf t0); [ exact Hroot | exact I ]. }
  pose proof Hq as Hne. apply elem_of_querySelectorAll in Hne as [Hne _].
  pose proof (tinted_root _ _ Htin) as Htag.
  destruct t as [tt ta tch | ]; [ | destruct t0; [ discriminate | destruct Hroot ] ].
  rewrite update_insertFirst by exact Hne.
  apply recolored_attr; [ exact IH | | exact Hk ].
  rewrite querySelectorAll_insertFirst by exact Hc.
  apply list_elem_of_fmap. exists p. auto.
Qed.

Lemma tinted_restore recs t0 t :
  match tagOf t0 with Some t => paintable_or_g t = false | None => True end ->
  aligned recs (querySelectorAll paintable_or_g t0) t0 ->
  tinted t0 t ->
  fold_left (restoreStep (querySelectorAll paintable_or_g t0)) recs t = t0.
Proof.
  intros Hroot [Hlen Hal] H. induction H as [ | t p k v Htin IH Hp Hk ].
  - apply restore_id.
    intros o p n Ho Hp Hn. apply list_elem_of_lookup_1 in Ho as [i Hi].
    destruct (Hal i o Hi) as (<- & p' & n' & Hp' & Hn' & _ & Hvals).
    rewrite Hp in Hp'. injection Hp' as <-. rewrite Hn in Hn'. injection Hn' as <-.
    exact Hvals.
  - rewrite restore_absorbs; [ exact IH | exact Hk | ].
    apply (selectors_not_root _ _ _ Hroot) in Hp.
    apply list_elem_of_lookup_1 in Hp as [i Hi].
    destruct (lookup_lt_is_Some_2 recs i) as [o Ho].
    { rewrite Hlen. eapply lookup_lt_Some, Hi. }
    destruct (Hal i o Ho) as (Hidx & p' & n' & Hp' & Hn' & Htag & _).
    rewrite Hi in Hp'. injection Hp' as <-.
    destruct (recolored_get [0] t0 t p n' (tinted_recolored [0] t0 t Hroot Htin) Hn')
      as (n1 & Hn1 & Ht1).
    exists o, n1. split; [ eapply list_elem_of_lookup_2, Ho | ].
    split; [ rewrite Hidx; exact Hi | ]. split; [ exact Hn1 | congruence ].
Qed.

(** ** Any number of colouring calls, then a reset *)

Lemma svg_not_selected t : toLowerCase t = "svg" -> paintable_or_g t = false.
Proof.
  intros Ht. unfold paintable_or_g. apply bool_decide_eq_false_2. intros Hin.
  repeat (apply elem_of_cons in Hin as [-> | Hin]; [ discriminate | ]).
  inversion Hin.
Qed.

Section Calls.
Variables (d0 : dom) (t : string) (a : gmap string string) (ch : list node).
Hypothesis target_svg : svg d0 = Elem t a ch.
Hypothesis tag_svg : toLowerCase t = "svg".

Lemma root_not_selected :
  match tagOf (svg d0) with Some t => paintable_or_g t = false | None => True end.
Proof. rewrite target_svg. simpl. apply svg_not_selected, tag_svg. Qed.

Lemma root_not_group : tagOf (svg d0) <> Some "g".
Proof. rewrite target_svg. simpl. intros [= ->]. discriminate. Qed.

Lemma root_not_group_defs : tagOf (insertFirst newDefs (svg d0)) <> Some "g".
Proof. rewrite target_svg. simpl. intros [= ->]. discriminate. Qed.

Lemma pass_inv_snapshot dp s :
  querySelector is_defs (svg d0) = Some dp ->
  svgStates s !! idOf (svg d0) = Some (snapshotOf d0) ->
  forall s', pass_inv (svgStates s) dp (svg d0) s' -> snapshot_inv d0 s'.
Proof.
  intros Hd Hst s' [Hm Hrec]. split; [ rewrite Hm; exact Hst | ].
  unfold reachable. rewrite Hd. exact Hrec.
Qed.

Lemma pass_inv_snapshot_new s :
  querySelector is_defs (svg d0) = None ->
  svgStates s !! idOf (svg d0) = Some (snapshotOf d0) ->
  forall s', pass_inv (svgStates s) [0] (insertFirst newDefs (svg d0)) s' -> snapshot_inv d0 s'.
Proof.
  intros Hd Hst s' [Hm Hrec]. split; [ rewrite Hm; exact Hst | ].
  unfold reachable. rewrite Hd. right. exact Hrec.
Qed.

Lemma first_defs_new : querySelector is_defs (insertFirst newDefs (svg d0)) = Some [0].
Proof. rewrite target_svg. apply querySelector_defs_first. reflexivity. Qed.

(** The pass of [applyRandomColors] keeps the invariant. *)
Lemma colorPass_inv this h svgId s :
  snapshot_inv d0 s -> snapshot_inv d0 (colorPass this h svgId s).2.
Proof.
  intros [Hst Hreach]. unfold colorPass. cbv zeta.
  destruct (bool_decide _); [ split; assumption | ].
  unfold passStart. unfold reachable in Hreach.
  destruct (querySelector is_defs (svg d0)) as [dp | ] eqn:Hd.
  - destruct (querySelector_valid _ _ _ Hd) as (Hdp & _).
    assert (querySelector is_defs (svg (document s)) = Some dp) as ->.
    { unfold querySelector.
      rewrite (recolored_querySelectorAll dp _ is_defs _ eq_refl eq_refl Hreach). exact Hd. }
    rewrite (recolored_querySelectorAll dp _ paintable _ eq_refl eq_refl Hreach).
    apply (pass_inv_snapshot dp s Hd Hst).
    eapply preserves_bind; [ | | split; [ reflexivity | exact Hreach ] ].
    + apply (pass_loop this h (svgStates s) dp (svg d0) root_not_group Hdp). auto.
    + intros n. apply preserves_bind; [ apply framed_emit | intros _; apply preserves_ret ].
  - destruct Hreach as [Htin | Hrec].
    + assert (querySelector is_defs (svg (document s)) = None) as ->.
      { unfold querySelector. rewrite (tinted_querySelectorAll is_defs _ _ Htin). exact Hd. }
      rewrite (tinted_querySelectorAll paintable _ _ Htin).
      apply (pass_inv_snapshot_new s Hd Hst).
      eapply preserves_bind.
      * apply (pass_loop this h (svgStates s) [0] (insertFirst newDefs (svg d0))
                 root_not_group_defs ltac:(discriminate)).
        intros p Hp. rewrite querySelectorAll_insertFirst by reflexivity. exact Hp.
      * intros n. apply preserves_bind; [ apply framed_emit | intros _; apply preserves_ret ].
      * split; [ reflexivity | ]. simpl. apply tinted_insertFirst; [ reflexivity | | exact Htin ].
        rewrite target_svg. simpl. apply svg_not_selected, tag_svg.
    + assert (querySelector is_defs (svg (document s)) = Some [0]) as ->.
      { unfold querySelector.
        rewrite (recolored_querySelectorAll [0] _ is_defs _ eq_refl eq_refl Hrec).
        apply first_defs_new. }
      rewrite (recolored_querySelectorAll [0] _ paintable _ eq_refl eq_refl Hrec).
      apply (pass_inv_snapshot_new s Hd Hst).
      eapply preserves_bind; [ | | split; [ reflexivity | exact Hrec ] ].
      * apply (pass_loop this h (svgStates s) [0] (insertFirst newDefs (svg d0))
                 root_not_group_defs ltac:(discriminate)). auto.
      * intros n. apply preserves_bind; [ apply framed_emit | intros _; apply preserves_ret ].
Qed.

Lemma reachable_root t' :
  reachable (svg d0) t' -> tagOf t' = tagOf (svg d0) /\ attrsOf t' = attrsOf (svg d0).
Proof.
  unfold reachable. destruct (querySelector is_defs (svg d0)) as [dp | ] eqn:Hd.
  - destruct (querySelector_valid _ _ _ Hd) as (Hdp & _). apply recolored_root, Hdp.
  - intros [Htin | Hrec].
    + apply (recolored_root [0]); [ discriminate | ].
      apply tinted_recolored; [ apply root_not_selected | exact Htin ].
    + destruct (recolored_root [0] _ _ ltac:(discriminate) Hrec) as [-> ->].
      rewrite target_svg. auto.
Qed.

Lemma reachable_id t' : reachable (svg d0) t' -> idOf t' = idOf (svg d0).
Proof. intros H. unfold idOf. destruct (reachable_root t' H) as [_ ->]. reflexivity. Qed.

Hypothesis id_not_empty : idOf (svg d0) <> "".

Lemma applyRandomColors_inv this h s :
  snapshot_inv d0 s -> snapshot_inv d0 (applyRandomColors this h s).2.
Proof.
  intros Hinv. pose proof Hinv as [Hst Hreach].
  destruct (reachable_root _ Hreach) as [Htag Hattrs].
  pose proof (reachable_id _ Hreach) as Hid.
  destruct (svg (document s)) as [t' a' ch' | ] eqn:Hsvg;
    [ | rewrite target_svg in Htag; discriminate ].
  rewrite target_svg in Htag. simpl in Htag. injection Htag as ->.
  rewrite (applyRandomColors_colorPass this h s t a' ch' Hsvg tag_svg).
  apply colorPass_inv.
  destruct (afterSave_spec h s) as (Hdoc & _ & Hstore).
  unfold snapshot_inv, framed. rewrite Hdoc, Hstore, Hsvg.
  assert (svgIdOf h s = idOf (svg d0)) as ->.
  { unfold svgIdOf. rewrite Hsvg, Hid. unfold truthy.
    rewrite bool_decide_eq_false_2 by exact id_not_empty. reflexivity. }
  rewrite bool_decide_eq_true_2 by (rewrite Hst; eauto).
  split; [ exact Hst | exact Hreach ].
Qed.

Lemma applyRandomPathColors_inv this h options s :
  snapshot_inv d0 s -> snapshot_inv d0 (applyRandomPathColors this h options s).2.
Proof.
  intros [Hst Hreach]. unfold reachable in Hreach.
  destruct (querySelector is_defs (svg d0)) as [dp | ] eqn:Hd.
  - destruct (querySelector_valid _ _ _ Hd) as (Hdp & _).
    apply (pass_inv_snapshot dp s Hd Hst).
    apply (inv_applyRandomPathColors this h (pass_inv (svgStates s) dp (svg d0))
             (fun element => element ∈ querySelectorAll paintable (svg d0))).
    + intros s1 ev rc nc H. exact H.
    + intros element k color Hel Hk.
      apply (pass_applyColorToElement (svgStates s) dp (svg d0) root_not_group Hdp); assumption.
    + intros s1 element [_ Hrec].
      rewrite (recolored_querySelectorAll dp _ paintable _ eq_refl eq_refl Hrec). auto.
    + split; [ reflexivity | exact Hreach ].
  - destruct Hreach as [Htin | Hrec].
    + assert (framed (fun m t' => m = svgStates s /\ tinted (svg d0) t')
                (applyRandomPathColors this h options s).2) as [Hm Htin'].
      { apply (inv_applyRandomPathColors this h _
                 (fun element => element ∈ querySelectorAll paintable (svg d0))).
        - intros s1 ev rc nc H. exact H.
        - intros element k color Hel Hk. apply tinted_applyColorToElement; assumption.
        - intros s1 element [_ Htin1].
          rewrite (tinted_querySelectorAll paintable _ _ Htin1). auto.
        - split; [ reflexivity | exact Htin ]. }
      split; [ rewrite Hm; exact Hst | ]. unfold reachable. rewrite Hd. left. exact Htin'.
    + apply (pass_inv_snapshot_new s Hd Hst).
      apply (inv_applyRandomPathColors this h
               (pass_inv (svgStates s) [0] (insertFirst newDefs (svg d0)))
               (fun element =>
                  element ∈ querySelectorAll paintable (insertFirst newDefs (svg d0)))).
      * intros s1 ev rc nc H. exact H.
      * intros element k color Hel Hk.
        apply (pass_applyColorToElement (svgStates s) [0] (insertFirst newDefs (svg d0))
                 root_not_group_defs ltac:(discriminate)); assumption.
      * intros s1 element [_ Hrec1].
        rewrite (recolored_querySelectorAll [0] _ paintable _ eq_refl eq_refl Hrec1). auto.
      * split; [ reflexivity | exact Hrec ].
Qed.

Lemma runAll_inv calls s : snapshot_inv d0 s -> snapshot_inv d0 (runAll calls s).
Proof.
  revert s. induction calls as [ | c calls IH ]; intros s H; [ exact H | ].
  simpl. apply IH. destruct c as [this h | this h options]; simpl.
  - apply applyRandomColors_inv, H.
  - apply applyRandomPathColors_inv, H.
Qed.

(** From a tree colouring calls made, [resetColors] goes back to the
    tree of the snapshot, with its first [defs] element in front. *)
Lemma resetColors_reachable s :
  snapshot_inv d0 s ->
  (resetColors s).1 = Return true /\
  svg (document (resetColors s).2) = defsFirst (svg d0).
Proof.
  intros [Hst Hreach]. pose proof (reachable_id _ Hreach) as Hid.
  pose proof (aligned_snapshot d0) as Hal.
  destruct (resetColors_run s (snapshotOf d0)) as (Hr & Ht & _).
  { rewrite Hid. exact id_not_empty. }
  { rewrite Hid. exact Hst. }
  split; [ exact Hr | ]. rewrite Ht. clear Hr Ht.
  unfold reachable in Hreach.
  destruct (querySelector is_defs (svg d0)) as [dp | ] eqn:Hd.
  - destruct (querySelector_valid _ _ _ Hd) as (Hdp & _).
    rewrite (recolored_querySelectorAll dp _ paintable_or_g _ eq_refl eq_refl Hreach).
    pose proof (recolored_restore dp _ _ _ Hal Hreach) as Hg.
    unfold defsFirst, withoutDefs at 1, querySelector.
    rewrite (grown_querySelectorAll dp _ is_defs _ eq_refl eq_refl Hg).
    fold (querySelector is_defs (svg d0)). rewrite Hd.
    rewrite (grown_remove dp _ _ Hdp Hg).
    unfold withoutDefs. rewrite Hd. reflexivity.
  - assert (os_defs (snapshotOf d0) = None) as Hnone.
    { unfold snapshotOf, firstDefs. simpl. rewrite Hd. reflexivity. }
    destruct Hreach as [Htin | Hrec].
    + rewrite (tinted_querySelectorAll paintable_or_g _ _ Htin).
      rewrite (tinted_restore _ _ _ root_not_selected Hal Htin), Hnone.
      unfold defsFirst, firstDefs, withoutDefs. rewrite Hd. reflexivity.
    + set (t0c := insertFirst newDefs (svg d0)) in *.
      assert (Halc : aligned (os_elements (snapshotOf d0))
                       (querySelectorAll paintable_or_g t0c) t0c).
      { unfold t0c. rewrite querySelectorAll_insertFirst by reflexivity.
        apply aligned_insertFirst; [ | exact Hal ].
        intros p Hp. apply elem_of_querySelectorAll in Hp as [Hp _]. exact Hp. }
      rewrite (recolored_querySelectorAll [0] t0c paintable_or_g _ eq_refl eq_refl Hrec).
      pose proof (recolored_restore [0] t0c _ _ Halc Hrec) as Hg.
      unfold defsFirst, withoutDefs at 1, querySelector.
      rewrite (grown_querySelectorAll [0] t0c is_defs _ eq_refl eq_refl Hg).
      fold (querySelector is_defs t0c). unfold t0c at 1. rewrite first_defs_new.
      rewrite (grown_remove [0] t0c _ ltac:(discriminate) Hg), Hnone.
      unfold withoutDefs, firstDefs. rewrite Hd. unfold t0c. rewrite target_svg. reflexivity.
Qed.
End Calls.

Lemma defsFirst_none t0 : querySelector is_defs t0 = None -> defsFirst t0 = t0.
Proof. intros H. unfold defsFirst, firstDefs, withoutDefs. rewrite H. reflexivity. Qed.

Lemma afterSave_fresh h s :
  idOf (svg (document s)) <> "" ->
  svgStates s !! idOf (svg (document s)) = None ->
  snapshot_inv (document s) (afterSave h s).
Proof.
  intros Hid Hno. destruct (afterSave_spec h s) as (Hdoc & _ & Hstore).
  assert (svgIdOf h s = idOf (svg (document s))) as Hkey.
  { unfold svgIdOf, truthy. rewrite bool_decide_eq_false_2 by exact Hid. reflexivity. }
  unfold snapshot_inv, framed. rewrite Hdoc, Hstore, Hkey.
  rewrite bool_decide_eq_false_2 by (rewrite Hno; intros [? ?]; discriminate).
  split; [ apply lookup_insert_eq | ].
  unfold reachable. destruct (querySelector is_defs _); [ | left ]; constructor.
Qed.

(** On an [svg] element with a non-empty id under which no snapshot
    is stored, let [applyRandomColors] be called and then, any number of
    times and in any order, [applyRandomColors] and
    [applyRandomPathColors], whatever the configuration, the filter, the
    validator, the options and the values of the host at each call.
    [resetColors] then returns [true] and yields the tree of before the
    first call, with its first [defs] element moved to the front: the
    very tree of before when it had no [defs] element. *)
Theorem reset_after_calls this h calls s t a ch :
  svg (document s) = Elem t a ch ->
  toLowerCase t = "svg" ->
  idOf (svg (document s)) <> "" ->
  svgStates s !! idOf (svg (document s)) = None ->
  let r := resetColors (runAll (ApplyColors this h :: calls) s) in
  r.1 = Return true /\
  svg (document r.2) = defsFirst (svg (document s)) /\
  (querySelector is_defs (svg (document s)) = None ->
   svg (document r.2) = svg (document s)).
Proof.
  intros Hsvg Htag Hid Hno r.
  assert (snapshot_inv (document s) (runAll (ApplyColors this h :: calls) s)) as Hinv.
  { simpl. apply (runAll_inv (document s) t a ch Hsvg Htag Hid).
    rewrite (applyRandomColors_colorPass this h s t a ch Hsvg Htag).
    apply (colorPass_inv (document s) t a ch Hsvg Htag).
    apply afterSave_fresh; assumption. }
  destruct (resetColors_reachable (document s) t a ch Hsvg Htag Hid _ Hinv) as [Hr Ht].
  split; [ exact Hr | ]. split; [ exact Ht | ].
  intros Hd. unfold r. rewrite Ht. apply defsFirst_none, Hd.
Qed.

(** ** What colouring calls leave alone *)

Lemma bleach_children ks t a ch :
  bleach ks (Elem t a ch) = Elem t (bleachAttrs ks t a) (bleach ks <$> ch).
Proof. reflexivity. Qed.

Lemma bleach_remove ks p n : bleach ks (remove p n) = remove p (bleach ks n).
Proof.
  revert n. induction p as [ | i r IH ]; intros n; [ reflexivity | ].
  destruct n as [t a ch | data ]; [ | destruct r; reflexivity ].
  destruct r as [ | j r ].
  - simpl remove. rewrite !bleach_children, list_fmap_delete. reflexivity.
  - change (remove (i :: j :: r) (Elem t a ch)) with (Elem t a (alter (remove (j :: r)) i ch)).
    rewrite !bleach_children.
    change (remove (i :: j :: r) (Elem t (bleachAttrs ks t a) (bleach ks <$> ch)))
      with (Elem t (bleachAttrs ks t a) (alter (remove (j :: r)) i (bleach ks <$> ch))).
    f_equal. apply list_fmap_alter, Forall_forall. intros c _. apply IH.
Qed.

Lemma erase_insert (ks : list string) k v (a : gmap string string) :
  k ∈ ks -> foldr delete (<[k:=v]> a) ks = foldr delete a ks.
Proof.
  induction ks as [ | k' ks IH ]; intros Hk; [ inversion Hk | ]. simpl.
  destruct (decide (k ∈ ks)) as [Hin | Hout]; [ rewrite IH by exact Hin; reflexivity | ].
  apply elem_of_cons in Hk as [<- | Hk]; [ | contradiction ].
  clear IH. apply map_eq. intros j. destruct (decide (j = k)) as [-> | Hne].
  - rewrite !lookup_delete_eq. reflexivity.
  - rewrite !lookup_delete_ne by congruence.
    revert j Hne. induction ks as [ | k'' ks IH ]; intros j Hne; simpl.
    + apply lookup_insert_ne. congruence.
    + apply not_elem_of_cons in Hout as [Hk'' Hout].
      destruct (decide (j = k'')) as [-> | Hne'];
        [ rewrite !lookup_delete_eq; reflexivity | ].
      rewrite !lookup_delete_ne by congruence. apply IH; assumption.
Qed.

Lemma erase_delete (ks : list string) k (a : gmap string string) :
  k ∈ ks -> foldr delete (delete k a) ks = foldr delete a ks.
Proof.
  intros Hk. destruct (a !! k) as [v | ] eqn:E.
  - rewrite <- (erase_insert ks k v (delete k a) Hk), insert_delete_eq.
    rewrite insert_id by exact E. reflexivity.
  - rewrite delete_id by exact E. reflexivity.
Qed.

Lemma bleachAttrs_insert ks t k v a :
  paintable_or_g t = true -> k ∈ ks ->
  bleachAttrs ks t (<[k:=v]> a) = bleachAttrs ks t a.
Proof. intros Ht Hk. unfold bleachAttrs. rewrite Ht. apply erase_insert, Hk. Qed.

Lemma bleachAttrs_delete ks t k a :
  paintable_or_g t = true -> k ∈ ks ->
  bleachAttrs ks t (delete k a) = bleachAttrs ks t a.
Proof. intros Ht Hk. unfold bleachAttrs. rewrite Ht. apply erase_delete, Hk. Qed.

(** A change of the attributes of an element the snapshot selector
    matches is not seen when it is undone by taking [ks] away. *)
Lemma bleach_update_attrs ks phi p n t a ch :
  get n p = Some (Elem t a ch) ->
  bleachAttrs ks t (phi a) = bleachAttrs ks t a ->
  bleach ks (update (onAttrs phi) p n) = bleach ks n.
Proof.
  intros Hget Hphi. revert n Hget. induction p as [ | i r IH ]; intros n Hget.
  - simpl in Hget. injection Hget as ->. simpl. rewrite Hphi. reflexivity.
  - destruct n as [tn an chn | data ]; [ | discriminate ]. simpl in Hget.
    destruct (chn !! i) as [c | ] eqn:Hc; [ | discriminate ].
    simpl update. rewrite !bleach_children. f_equal.
    apply list_eq. intros j. rewrite !list_lookup_fmap.
    destruct (decide (j = i)) as [-> | Hne].
    + rewrite list_lookup_alter_eq, Hc. simpl. rewrite IH by exact Hget. reflexivity.
    + rewrite list_lookup_alter_ne by congruence. reflexivity.
Qed.

Lemma color_key k : k = "fill" \/ k = "stroke" -> k ∈ colorKeys.
Proof. unfold colorKeys. intros [-> | ->]; rewrite !elem_of_cons; auto. Qed.

Lemma bleach_update_color k v p n t a ch :
  get n p = Some (Elem t a ch) -> paintable_or_g t = true ->
  k = "fill" \/ k = "stroke" ->
  bleach colorKeys (update (setAttr k v) p n) = bleach colorKeys n.
Proof.
  intros Hget Ht Hk. eapply bleach_update_attrs; [ exact Hget | ].
  apply bleachAttrs_insert; [ exact Ht | apply color_key, Hk ].
Qed.

Lemma tinted_get t0 t p n :
  tinted t0 t -> get t0 p = Some n ->
  exists n', get t p = Some n' /\ tagOf n' = tagOf n.
Proof.
  intros H Hn. induction H as [ | t q k v _ IH _ _ ]; [ eauto | ].
  destruct IH as (n1 & Hn1 & Ht1).
  destruct (get_update_extends (setAttr k v) q t p n1 (onAttrs_extends _) Hn1)
    as (n2 & Hn2 & Ht2).
  exists n2. split; [ exact Hn2 | congruence ].
Qed.

Lemma tinted_bleach t0 t : tinted t0 t -> bleach colorKeys t = bleach colorKeys t0.
Proof.
  induction 1 as [ | t p k v Htin IH Hp Hk ]; [ reflexivity | ].
  rewrite <- IH. apply elem_of_subtree_paths in Hp as (tg & a & ch & Hget & Hsel).
  destruct (tinted_get _ _ _ _ Htin Hget) as ([tg' a' ch' | ] & Hget' & Htag); [ | discriminate ].
  injection Htag as ->. eapply bleach_update_color; eauto.
Qed.

Lemma recolored_bleach dp t0 t :
  dp <> [] -> recolored dp t0 t ->
  bleach colorKeys (remove dp t) = bleach colorKeys (remove dp t0).
Proof.
  intros Hdp. induction 1 as [ | t p k v Hrec IH Hp Hk | t gid c1 c2 _ IH ].
  - reflexivity.
  - rewrite <- IH, !bleach_remove. f_equal.
    apply elem_of_querySelectorAll in Hp as (_ & tg & a & ch & Hget & Hsel).
    destruct (recolored_get dp t0 t p _ Hrec Hget) as ([tg' a' ch' | ] & Hget' & Htag);
      [ | discriminate ].
    injection Htag as ->. eapply bleach_update_color; eauto.
  - rewrite remove_update by exact Hdp. exact IH.
Qed.

(** A write above the target is a write on a [g] element. *)
Lemma outer_setAttribute ks d element k v i :
  k ∈ ks -> writeTarget d element k = Outer i ->
  bleachOuter ks <$> outer (setAttribute (Outer i) k v d) = bleachOuter ks <$> outer d.
Proof.
  intros Hk Ht. simpl. apply list_eq. intros j. rewrite !list_lookup_fmap.
  destruct (decide (j = i)) as [-> | Hne]; [ | rewrite list_lookup_alter_ne by congruence; auto ].
  rewrite list_lookup_alter_eq.
  destruct (outer d !! i) as [[tg a] | ] eqn:Hi; [ | reflexivity ].
  simpl. unfold bleachOuter. simpl. do 2 f_equal.
  apply bleachAttrs_insert; [ | exact Hk ].
  unfold writeTarget in Ht.
  destruct (uncolored _); [ | discriminate ]. unfold closest in Ht.
  destruct (closest_in k (svg d) element); [ discriminate | ].
  destruct (list_find _ _) as [[i' x] | ] eqn:Hfind; [ | discriminate ].
  injection Ht as ->. apply list_find_Some in Hfind as (Hx & Hg & _).
  rewrite Hi in Hx. injection Hx as <-. simpl in Hg. unfold declares_g in Hg.
  apply andb_true_iff in Hg as [Hg _]. apply bool_decide_eq_true in Hg as ->. reflexivity.
Qed.

Lemma outer_applyColorToElement B element k color :
  k = "fill" \/ k = "stroke" ->
  preserves (fun s => bleachOuter colorKeys <$> outer (document s) = B)
    (applyColorToElement element k color).
Proof.
  intros Hk s H. rewrite applyColorToElement_run.
  destruct (writeTarget (document s) element k) as [p | i] eqn:Ht; [ exact H | ].
  rewrite <- H. apply (outer_setAttribute colorKeys _ element); [ apply color_key, Hk | exact Ht ].
Qed.

Lemma outer_frame B s ev rc nc :
  bleachOuter colorKeys <$> outer (document s) = B ->
  bleachOuter colorKeys <$> outer (document (mkState (svgStates s) (document s) ev rc nc)) = B.
Proof. intros H. exact H. Qed.

Lemma colorPass_outer this h svgId s :
  bleachOuter colorKeys <$> outer (document (colorPass this h svgId s).2) =
  bleachOuter colorKeys <$> outer (document s).
Proof.
  unfold colorPass. cbv zeta. destruct (bool_decide _); [ reflexivity | ].
  pose proof (passStart_spec s) as Hstart.
  destruct (passStart s) as [[dp l] s2]. destruct Hstart as (_ & _ & _ & Hout & _).
  rewrite <- Hout.
  eapply (preserves_bind (fun s' => bleachOuter colorKeys <$> outer (document s') =
                                     bleachOuter colorKeys <$> outer (document s2))).
  - apply (inv_elementLoop this h _ (fun _ => True)).
    + intros s' ev rc nc H. exact H.
    + intros element k color _ Hk. apply outer_applyColorToElement, Hk.
    + intros gid c1 c2 s' H. exact H.
    + auto.
  - intros n. apply preserves_bind; [ | intros _; apply preserves_ret ].
    intros s' H. exact H.
  - reflexivity.
Qed.

Lemma remove_insertFirst c t a ch : remove [0] (insertFirst c (Elem t a ch)) = Elem t a ch.
Proof. reflexivity. Qed.

Lemma colorPass_tree this h svgId s t a ch :
  svg (document s) = Elem t a ch ->
  toLowerCase t = "svg" ->
  bleach colorKeys (withoutDefs (svg (document (colorPass this h svgId s).2))) =
  bleach colorKeys (withoutDefs (svg (document s))).
Proof.
  intros Hsvg Htag. unfold colorPass. cbv zeta. destruct (bool_decide _); [ reflexivity | ].
  assert (Hroot : tagOf (svg (document s)) <> Some "g").
  { rewrite Hsvg. simpl. intros [= ->]. discriminate. }
  unfold passStart.
  destruct (querySelector is_defs (svg (document s))) as [dp | ] eqn:Hd.
  - destruct (querySelector_valid _ _ _ Hd) as (Hdp & _).
    assert (pass_inv (svgStates s) dp (svg (document s))
              ((processedCount <- elementLoop this h svgId dp
                                    (indexed (querySelectorAll paintable (svg (document s)))) 0 ;;
                emit (Complete processedCount
                        (length (querySelectorAll paintable (svg (document s))))) ;;
                ret true) s).2) as [_ Hrec].
    { eapply preserves_bind; [ | | split; [ reflexivity | constructor ] ].
      - apply (pass_loop this h (svgStates s) dp (svg (document s)) Hroot Hdp). auto.
      - intros n. apply preserves_bind; [ apply framed_emit | intros _; apply preserves_ret ]. }
    unfold withoutDefs, querySelector.
    rewrite (recolored_querySelectorAll dp _ is_defs _ eq_refl eq_refl Hrec).
    fold (querySelector is_defs (svg (document s))). rewrite Hd.
    apply recolored_bleach; assumption.
  - set (t0c := insertFirst newDefs (svg (document s))).
    assert (pass_inv (svgStates s) [0] t0c
              ((processedCount <- elementLoop this h svgId [0]
                                    (indexed (map relocate
                                       (querySelectorAll paintable (svg (document s))))) 0 ;;
                emit (Complete processedCount
                        (length (querySelectorAll paintable (svg (document s))))) ;;
                ret true) (set_svg t0c s)).2) as [_ Hrec].
    { eapply preserves_bind; [ | | split; [ reflexivity | constructor ] ].
      - apply (pass_loop this h (svgStates s) [0] t0c).
        + unfold t0c. rewrite Hsvg. simpl. intros [= ->]. discriminate.
        + discriminate.
        + intros p Hp. unfold t0c. rewrite querySelectorAll_insertFirst by reflexivity.
          exact Hp.
      - intros n. apply preserves_bind; [ apply framed_emit | intros _; apply preserves_ret ]. }
    unfold withoutDefs at 1, querySelector.
    rewrite (recolored_querySelectorAll [0] _ is_defs _ eq_refl eq_refl Hrec).
    fold (querySelector is_defs t0c).
    assert (querySelector is_defs t0c = Some [0]) as ->.
    { unfold t0c. rewrite Hsvg. apply querySelector_defs_first. reflexivity. }
    rewrite (recolored_bleach [0] t0c _ ltac:(discriminate) Hrec).
    unfold withoutDefs. rewrite Hd. unfold t0c. rewrite Hsvg. reflexivity.
Qed.

Lemma applyRandomColors_cases this h s :
  document (applyRandomColors this h s).2 = document s \/
  exists t a ch,
    svg (document s) = Elem t a ch /\ toLowerCase t = "svg" /\
    applyRandomColors this h s = colorPass this h (svgIdOf h s) (afterSave h s).
Proof.
  destruct (svg (document s)) as [t a ch | data] eqn:Hsvg.
  2:{ left. unfold applyRandomColors, try_catch, bind at 1, gets at 1, id. cbv beta iota.
      rewrite Hsvg. reflexivity. }
  destruct (decide (toLowerCase t = "svg")) as [Htag | Htag].
  - right. exists t, a, ch. split; [ reflexivity | ]. split; [ exact Htag | ].
    apply (applyRandomColors_colorPass this h s t a ch Hsvg Htag).
  - left. unfold applyRandomColors, try_catch, bind at 1, gets at 1, id. cbv beta iota.
    rewrite Hsvg. rewrite bool_decide_eq_false_2 by exact Htag. reflexivity.
Qed.

(** The two colouring methods write [fill] and [stroke], on
    paintable elements and on [g] elements, and nothing else: with these
    two attributes taken away from the elements the snapshot selector
    matches, the ancestors of the target are as before, and so is the
    target, for [applyRandomColors] up to its first [defs] element, which
    it may create and to which it appends.  Tags, text, [style] and all
    other attributes stay, and so do [fill] and [stroke] on any other
    element. *)
Theorem colors_only this h options s :
  let d1 := document (applyRandomColors this h s).2 in
  let d2 := document (applyRandomPathColors this h options s).2 in
  bleach colorKeys (withoutDefs (svg d1)) = bleach colorKeys (withoutDefs (svg (document s))) /\
  bleachOuter colorKeys <$> outer d1 = bleachOuter colorKeys <$> outer (document s) /\
  bleach colorKeys (svg d2) = bleach colorKeys (svg (document s)) /\
  bleachOuter colorKeys <$> outer d2 = bleachOuter colorKeys <$> outer (document s).
Proof.
  cbv zeta. split; [ | split; [ | split ] ].
  - destruct (applyRandomColors_cases this h s) as [-> | (t & a & ch & Hsvg & Htag & ->)];
      [ reflexivity | ].
    destruct (afterSave_spec h s) as (Hdoc & _).
    rewrite (colorPass_tree this h _ (afterSave h s) t a ch); rewrite ?Hdoc; auto.
  - destruct (applyRandomColors_cases this h s) as [-> | (t & a & ch & Hsvg & Htag & ->)];
      [ reflexivity | ].
    destruct (afterSave_spec h s) as (Hdoc & _).
    rewrite colorPass_outer, Hdoc. reflexivity.
  - assert (framed (fun m t' => m = svgStates s /\ tinted (svg (document s)) t')
              (applyRandomPathColors this h options s).2) as [_ Htin].
    { apply (inv_applyRandomPathColors this h _
               (fun element => element ∈ querySelectorAll paintable (svg (document s)))).
      - intros s1 ev rc nc H. exact H.
      - intros element k color Hel Hk. apply tinted_applyColorToElement; assumption.
      - intros s1 element [_ Htin1].
        rewrite (tinted_querySelectorAll paintable _ _ Htin1). auto.
      - split; [ reflexivity | constructor ]. }
    apply tinted_bleach, Htin.
  - apply (inv_applyRandomPathColors this h
             (fun s' => bleachOuter colorKeys <$> outer (document s') =
                        bleachOuter colorKeys <$> outer (document s)) (fun _ => True)).
    + intros s1 ev rc nc H. exact H.
    + intros element k color _ Hk. apply outer_applyColorToElement, Hk.
    + auto.
    + reflexivity.
Qed.

(** ** The colours [applyRandomPathColors] applies *)

Section Colours.
Variables (this : colorizer) (h : host) (P : jsval -> Prop).
Hypothesis sample_ok : forall n, P (sampleColor this (random_at h n)).

Lemma emitted_refl s : emitted P s s.
Proof. split; [ reflexivity | ]. exists []. rewrite app_nil_r. auto. Qed.

Lemma emitted_trans s1 s2 s3 : emitted P s1 s2 -> emitted P s2 s3 -> emitted P s1 s3.
Proof.
  intros [H1 (e1 & E1 & F1)] [H2 (e2 & E2 & F2)]. split; [ congruence | ].
  exists (e1 ++ e2). rewrite E2, E1, app_assoc. split; [ reflexivity | ].
  apply Forall_app; auto.
Qed.

Lemma sample_channel element attribute index s :
  exists s',
    (fillColor <- generateRandomColor this h ;;
     applyColorToElement element attribute fillColor ;;
     emit (ColorApplied element attribute fillColor index)) s = (Return tt, s') /\
    emitted P s s'.
Proof.
  unfold bind at 1. rewrite generateRandomColor_run.
  unfold bind at 1. rewrite applyColorToElement_run.
  eexists. split; [ reflexivity | ]. split; [ reflexivity | ].
  eexists [_]. split; [ reflexivity | ]. constructor; [ apply sample_ok | constructor ].
Qed.

Lemma colorPath_sampled elements count index s :
  inRange elements index = true ->
  exists s',
    colorPath this h true elements count index s = (Return (S count), s') /\
    emitted P s s'.
Proof.
  unfold inRange, colorPath. intros Hr. rewrite Hr.
  apply andb_true_iff in Hr as [H0 Hlt]. apply Z.leb_le in H0. apply Z.ltb_lt in Hlt.
  destruct (lookup_lt_is_Some_2 elements (Z.to_nat index)) as [element ->]; [ lia | ].
  unfold bind at 1, gets at 1. cbv beta iota. unfold bind at 1.
  destruct (shouldProcessElementColor this (document s) element "fill").
  - destruct (sample_channel element "fill" (Some index) s) as (s1 & -> & C1).
    unfold bind at 1.
    destruct (shouldProcessElementColor this (document s) element "stroke").
    + destruct (sample_channel element "stroke" (Some index) s1) as (s2 & -> & C2).
      eexists. split; [ reflexivity | ]. eapply emitted_trans; eauto.
    + eexists. split; [ reflexivity | exact C1 ].
  - unfold ret at 1. unfold bind at 1.
    destruct (shouldProcessElementColor this (document s) element "stroke").
    + destruct (sample_channel element "stroke" (Some index) s) as (s2 & -> & C2).
      eexists. split; [ reflexivity | exact C2 ].
    + eexists. split; [ reflexivity | apply emitted_refl ].
Qed.

Lemma pathLoop_sampled elements indices count s :
  exists s',
    foldM (colorPath this h true elements) indices count s =
      (Return (count + length (filter (fun i => inRange elements i = true) indices)), s') /\
    emitted P s s'.
Proof.
  revert count s. induction indices as [ | index indices IH ]; intros count s; simpl.
  - exists s. rewrite Nat.add_0_r. split; [ reflexivity | apply emitted_refl ].
  - unfold bind at 1. rewrite filter_cons.
    destruct (inRange elements index) eqn:Hr.
    + destruct (colorPath_sampled elements count index s Hr) as (s1 & -> & C1).
      destruct (IH (S count) s1) as (s2 & -> & C2).
      exists s2. rewrite decide_True by reflexivity. simpl.
      split; [ do 2 f_equal; lia | eapply emitted_trans; eauto ].
    + rewrite (colorPath_out_of_range this h true elements count index s Hr).
      destruct (IH count s) as (s2 & -> & C2).
      exists s2. rewrite decide_False by discriminate.
      split; [ reflexivity | exact C2 ].
Qed.

Lemma applyRandomPathColors_sampled options s :
  querySelectorAll paintable (svg (document s)) <> [] ->
  default true (opt_independentColors options) = true ->
  let elements := querySelectorAll paintable (svg (document s)) in
  let indices := targetIndices options elements in
  exists s' evs,
    applyRandomPathColors this h options s = (Return true, s') /\
    events s' =
      events s ++ evs ++
      [Complete (length (filter (fun i => inRange elements i = true) indices))
         (length indices)] /\
    Forall (appliesOnly P) evs.
Proof.
  intros Hne Hind. cbv zeta. unfold targetIndices.
  unfold applyRandomPathColors, try_catch. rewrite Hind.
  unfold bind at 1, gets at 1, id. cbv beta iota.
  destruct (svg (document s)) as [t a ch | ] eqn:Hsvg; [ | destruct Hne; reflexivity ].
  rewrite bool_decide_eq_false_2 by (intros H; apply Hne, nil_length_inv, H).
  destruct (pathLoop_sampled (querySelectorAll paintable (Elem t a ch))
              (default (map Z.of_nat (seq 0 (length (querySelectorAll paintable (Elem t a ch)))))
                 (pathIndices options)) 0 s)
    as (s1 & Hloop & [Hst (evs & Hev & Hall)]).
  unfold id in Hloop. unfold bind at 1. rewrite Hloop. simpl.
  eexists _, evs. split; [ reflexivity | ]. simpl. rewrite Hev, <- app_assoc. auto.
Qed.
End Colours.

Lemma seq_in_range (elements : list path) k n :
  k + n <= length elements ->
  filter (fun i => inRange elements i = true) (map Z.of_nat (seq k n)) =
  map Z.of_nat (seq k n).
Proof.
  revert k. induction n as [ | n IH ]; intros k Hk; [ reflexivity | ].
  simpl. rewrite filter_cons, decide_True.
  - f_equal. apply IH. lia.
  - unfold inRange. apply andb_true_iff. split; [ apply Z.leb_le | apply Z.ltb_lt ]; lia.
Qed.

Lemma sampleColor_palette this r :
  colorPalette (cfg this) <> [] ->
  (Z.of_nat (length (colorPalette (cfg this))) < 2 ^ 32)%Z ->
  isDouble r -> (0 <= r)%Q -> (r < 1)%Q ->
  exists c, c ∈ colorPalette (cfg this) /\
    sampleColor this r =
      Some (match colorValidator this with
            | Some validator => if validator (Some c) then c else "#409eff"
            | None => c
            end).
Proof.
  intros Hne Hlen Hd H0 H1. unfold sampleColor.
  destruct (paletteAt_in_range _ _ Hne Hlen Hd H0 H1) as (c & -> & Hc).
  exists c. split; [ exact Hc | ].
  destruct (colorValidator this) as [validator | ]; [ | reflexivity ].
  destruct (validator (Some c)); reflexivity.
Qed.

(** With independent colours and neither an element filter nor a
    colour validator installed, [applyRandomPathColors] on a target with
    at least one paintable element returns [true] and emits
    [colorApplied] events, then one [complete] event; without
    [pathIndices] it goes through every paintable element, so that
    [processedCount] and [totalCount] are their number.  When the
    palette is not empty and [Math.random] returns doubles of [[0, 1)],
    every colour it applies is an entry of the palette. *)
Theorem applyRandomPathColors_colors this h options s :
  querySelectorAll paintable (svg (document s)) <> [] ->
  default true (opt_independentColors options) = true ->
  elementFilter this = None ->
  colorValidator this = None ->
  colorPalette (cfg this) <> [] ->
  (Z.of_nat (length (colorPalette (cfg this))) < 2 ^ 32)%Z ->
  (forall n, isDouble (random_at h n) /\ (0 <= random_at h n)%Q /\ (random_at h n < 1)%Q) ->
  let elements := querySelectorAll paintable (svg (document s)) in
  let indices := targetIndices options elements in
  exists s' evs,
    applyRandomPathColors this h options s = (Return true, s') /\
    events s' =
      events s ++ evs ++
      [Complete (length (filter (fun i => inRange elements i = true) indices))
         (length indices)] /\
    Forall (appliesOnly (fun color =>
              exists c, c ∈ colorPalette (cfg this) /\ color = Some c)) evs /\
    (pathIndices options = None ->
     length (filter (fun i => inRange elements i = true) indices) = length elements /\
     length indices = length elements).
Proof.
  intros Hne Hind _ Hval Hpal Hlen Hrand. cbv zeta.
  assert (forall n, exists c, c ∈ colorPalette (cfg this) /\
            sampleColor this (random_at h n) = Some c) as Hsample.
  { intros n.
    destruct (sampleColor_palette this _ Hpal Hlen (proj1 (Hrand n))
                (proj1 (proj2 (Hrand n))) (proj2 (proj2 (Hrand n)))) as (c & Hc & E).
    rewrite Hval in E. eauto. }
  destruct (applyRandomPathColors_sampled this h
              (fun color => exists c, c ∈ colorPalette (cfg this) /\ color = Some c)
              Hsample options s Hne Hind) as (s' & evs & Hrun & Hev & Hall).
  exists s', evs. split; [ exact Hrun | ]. split; [ exact Hev | ]. split; [ exact Hall | ].
  intros Hnone. unfold targetIndices. rewrite Hnone. simpl.
  rewrite seq_in_range by lia. rewrite !length_map, !length_seq. auto.
Qed.



(** ** What [resetColors] does when a snapshot is stored *)

Lemma bleachAttrs_restoreValue t k value a :
  paintable_or_g t = true -> k ∈ restoreKeys ->
  bleachAttrs restoreKeys t (restoreValue k value a) = bleachAttrs restoreKeys t a.
Proof.
  intros Ht Hk. destruct value as [v | ]; simpl;
    [ apply bleachAttrs_insert | apply bleachAttrs_delete ]; assumption.
Qed.

Lemma bleachAttrs_restoreMap t o a :
  paintable_or_g t = true ->
  bleachAttrs restoreKeys t (restoreMap o a) = bleachAttrs restoreKeys t a.
Proof.
  intros Ht. unfold restoreMap.
  rewrite !bleachAttrs_restoreValue
    by (try assumption; unfold restoreKeys; rewrite !elem_of_cons; auto).
  reflexivity.
Qed.

(** One callback of the restore loop changes [fill], [stroke] and
    [style] of one element the snapshot selector matches, or nothing. *)
Lemma restoreStep_frame sel t o :
  bleach restoreKeys (restoreStep (querySelectorAll paintable_or_g t) t o) =
    bleach restoreKeys t /\
  querySelectorAll sel (restoreStep (querySelectorAll paintable_or_g t) t o) =
    querySelectorAll sel t.
Proof.
  unfold restoreStep.
  destruct (querySelectorAll paintable_or_g t !! o_index o) as [element | ] eqn:He; [ | auto ].
  destruct (get t element) as [n | ] eqn:Hget; [ | auto ].
  destruct (bool_decide (tagOf n = o_tagName o)); [ | auto ].
  rewrite (update_ext (restoreNode o) (onAttrs (restoreMap o)))
    by (intros m _; apply restoreNode_onAttrs).
  split; [ | apply querySelectorAll_update_attrs ].
  assert (element ∈ querySelectorAll paintable_or_g t) as Hin
    by (eapply list_elem_of_lookup_2, He).
  apply elem_of_querySelectorAll in Hin as (_ & tg & a & ch & Hget' & Hsel).
  eapply bleach_update_attrs; [ exact Hget' | ]. apply bleachAttrs_restoreMap, Hsel.
Qed.

Lemma restore_frame sel recs t :
  bleach restoreKeys (fold_left (restoreStep (querySelectorAll paintable_or_g t)) recs t) =
    bleach restoreKeys t /\
  querySelectorAll sel (fold_left (restoreStep (querySelectorAll paintable_or_g t)) recs t) =
    querySelectorAll sel t.
Proof.
  assert (forall t',
            querySelectorAll paintable_or_g t' = querySelectorAll paintable_or_g t ->
            bleach restoreKeys
              (fold_left (restoreStep (querySelectorAll paintable_or_g t)) recs t') =
              bleach restoreKeys t' /\
            querySelectorAll sel
              (fold_left (restoreStep (querySelectorAll paintable_or_g t)) recs t') =
              querySelectorAll sel t') as H; [ | apply H; reflexivity ].
  induction recs as [ | o recs IH ]; intros t' Hq; [ auto | ].
  simpl. rewrite <- Hq.
  destruct (restoreStep_frame sel t' o) as [Hb Hs].
  destruct (restoreStep_frame paintable_or_g t' o) as [_ Hs'].
  destruct (IH (restoreStep (querySelectorAll paintable_or_g t') t' o)) as [Hb1 Hs1];
    [ congruence | ].
  rewrite Hq in *. split; congruence.
Qed.

(** The paths of a selection are pairwise distinct. *)
Lemma NoDup_children_paths (F : node -> list path) j l :
  Forall (fun c => NoDup (F c)) l -> NoDup (children_paths F j l).
Proof.
  intros H. revert j. induction H as [ | c l Hc Hl IH ]; intros j.
  - rewrite children_paths_nil. constructor.
  - rewrite children_paths_cons. apply NoDup_app. split; [ | split ].
    + apply NoDup_fmap; [ intros x y [= ->]; reflexivity | exact Hc ].
    + intros p Hp Hp'. apply list_elem_of_fmap in Hp as (r & -> & _).
      apply elem_of_children_paths in Hp' as (i & c' & r' & _ & _ & E).
      injection E as E _. lia.
    + apply IH.
Qed.

Lemma NoDup_subtree_paths sel n : NoDup (subtree_paths sel n).
Proof.
  induction n as [ s | t a ch IH ] using node_ind'; simpl; [ constructor | ].
  apply NoDup_app. split; [ | split ].
  - destruct (sel t); [ apply NoDup_singleton | constructor ].
  - intros p Hp Hp'. destruct (sel t); [ | inversion Hp ].
    apply list_elem_of_singleton in Hp as ->.
    apply elem_of_children_paths in Hp' as (i & c & r & _ & _ & E). discriminate.
  - apply NoDup_children_paths, IH.
Qed.

Lemma NoDup_querySelectorAll sel n : NoDup (querySelectorAll sel n).
Proof.
  destruct n as [t a ch | s]; simpl; [ | constructor ].
  apply NoDup_children_paths, Forall_forall. intros c _. apply NoDup_subtree_paths.
Qed.

(** A record restored after another one overwrites what that one
    restored. *)
Lemma restoreValue_absorbs k v1 v2 a :
  restoreValue k v2 (restoreValue k v1 a) = restoreValue k v2 a.
Proof.
  destruct v1, v2; simpl.
  - apply insert_insert_eq.
  - apply delete_insert_eq.
  - apply insert_delete_eq.
  - apply delete_delete_eq.
Qed.

Lemma restoreMap_absorbs o1 o2 a : restoreMap o2 (restoreMap o1 a) = restoreMap o2 a.
Proof.
  unfold restoreMap.
  rewrite (restoreValue_comm "fill" (o_fill o2) "style") by discriminate.
  rewrite (restoreValue_comm "fill" (o_fill o2) "stroke") by discriminate.
  rewrite restoreValue_absorbs.
  rewrite (restoreValue_comm "stroke" (o_stroke o2) "style") by discriminate.
  rewrite restoreValue_absorbs, restoreValue_absorbs. reflexivity.
Qed.

(** One callback of the restore loop, seen from the element at position
    [i] of the selection: its attributes are restored when the record
    has that index and the tag of the element, and are left as they are
    otherwise. *)
Lemma restoreStep_attrs elements t o i p tg a ch :
  NoDup elements -> elements !! i = Some p -> get t p = Some (Elem tg a ch) ->
  exists ch',
    get (restoreStep elements t o) p =
      Some (Elem tg (if matchesRecord i (Some tg) o then restoreMap o a else a) ch').
Proof.
  intros Hnd Hi Hget. unfold restoreStep, matchesRecord.
  destruct (decide (o_index o = i)) as [E | E].
  - rewrite E, Hi, Hget. simpl tagOf. rewrite (bool_decide_eq_true_2 (i = i)) by reflexivity.
    simpl. destruct (bool_decide (Some tg = o_tagName o)); [ | eauto ].
    rewrite get_update_eq, Hget. simpl. rewrite restoreNode_onAttrs. eauto.
  - rewrite (bool_decide_eq_false_2 _ E). simpl.
    destruct (elements !! o_index o) as [p' | ] eqn:Hp'; [ | eauto ].
    destruct (get t p') as [n' | ]; [ | eauto ].
    destruct (bool_decide (tagOf n' = o_tagName o)); [ | eauto ].
    assert (p' <> p) as Hne.
    { intros ->. apply E. eapply NoDup_lookup; eauto. }
    rewrite (update_ext (restoreNode o) (onAttrs (restoreMap o)))
      by (intros m _; apply restoreNode_onAttrs).
    pose proof (get_update_tag (restoreMap o) p' t p) as Htag.
    pose proof (get_update_attrs (restoreMap o) p' t p Hne) as Hattrs.
    rewrite Hget in Htag, Hattrs.
    destruct (get (update (onAttrs (restoreMap o)) p' t) p) as [[tg' a' ch' | ] | ];
      simpl in Htag, Hattrs; try discriminate.
    injection Htag as ->. injection Hattrs as ->. eauto.
Qed.

Lemma restore_attrs elements recs t i p tg a ch :
  NoDup elements -> elements !! i = Some p -> get t p = Some (Elem tg a ch) ->
  exists ch',
    get (fold_left (restoreStep elements) recs t) p =
      Some (Elem tg
              (match last (filter (fun o => matchesRecord i (Some tg) o = true) recs) with
               | Some o => restoreMap o a
               | None => a
               end) ch').
Proof.
  intros Hnd Hi. revert t a ch. induction recs as [ | o recs IH ]; intros t a ch Hget.
  - simpl. eauto.
  - simpl fold_left.
    destruct (restoreStep_attrs elements t o i p tg a ch Hnd Hi Hget) as (ch1 & H1).
    destruct (IH _ _ _ H1) as (ch2 & H2). exists ch2. rewrite H2. do 2 f_equal.
    rewrite filter_cons. destruct (matchesRecord i (Some tg) o).
    + rewrite decide_True by reflexivity. rewrite last_cons.
      destruct (last _); [ apply restoreMap_absorbs | reflexivity ].
    + rewrite decide_False by discriminate. reflexivity.
Qed.

(** When a snapshot is stored under the non-empty id of the target,
    [resetColors] returns [true], whatever became of the target since
    the snapshot.  The restore loop changes attributes only, [fill],
    [stroke] and [style] of elements the snapshot selector matches: the
    element at position [i] of the current selection ends with the
    values of the last record that has index [i] and the tag of the
    element, and an element for which no record has its index and its
    tag keeps its attributes, so a record whose index or tag matches
    no element is skipped.  After the loop the first [defs] element is
    removed and the recorded one, if any, becomes the first child.  The
    call emits one [reset] event and leaves the store and the ancestors
    as they are. *)
Theorem resetColors_outcome s o :
  idOf (svg (document s)) <> "" ->
  svgStates s !! idOf (svg (document s)) = Some o ->
  exists s' restored,
    resetColors s = (Return true, s') /\
    svg (document s') = putDefs (os_defs o) (withoutDefs restored) /\
    bleach restoreKeys restored = bleach restoreKeys (svg (document s)) /\
    (forall i element n,
       querySelectorAll paintable_or_g (svg (document s)) !! i = Some element ->
       get (svg (document s)) element = Some n ->
       attrsOf <$> get restored element =
         Some (match recordFor (os_elements o) i n with
               | Some original => restoreMap original (attrsOf n)
               | None => attrsOf n
               end)) /\
    outer (document s') = outer (document s) /\
    svgStates s' = svgStates s /\
    events s' = events s ++ [Reset (idOf (svg (document s)))].
Proof.
  intros Hid Hsnap.
  destruct (resetColors_run s o Hid Hsnap) as (Hr & Ht & Hout & Hst & Hev).
  destruct (resetColors s) as [r s'] eqn:Hrun. simpl in *. subst r.
  exists s'. eexists. split; [ reflexivity | ]. split; [ exact Ht | ].
  split; [ apply (restore_frame is_defs) | ].
  split; [ | auto ].
  intros i element n Hi Hget.
  assert (exists tg a ch, n = Elem tg a ch) as (tg & a & ch & ->).
  { apply list_elem_of_lookup_2, elem_of_querySelectorAll in Hi
      as (_ & tg & a & ch & Hn & _).
    rewrite Hn in Hget. injection Hget as <-. eauto. }
  destruct (restore_attrs _ (os_elements o) _ i element tg a ch
              (NoDup_querySelectorAll _ _) Hi Hget) as (ch' & ->).
  reflexivity.
Qed.

(** [resetColors_outcome] on a target whose content was replaced after
    the snapshot: the record of index 0 was taken from a [g], the
    element now at position 0 is a [rect], and it keeps its attributes. *)
Lemma resetColors_outcome_witness :
  let s := (applyRandomColors gradientColorizer steadyHost (stateOf [] groupSvg)).2 in
  let s1 := set_svg (Elem "svg" (attrsFrom [("id", "grp")])
                       [ Elem "rect" (attrsFrom [("fill", "blue"); ("rx", "2")]) [] ]) s in
  (exists s' restored,
     resetColors s1 = (Return true, s') /\
     svg (document s') = putDefs None (withoutDefs restored) /\
     attrsOf <$> get restored [0] = Some (attrsFrom [("fill", "blue"); ("rx", "2")]) /\
     outer (document s') = outer (document s1) /\
     svgStates s' = svgStates s1 /\
     events s' = events s1 ++ [Reset "grp"]) /\
  elementRecords (svg (document (resetColors s1).2)) =
    [ (Some "rect", Some "blue", None, None) ].
Proof.
  cbv zeta. split; [ | vm_compute; reflexivity ].
  destruct (resetColors_outcome
              (set_svg (Elem "svg" (attrsFrom [("id", "grp")])
                          [ Elem "rect" (attrsFrom [("fill", "blue"); ("rx", "2")]) [] ])
                 (applyRandomColors gradientColorizer steadyHost (stateOf [] groupSvg)).2)
              (snapshotOf (mkDom [] groupSvg)))
    as (s' & restored & Hrun & Htree & _ & Hattrs & Hout & Hst & Hev).
  - vm_compute. discriminate.
  - vm_compute. reflexivity.
  - exists s', restored. split; [ exact Hrun | ]. split; [ exact Htree | ].
    split; [ | auto ].
    apply (Hattrs 0 [0] (Elem "rect" (attrsFrom [("fill", "blue"); ("rx", "2")]) []));
      reflexivity.
Defined.

(** ** Gradients and their references *)

Section Triples.
Context {A B : Type}.

Lemma triple_bind (Pre : state -> Prop) (m : M A) (Mid : A -> state -> Prop)
    (k : A -> M B) (Post : B -> state -> Prop) (Exc : state -> Prop) :
  triple Pre m Mid Exc -> (forall a, triple (Mid a) (k a) Post Exc) ->
  triple Pre (bind m k) Post Exc.
Proof.
  intros Hm Hk s Hs. unfold bind. specialize (Hm s Hs).
  destruct (m s) as [[a | e] s1]; [ apply (Hk a s1 Hm) | exact Hm ].
Qed.

Lemma triple_ret (Pre : state -> Prop) (a : A) (Post : A -> state -> Prop) Exc :
  (forall s, Pre s -> Post a s) -> triple Pre (ret a) Post Exc.
Proof. intros H s Hs. apply H, Hs. Qed.

Lemma triple_throw (Pre : state -> Prop) e (Post : A -> state -> Prop) (Exc : state -> Prop) :
  (forall s, Pre s -> Exc s) -> triple Pre (@throw A e) Post Exc.
Proof. intros H s Hs. apply H, Hs. Qed.

Lemma triple_preserves (I : state -> Prop) (m : M A) :
  triple I m (fun _ => I) I -> preserves I m.
Proof.
  intros H s Hs. specialize (H s Hs). destruct (m s) as [[a | e] s1]; exact H.
Qed.
End Triples.

Lemma gradient_tags gradientId color1 color2 r n :
  get (gradientElement gradientId color1 color2) r = Some n ->
  tagOf n = Some "linearGradient" \/ tagOf n = Some "stop".
Proof.
  destruct r as [ | i r ]; simpl.
  - intros [= <-]. auto.
  - destruct i as [ | [ | i ] ]; simpl; try discriminate;
      (destruct r as [ | j r ]; simpl; [ intros [= <-]; auto | destruct j; discriminate ]).
Qed.

(** A write of attributes on an element leaves alone a subtree that
    holds no element of that tag. *)
Lemma get_update_attrs_other phi p q t tp ap chp g :
  get t p = Some (Elem tp ap chp) ->
  get t q = Some g ->
  (forall r n, get g r = Some n -> tagOf n <> Some tp) ->
  get (update (onAttrs phi) p t) q = Some g.
Proof.
  revert q t. induction p as [ | i p IH ]; intros q t Hp Hq Hg.
  - simpl in Hp. injection Hp as ->. destruct q as [ | j q ]; [ | exact Hq ].
    simpl in Hq. injection Hq as <-. destruct (Hg [] _ eq_refl). reflexivity.
  - destruct t as [tt ta tch | ]; [ | discriminate ].
    destruct q as [ | j q ].
    + simpl in Hq. injection Hq as <-. destruct (Hg (i :: p) _ Hp). reflexivity.
    + simpl in *. destruct (decide (j = i)) as [-> | Hne].
      * rewrite list_lookup_alter_eq. destruct (tch !! i) as [c | ]; [ | discriminate ].
        simpl. apply IH; assumption.
      * rewrite list_lookup_alter_ne by congruence. exact Hq.
Qed.

Lemma get_update_append_old g dp t i c :
  get t (dp ++ [i]) = Some c -> get (update (appendTo g) dp t) (dp ++ [i]) = Some c.
Proof.
  rewrite !get_app, get_update_eq. destruct (get t dp) as [m | ]; [ | discriminate ].
  simpl. intros H. apply (appendTo_extends g m), H.
Qed.

Lemma get_update_append_new g dp t td ad cd :
  get t dp = Some (Elem td ad cd) ->
  get (update (appendTo g) dp t) (dp ++ [length cd]) = Some g.
Proof.
  intros H. rewrite get_app, get_update_eq, H. simpl.
  rewrite lookup_app_r by lia. rewrite Nat.sub_diag. reflexivity.
Qed.

Lemma colorOk_weaken (P Q : jsval -> Prop) e :
  (forall c, P c -> Q c) -> colorOk P e -> colorOk Q e.
Proof. intros H. destruct e; simpl; auto. Qed.

Section Gradients.
Variables (this : colorizer) (h : host) (dp : path) (t0 : node) (ev0 : list event).
Hypothesis root_not_g : tagOf t0 <> Some "g".
Hypothesis dp_inner : dp <> [].
Hypothesis dp_element : exists td ad cd, get t0 dp = Some (Elem td ad cd).

Lemma resolvesAt_attr t p k v c :
  recolored dp t0 t -> p ∈ querySelectorAll paintable_or_g t0 ->
  resolvesAt dp t c -> resolvesAt dp (update (setAttr k v) p t) c.
Proof.
  intros Hrec Hp (gid & c1 & c2 & i & Hc & Hget).
  exists gid, c1, c2, i. split; [ exact Hc | ].
  apply elem_of_querySelectorAll in Hp as (_ & tg & a & ch & Hp & Hsel).
  destruct (recolored_get dp t0 t p _ Hrec Hp) as ([tg' a' ch' | ] & Hp' & Htag);
    [ | discriminate ].
  injection Htag as ->.
  apply (get_update_attrs_other _ p _ t tg a' ch'); [ exact Hp' | exact Hget | ].
  intros r n Hn Ht. apply gradient_tags in Hn as [Hn | Hn];
    rewrite Hn in Ht; injection Ht as <-; discriminate.
Qed.

Lemma resolvesAt_append t g c :
  resolvesAt dp t c -> resolvesAt dp (update (appendTo g) dp t) c.
Proof.
  intros (gid & c1 & c2 & i & Hc & Hget). exists gid, c1, c2, i.
  split; [ exact Hc | apply get_update_append_old, Hget ].
Qed.

Lemma resolvesAt_new t gradientId color1 color2 :
  recolored dp t0 t ->
  resolvesAt dp (update (appendTo (gradientElement gradientId color1 color2)) dp t)
    (Some ("url(#" +:+ gradientId +:+ ")")).
Proof.
  intros Hrec. destruct dp_element as (td & ad & cd & Hd).
  destruct (recolored_get dp t0 t dp _ Hrec Hd) as ([td' ad' cd' | ] & Hd' & _).
  - exists gradientId, color1, color2, (length cd'). split; [ reflexivity | ].
    eapply get_update_append_new, Hd'.
  - exists gradientId, color1, color2, 0. split; [ reflexivity | ].
    exfalso. destruct (recolored_get dp t0 t dp _ Hrec Hd) as (n & Hn & Ht).
    rewrite Hd' in Hn. injection Hn as <-. discriminate.
Qed.

Lemma gradient_inv_frame s ev rc nc :
  events s = ev ->
  gradient_inv this h dp t0 ev0 s ->
  gradient_inv this h dp t0 ev0 (mkState (svgStates s) (document s) ev rc nc).
Proof. intros <- H. exact H. Qed.

Lemma grad_random :
  triple (gradient_inv this h dp t0 ev0) (Math_random h)
    (fun _ => gradient_inv this h dp t0 ev0) (gradient_inv this h dp t0 ev0).
Proof. intros s H. exact H. Qed.

Lemma grad_sample :
  triple (gradient_inv this h dp t0 ev0) (generateRandomColor this h)
    (fun c s => gradient_inv this h dp t0 ev0 s /\ okAt this h dp (svg (document s)) c)
    (gradient_inv this h dp t0 ev0).
Proof.
  intros s H. rewrite generateRandomColor_run. split; [ exact H | ].
  left. left. eexists. reflexivity.
Qed.

Lemma grad_outerFillColor :
  independentColors (cfg this) = false ->
  triple (gradient_inv this h dp t0 ev0)
    (fillColor <- outerFillColor h ;;
     if truthy fillColor then ret fillColor else generateRandomColor this h)
    (fun c s => gradient_inv this h dp t0 ev0 s /\ okAt this h dp (svg (document s)) c)
    (gradient_inv this h dp t0 ev0).
Proof.
  intros Hind s H. unfold bind at 1, outerFillColor.
  destruct (fillColorBinding h) as [value | ] eqn:Hb; [ | exact H ].
  unfold ret at 1. destruct (truthy value) eqn:Hv; [ | apply grad_sample, H ].
  split; [ exact H | ]. left. right. repeat split; assumption.
Qed.

Lemma grad_gradient id :
  triple (gradient_inv this h dp t0 ev0)
    (gradientData <- generateRandomGradient this h id ;;
     modify (fun s => set_svg (update (appendTo gradientData.1) dp (svg (document s))) s) ;;
     ret (Some gradientData.2))
    (fun c s => gradient_inv this h dp t0 ev0 s /\ okAt this h dp (svg (document s)) c)
    (gradient_inv this h dp t0 ev0).
Proof.
  intros s [Hrec (evs & Hev & Hall)]. unfold bind at 1. rewrite generateRandomGradient_run.
  simpl. split; [ split | ].
  - apply recolored_gradient, Hrec.
  - exists evs. split; [ exact Hev | ].
    eapply Forall_impl; [ exact Hall | ]. intros e. apply colorOk_weaken.
    intros c [Hc | Hc]; [ left; exact Hc | right; apply resolvesAt_append, Hc ].
  - right. apply resolvesAt_new, Hrec.
Qed.

Lemma grad_applyColorToElement element k c :
  element ∈ querySelectorAll paintable t0 ->
  k = "fill" \/ k = "stroke" ->
  triple (fun s => gradient_inv this h dp t0 ev0 s /\ okAt this h dp (svg (document s)) c)
    (applyColorToElement element k c)
    (fun _ s => gradient_inv this h dp t0 ev0 s /\ okAt this h dp (svg (document s)) c)
    (gradient_inv this h dp t0 ev0).
Proof.
  intros Hel Hk s [[Hrec (evs & Hev & Hall)] Hc]. rewrite applyColorToElement_run.
  destruct (writeTarget (document s) element k) as [p | i] eqn:Ht; simpl.
  2:{ split; [ split; [ exact Hrec | exists evs; auto ] | exact Hc ]. }
  assert (p ∈ querySelectorAll paintable_or_g t0) as Hp.
  { rewrite <- (recolored_querySelectorAll dp t0 paintable_or_g _ eq_refl eq_refl Hrec).
    eapply writeTarget_inner; [ | | exact Ht ].
    - destruct (recolored_root dp t0 _ dp_inner Hrec) as [-> _]. exact root_not_g.
    - rewrite (recolored_querySelectorAll dp t0 paintable _ eq_refl eq_refl Hrec). exact Hel. }
  split; [ split | ].
  - apply recolored_attr; assumption.
  - exists evs. split; [ exact Hev | ].
    eapply Forall_impl; [ exact Hall | ]. intros e. apply colorOk_weaken.
    intros c' [Hc' | Hc']; [ left; exact Hc' | right; apply resolvesAt_attr; assumption ].
  - destruct Hc as [Hc | Hc]; [ left; exact Hc | right; apply resolvesAt_attr; assumption ].
Qed.

Lemma grad_emit_color element k c index :
  triple (fun s => gradient_inv this h dp t0 ev0 s /\ okAt this h dp (svg (document s)) c)
    (emit (ColorApplied element k c index))
    (fun _ => gradient_inv this h dp t0 ev0) (gradient_inv this h dp t0 ev0).
Proof.
  intros s [[Hrec (evs & Hev & Hall)] Hc]. simpl. split; [ exact Hrec | ].
  exists (evs ++ [ColorApplied element k c index]). simpl.
  split; [ rewrite Hev, app_assoc; reflexivity | ].
  apply Forall_app. split; [ exact Hall | ]. constructor; [ exact Hc | constructor ].
Qed.

Lemma grad_emit e :
  (forall P, colorOk P e) -> preserves (gradient_inv this h dp t0 ev0) (emit e).
Proof.
  intros He s [Hrec (evs & Hev & Hall)]. simpl. split; [ exact Hrec | ].
  exists (evs ++ [e]). simpl. split; [ rewrite Hev, app_assoc; reflexivity | ].
  apply Forall_app. split; [ exact Hall | ]. constructor; [ apply He | constructor ].
Qed.

Lemma grad_colorElement svgId index element :
  element ∈ querySelectorAll paintable t0 ->
  preserves (gradient_inv this h dp t0 ev0) (colorElement this h svgId dp index element).
Proof.
  intros Hel. apply triple_preserves. unfold colorElement.
  eapply triple_bind with (Mid := fun _ => gradient_inv this h dp t0 ev0);
    [ intros s H; exact H | intros d; cbv beta ].
  eapply triple_bind with (Mid := fun _ => gradient_inv this h dp t0 ev0).
  - destruct (shouldProcessElementColor this d element "fill");
      [ | apply triple_ret; auto ].
    eapply triple_bind; [ apply grad_random | intros r; cbv beta zeta ].
    eapply triple_bind.
    + destruct (negb _); [ apply grad_gradient | apply grad_sample ].
    + intros fillColor. eapply triple_bind; [ apply grad_applyColorToElement; auto | ].
      intros u. apply grad_emit_color.
  - intros _.
    destruct (shouldProcessElementColor this d element "stroke");
      [ | apply triple_ret; auto ].
    eapply triple_bind.
    + destruct (independentColors (cfg this)) eqn:Hind;
        [ apply grad_sample | apply grad_outerFillColor, Hind ].
    + intros strokeColor. eapply triple_bind; [ apply grad_applyColorToElement; auto | ].
      intros u. apply grad_emit_color.
Qed.

Lemma grad_elementLoop svgId (l : list (nat * path)) count :
  (forall x, x ∈ l -> x.2 ∈ querySelectorAll paintable t0) ->
  preserves (gradient_inv this h dp t0 ev0) (elementLoop this h svgId dp l count).
Proof.
  intros Hl. apply preserves_foldM. intros b [index element] Hx.
  apply preserves_try_catch.
  - apply preserves_bind; [ apply grad_colorElement, (Hl _ Hx) | intros _; apply preserves_ret ].
  - intros e. apply preserves_bind; [ | intros _; apply preserves_ret ].
    apply grad_emit. intros P. exact I.
Qed.
End Gradients.

Lemma gradient_inv_resolves this h dp t0 ev0 s :
  dp <> [] ->
  querySelector is_defs t0 = Some dp ->
  gradient_inv this h dp t0 ev0 s ->
  exists evs,
    events s = ev0 ++ evs /\
    Forall (colorOk (fun c => (sampled this h c \/ borrowed this h c) \/ resolves (svg (document s)) c)) evs.
Proof.
  intros Hdp Hd [Hrec (evs & Hev & Hall)]. exists evs. split; [ exact Hev | ].
  eapply Forall_impl; [ exact Hall | ]. intros e. apply colorOk_weaken.
  intros c [Hc | Hc]; [ left; exact Hc | right ]. exists dp. split; [ | exact Hc ].
  unfold querySelector.
  rewrite (recolored_querySelectorAll dp t0 is_defs _ eq_refl eq_refl Hrec). exact Hd.
Qed.

Lemma colorPass_resolves this h svgId s t a ch :
  svg (document s) = Elem t a ch ->
  toLowerCase t = "svg" ->
  exists evs,
    events (colorPass this h svgId s).2 = events s ++ evs /\
    Forall (colorOk (fun c =>
              (sampled this h c \/ borrowed this h c) \/
              resolves (svg (document (colorPass this h svgId s).2)) c)) evs.
Proof.
  intros Hsvg Htag. unfold colorPass. cbv zeta.
  destruct (bool_decide _); [ exists []; rewrite app_nil_r; auto | ].
  unfold passStart.
  destruct (querySelector is_defs (svg (document s))) as [dp | ] eqn:Hd.
  - destruct (querySelector_valid _ _ _ Hd) as (Hdp & tg & ad & cd & Hget & _).
    apply (gradient_inv_resolves this h dp (svg (document s)) (events s) _ Hdp Hd).
    eapply preserves_bind.
    + apply (grad_elementLoop this h dp (svg (document s)) (events s)).
      * rewrite Hsvg. simpl. intros [= ->]. discriminate.
      * exact Hdp.
      * eauto.
      * apply indexed_elem_of.
    + intros n. apply preserves_bind; [ | intros _; apply preserves_ret ].
      apply grad_emit. intros P. exact I.
    + split; [ constructor | ]. exists []. rewrite app_nil_r. auto.
  - set (t0c := insertFirst newDefs (svg (document s))).
    assert (querySelector is_defs t0c = Some [0]) as Hd0.
    { unfold t0c. rewrite Hsvg. apply querySelector_defs_first. reflexivity. }
    apply (gradient_inv_resolves this h [0] t0c (events s) _ ltac:(discriminate) Hd0).
    eapply preserves_bind.
    + apply (grad_elementLoop this h [0] t0c (events s)).
      * unfold t0c. rewrite Hsvg. simpl. intros [= ->]. discriminate.
      * discriminate.
      * unfold t0c. rewrite Hsvg. simpl. eauto.
      * intros x Hx. apply indexed_elem_of in Hx. unfold t0c.
        rewrite querySelectorAll_insertFirst by reflexivity. exact Hx.
    + intros n. apply preserves_bind; [ | intros _; apply preserves_ret ].
      apply grad_emit. intros P. exact I.
    + split; [ constructor | ]. exists []. rewrite app_nil_r. auto.
Qed.

(** Every [url] token [applyRandomColors] makes refers to a
    gradient that is in the document when the call returns: each
    [colorApplied] event the call emits carries a value
    [generateRandomColor] returned, or the [url] token of a
    [linearGradient] element that is a child of the first [defs] element
    of the target, or, applied to [stroke] by an instance without
    independent colours, the truthy value that the name [fillColor] is
    bound to around the class. *)
Theorem gradients_resolve this h s :
  let r := applyRandomColors this h s in
  exists evs,
    events r.2 = events s ++ evs /\
    Forall (colorOk (fun c => (sampled this h c \/ borrowed this h c) \/ resolves (svg (document r.2)) c)) evs.
Proof.
  cbv zeta. destruct (svg (document s)) as [t a ch | data] eqn:Hsvg.
  2:{ exists [ErrorEvent TypeError [] None].
      unfold applyRandomColors, try_catch, bind at 1, gets at 1, id. cbv beta iota.
      rewrite Hsvg. simpl. split; [ reflexivity | repeat constructor ]. }
  destruct (decide (toLowerCase t = "svg")) as [Htag | Htag].
  2:{ exists [ErrorEvent InvalidSvgElement [] None].
      unfold applyRandomColors, try_catch, bind at 1, gets at 1, id. cbv beta iota.
      rewrite Hsvg. rewrite bool_decide_eq_false_2 by exact Htag. simpl.
      split; [ reflexivity | repeat constructor ]. }
  rewrite (applyRandomColors_colorPass this h s t a ch Hsvg Htag).
  destruct (afterSave_spec h s) as (Hdoc & Hev & _).
  destruct (colorPass_resolves this h (svgIdOf h s) (afterSave h s) t a ch)
    as (evs & Hevs & Hall); [ rewrite Hdoc; exact Hsvg | exact Htag | ].
  exists evs. split; [ rewrite Hevs, Hev; reflexivity | exact Hall ].
Qed.

Example gradients_resolve_example :
  let r := applyRandomColors gradientColorizer tickingHost (stateOf [] lineIconSvg) in
  events r.2 =
    [ ColorApplied [1] "stroke" (Some "#10ac84") None;
      ColorApplied [2] "fill" (Some "url(#gradient-line-fill-1-1700000000000)") None;
      Complete 2 2 ] /\
  resolves (svg (document r.2)) (Some "url(#gradient-line-fill-1-1700000000000)").
Proof.
  cbv zeta. split; [ vm_compute; reflexivity | ].
  exists [0]. split; [ vm_compute; reflexivity | ].
  exists "gradient-line-fill-1-1700000000000", (Some "#10ac84"), (Some "#10ac84"), 0.
  split; vm_compute; reflexivity.
Qed.

(** A page that binds the name [fillColor] to the string
    [url(#nowhere)]: an instance without independent colours applies it
    to the stroke, and no gradient of that name is in the document. *)
Example borrowed_token_example :
  let h := mkHost (fun _ => (1 # 2)%Q) (fun _ => 1700000000000%N) (fun _ => "k3j9x0q2a")
             (Some (Some "url(#nowhere)")) in
  let r := applyRandomColors dependentColorizer h (stateOf [] outlinedSvg) in
  events r.2 =
    [ ColorApplied [1] "fill" (Some "#10ac84") None;
      ColorApplied [1] "stroke" (Some "url(#nowhere)") None;
      Complete 1 1 ] /\
  borrowed dependentColorizer h (Some "url(#nowhere)") /\
  ~ resolves (svg (document r.2)) (Some "url(#nowhere)").
Proof.
  cbv zeta. split; [ vm_compute; reflexivity | ].
  split; [ repeat split | ].
  intros (dp & Hdp & gradientId & color1 & color2 & i & _ & Hget).
  vm_compute in Hdp. injection Hdp as <-.
  vm_compute in Hget. destruct i; discriminate.
Qed.

(** ** Statistics and inheritance *)

(** [getStats] reports, for each event name the instance knows,
    the number of registrations, and changes nothing.  After [on] the
    number under the name is one more than the number of listeners that
    were registered; after [on] and [off] of a listener that was not
    registered it is that number again: a name is reported with 0 once
    it is known, never dropped. *)
Theorem getStats_listeners this m eventName l s :
  getStats this m s =
    (Return (mkStats "1.0.0" (size (svgStates s)) (length <$> m) (cfg this)), s) /\
  st_eventListeners <$> returned (getStats this (Listeners.on eventName l m) s) =
    Some (<[eventName := S (length (default [] (m !! eventName)))]> (length <$> m)) /\
  (l ∉ default [] (m !! eventName) ->
   st_eventListeners <$>
     returned (getStats this (Listeners.off eventName l (Listeners.on eventName l m)) s) =
     Some (<[eventName := length (default [] (m !! eventName))]> (length <$> m))).
Proof.
  split; [ reflexivity | ]. split.
  - unfold getStats, returned, gets. simpl. rewrite on_insert, fmap_insert, length_app. simpl.
    rewrite Nat.add_1_r. reflexivity.
  - intros Hl. unfold getStats, returned, gets. simpl. rewrite on_insert.
    rewrite (off_first eventName l (default [] (m !! eventName)) []).
    + rewrite app_nil_r, insert_insert_eq, fmap_insert. reflexivity.
    + apply lookup_insert_eq.
    + exact Hl.
Qed.

Lemma getStats_listeners_witness :
  st_eventListeners <$>
    returned (getStats defaultColorizer (Listeners.off "reset" 7 (Listeners.on "reset" 7 ∅))
                (stateOf [] iconSvg)) = Some {[ "reset" := 0 ]}.
Proof.
  rewrite (proj2 (proj2 (getStats_listeners defaultColorizer ∅ "reset" 7 (stateOf [] iconSvg)))).
  - reflexivity.
  - rewrite lookup_empty. apply not_elem_of_nil.
Defined.

Lemma checkInheritance_closest d element k :
  checkInheritance d element = false -> k = "fill" \/ k = "stroke" ->
  closest k d element = None.
Proof.
  unfold checkInheritance. intros H Hk.
  destruct (closest "fill" d element) as [g | ] eqn:Hf.
  { apply bool_decide_eq_false in H. destruct H. eauto. }
  destruct (closest "stroke" d element) as [g | ] eqn:Hs.
  { apply bool_decide_eq_false in H. destruct H. eauto. }
  destruct Hk as [-> | ->]; assumption.
Qed.

(** An element for which [checkInheritance] returns [false] is
    classified and written on its own attributes alone: on either
    channel it has a colour exactly when its own attribute is a colour,
    and [applyColorToElement] writes the attribute of the element
    itself. *)
Theorem checkInheritance_false d element k color s :
  document s = d ->
  checkInheritance d element = false ->
  k = "fill" \/ k = "stroke" ->
  hasColor d element k = colored (getAttribute d (Inner element) k) /\
  applyColorToElement element k color s =
    (Return tt, set_document (setAttribute (Inner element) k (toStr color) d) s).
Proof.
  intros <- Hno Hk. pose proof (checkInheritance_closest _ _ _ Hno Hk) as Hc. split.
  - unfold hasColor, inheritsColor. rewrite Hc. apply orb_false_r.
  - rewrite applyColorToElement_run. unfold writeTarget. rewrite Hc.
    destruct (uncolored _); reflexivity.
Qed.

Lemma checkInheritance_false_witness :
  let s := stateOf [] iconSvg in
  checkInheritance (document s) [3] = false /\
  hasColor (document s) [3] "stroke" = false /\
  elementRecords (svg (document (applyColorToElement [3] "stroke" (Some "#10ac84") s).2)) =
    [ (Some "g", None, Some "#000", None);
      (Some "circle", None, None, None);
      (Some "path", Some "none", None, None);
      (Some "rect", Some "red", Some "#10ac84", Some "opacity:1") ].
Proof.
  cbv zeta. split; [ reflexivity | ].
  destruct (checkInheritance_false (document (stateOf [] iconSvg)) [3] "stroke"
              (Some "#10ac84") (stateOf [] iconSvg) eq_refl eq_refl (or_intror eq_refl))
    as [Hc Hrun].
  split; [ rewrite Hc; reflexivity | ]. rewrite Hrun. vm_compute. reflexivity.
Defined.

(** ** Colours that are not independent *)

Lemma fill_key : "fill" ∈ fillKeys.
Proof. unfold fillKeys. apply list_elem_of_here. Qed.

Section FillOnly.
Variables (this : colorizer) (h : host) (view : node -> node).
Variables (B : node) (Bo : list (string * gmap string string)).
Variables (els ds : list path) (ev0 : list event).
Hypothesis view_bleach : forall t, bleach fillKeys (view t) = view (bleach fillKeys t).
Hypothesis unbound : fillColorBinding h = None.

Lemma fill_frame s ev rc nc :
  (exists evs, ev = ev0 ++ evs /\ Forall fillOnly evs) ->
  fill_inv view B Bo els ds ev0 s ->
  fill_inv view B Bo els ds ev0 (mkState (svgStates s) (document s) ev rc nc).
Proof. intros Hev (H1 & H2 & H3 & H4 & _). repeat split; assumption. Qed.

Lemma fill_counters s rc nc :
  fill_inv view B Bo els ds ev0 s ->
  fill_inv view B Bo els ds ev0 (mkState (svgStates s) (document s) (events s) rc nc).
Proof. intros H. apply fill_frame; [ apply H | exact H ]. Qed.

Lemma fill_emit e :
  fillOnly e -> preserves (fill_inv view B Bo els ds ev0) (emit e).
Proof.
  intros He s H. apply fill_frame; [ | exact H ].
  destruct H as (_ & _ & _ & _ & evs & Hev & Hall). exists (evs ++ [e]).
  split; [ rewrite Hev, app_assoc; reflexivity | ].
  apply Forall_app. split; [ exact Hall | constructor; [ exact He | constructor ] ].
Qed.

Lemma fill_sample :
  preserves (fill_inv view B Bo els ds ev0) (generateRandomColor this h).
Proof. intros s H. rewrite generateRandomColor_run. apply fill_counters, H. Qed.

Lemma fill_write element color :
  element ∈ els ->
  preserves (fill_inv view B Bo els ds ev0) (applyColorToElement element "fill" color).
Proof.
  intros Hel s (H1 & H2 & H3 & H4 & H5). rewrite applyColorToElement_run.
  destruct (writeTarget (document s) element "fill") as [p | i] eqn:Ht.
  - assert (p ∈ subtree_paths paintable_or_g (svg (document s))) as Hp.
    { eapply writeTarget_subtree; [ | exact Ht ]. rewrite H3. exact Hel. }
    apply elem_of_subtree_paths in Hp as (tg & a & ch & Hget & Hsel).
    split; [ | split; [ exact H2 | split; [ | split; [ | exact H5 ] ] ] ]; simpl.
    + rewrite view_bleach. unfold setAttr.
      rewrite (bleach_update_attrs fillKeys _ p _ tg a ch Hget).
      * rewrite <- view_bleach. exact H1.
      * apply bleachAttrs_insert; [ exact Hsel | apply fill_key ].
    + unfold setAttr. rewrite querySelectorAll_update_attrs. exact H3.
    + unfold setAttr. rewrite querySelectorAll_update_attrs. exact H4.
  - split; [ exact H1 | split; [ | split; [ exact H3 | split; [ exact H4 | exact H5 ] ] ] ].
    rewrite <- H2. apply (outer_setAttribute fillKeys _ element); [ apply fill_key | exact Ht ].
Qed.

(** One channel that is the fill channel. *)
Lemma fill_channel_inv element index :
  element ∈ els ->
  preserves (fill_inv view B Bo els ds ev0)
    (fillColor <- generateRandomColor this h ;;
     applyColorToElement element "fill" fillColor ;;
     emit (ColorApplied element "fill" fillColor index)).
Proof.
  intros Hel. apply preserves_bind; [ apply fill_sample | intros c ].
  apply preserves_bind; [ apply fill_write, Hel | intros _ ].
  apply fill_emit. reflexivity.
Qed.

(** The stroke channel without independent colours, when nothing binds
    [fillColor] around the class: the exception comes before anything is
    written. *)
Lemma stroke_channel_inv element index :
  preserves (fill_inv view B Bo els ds ev0)
    (strokeColor <-
       (fillColor <- outerFillColor h ;;
        if truthy fillColor then ret fillColor else generateRandomColor this h) ;;
     applyColorToElement element "stroke" strokeColor ;;
     emit (ColorApplied element "stroke" strokeColor index)).
Proof. intros s H. unfold bind, outerFillColor. rewrite unbound. exact H. Qed.

Lemma fill_colorPath count index :
  preserves (fill_inv view B Bo els ds ev0) (colorPath this h false els count index).
Proof.
  unfold colorPath. destruct (_ && _); [ | apply preserves_ret ].
  destruct (els !! Z.to_nat index) as [element | ] eqn:E; [ | apply preserves_throw ].
  assert (element ∈ els) as Hin by (eapply list_elem_of_lookup_2, E).
  apply preserves_bind; [ apply preserves_gets | intros d ].
  apply preserves_bind.
  { destruct (shouldProcessElementColor this d element "fill"); [ | apply preserves_ret ].
    apply fill_channel_inv, Hin. }
  intros _. apply preserves_bind; [ | intros _; apply preserves_ret ].
  destruct (shouldProcessElementColor this d element "stroke"); [ | apply preserves_ret ].
  apply stroke_channel_inv.
Qed.

Variable dp : path.
Hypothesis view_append : forall g t, view (update (appendTo g) dp t) = view t.
Hypothesis dependent : independentColors (cfg this) = false.

Lemma fill_gradient id :
  preserves (fill_inv view B Bo els ds ev0)
    (gradientData <- generateRandomGradient this h id ;;
     modify (fun s => set_svg (update (appendTo gradientData.1) dp (svg (document s))) s) ;;
     ret (Some gradientData.2)).
Proof.
  intros s (H1 & H2 & H3 & H4 & H5). unfold bind at 1. rewrite generateRandomGradient_run.
  cbn -[update appendTo gradientElement querySelectorAll bleach].
  split; [ | split; [ exact H2 | split; [ | split; [ | exact H5 ] ] ] ];
    change (svg (document (set_svg ?x ?y))) with x.
  - rewrite view_append. exact H1.
  - rewrite querySelectorAll_update_append; [ exact H3 | ].
    apply gradient_unselected; reflexivity.
  - rewrite querySelectorAll_update_append; [ exact H4 | ].
    apply gradient_unselected; reflexivity.
Qed.

Lemma fill_colorElement svgId index element :
  element ∈ els ->
  preserves (fill_inv view B Bo els ds ev0) (colorElement this h svgId dp index element).
Proof.
  intros Hel. unfold colorElement. rewrite dependent.
  apply preserves_bind; [ apply preserves_gets | intros d ].
  apply preserves_bind.
  - destruct (shouldProcessElementColor this d element "fill"); [ | apply preserves_ret ].
    apply preserves_bind; [ intros s H; apply fill_counters, H | intros r ].
    destruct (negb _).
    + apply preserves_bind; [ apply fill_gradient | intros c ].
      apply preserves_bind; [ apply fill_write, Hel | intros _ ].
      apply fill_emit. reflexivity.
    + apply fill_channel_inv, Hel.
  - intros _.
    destruct (shouldProcessElementColor this d element "stroke"); [ | apply preserves_ret ].
    apply stroke_channel_inv.
Qed.

Lemma fill_elementLoop svgId (l : list (nat * path)) count :
  (forall x, x ∈ l -> x.2 ∈ els) ->
  preserves (fill_inv view B Bo els ds ev0) (elementLoop this h svgId dp l count).
Proof.
  intros Hl. apply preserves_foldM. intros b [index element] Hx.
  apply preserves_try_catch.
  - apply preserves_bind; [ apply fill_colorElement, (Hl _ Hx) | intros _; apply preserves_ret ].
  - intros e. apply preserves_bind; [ | intros _; apply preserves_ret ].
    apply fill_emit. exact I.
Qed.
End FillOnly.

Lemma fill_inv_start view s :
  fill_inv view (bleach fillKeys (view (svg (document s))))
    (bleachOuter fillKeys <$> outer (document s))
    (querySelectorAll paintable (svg (document s)))
    (querySelectorAll is_defs (svg (document s))) (events s) s.
Proof. repeat split. exists []. rewrite app_nil_r. auto. Qed.

Lemma colorPass_dependent this h svgId s :
  fillColorBinding h = None ->
  independentColors (cfg this) = false ->
  let s' := (colorPass this h svgId s).2 in
  (exists evs, events s' = events s ++ evs /\ Forall fillOnly evs) /\
  bleach fillKeys (withoutDefs (svg (document s'))) =
    bleach fillKeys (withoutDefs (svg (document s))) /\
  bleachOuter fillKeys <$> outer (document s') = bleachOuter fillKeys <$> outer (document s).
Proof.
  intros Hunb Hdep. cbv zeta. unfold colorPass. cbv zeta.
  destruct (bool_decide (length (querySelectorAll paintable (svg (document s))) = 0))
    eqn:Hlen.
  { split; [ exists []; rewrite app_nil_r; auto | auto ]. }
  assert (exists t a ch, svg (document s) = Elem t a ch) as (t & a & ch & Hsvg).
  { destruct (svg (document s)) as [t a ch | data]; [ eauto | discriminate ]. }
  unfold passStart.
  destruct (querySelector is_defs (svg (document s))) as [dp | ] eqn:Hd.
  - destruct (querySelector_valid _ _ _ Hd) as (Hdp & _).
    pose proof (fill_inv_start (remove dp) s) as Hinv.
    eapply (preserves_bind _ _ (fun processedCount =>
              (emit (Complete processedCount _) ;; ret true)%js)) in Hinv.
    + destruct Hinv as (H1 & H2 & _ & H4 & H5).
      split; [ exact H5 | ]. split; [ | exact H2 ].
      unfold withoutDefs, querySelector. rewrite H4.
      fold (querySelector is_defs (svg (document s))). rewrite Hd. exact H1.
    + apply (fill_elementLoop this h (remove dp) _ _ _ _ _ (bleach_remove fillKeys dp) Hunb dp).
      * intros g t'. apply remove_update, Hdp.
      * exact Hdep.
      * apply indexed_elem_of.
    + intros n. apply preserves_bind; [ | intros _; apply preserves_ret ].
      apply fill_emit. exact I.
  - set (t0c := insertFirst newDefs (svg (document s))).
    assert (querySelector is_defs t0c = Some [0]) as Hd0.
    { unfold t0c. rewrite Hsvg. apply querySelector_defs_first. reflexivity. }
    pose proof (fill_inv_start (remove [0]) (set_svg t0c s)) as Hinv.
    change (svg (document (set_svg t0c s))) with t0c in Hinv.
    eapply (preserves_bind _ _ (fun processedCount =>
              (emit (Complete processedCount _) ;; ret true)%js)) in Hinv.
    + destruct Hinv as (H1 & H2 & _ & H4 & H5).
      split; [ exact H5 | ]. split; [ | exact H2 ].
      unfold withoutDefs at 1, querySelector. rewrite H4.
      fold (querySelector is_defs t0c). rewrite Hd0, H1.
      unfold withoutDefs. rewrite Hd. unfold t0c. rewrite Hsvg. reflexivity.
    + apply (fill_elementLoop this h (remove [0]) _ _ _ _ _ (bleach_remove fillKeys [0]) Hunb
               [0]).
      * intros g t'. apply remove_update. discriminate.
      * exact Hdep.
      * intros x Hx. apply indexed_elem_of in Hx. unfold t0c.
        rewrite querySelectorAll_insertFirst by reflexivity. exact Hx.
    + intros n. apply preserves_bind; [ | intros _; apply preserves_ret ].
      apply fill_emit. exact I.
Qed.

Lemma target_cases s :
  (forall t a ch, svg (document s) = Elem t a ch -> toLowerCase t <> "svg") \/
  exists t a ch, svg (document s) = Elem t a ch /\ toLowerCase t = "svg".
Proof.
  destruct (svg (document s)) as [t a ch | data]; [ | left; discriminate ].
  destruct (decide (toLowerCase t = "svg")) as [Htag | Htag]; [ right; eauto | ].
  left. intros t' a' ch' [= <- _ _]. exact Htag.
Qed.

Lemma applyRandomColors_refused this h s :
  (forall t a ch, svg (document s) = Elem t a ch -> toLowerCase t <> "svg") ->
  exists e,
    applyRandomColors this h s =
      (Return false,
       mkState (svgStates s) (document s) (events s ++ [ErrorEvent e [] None])
         (randomCalls s) (nowCalls s)).
Proof.
  intros Hbad. unfold applyRandomColors, try_catch, bind at 1, gets at 1, id. cbv beta iota.
  destruct (svg (document s)) as [t a ch | data] eqn:Hsvg.
  - rewrite bool_decide_eq_false_2 by (apply (Hbad t a ch eq_refl)). eexists. reflexivity.
  - eexists. reflexivity.
Qed.

(** Without independent colours, and when nothing around the class
    binds the name [fillColor], no colour is ever applied to [stroke]:
    with [independentColors] set to [false] in the configuration,
    [applyRandomColors] emits no [colorApplied] event for [stroke] and
    changes no attribute but [fill], the first [defs] element apart; with
    [independentColors: false] among its options the same holds for
    [applyRandomPathColors]. *)
Theorem dependent_colors this h options s :
  fillColorBinding h = None ->
  (independentColors (cfg this) = false ->
   let s' := (applyRandomColors this h s).2 in
   (exists evs, events s' = events s ++ evs /\ Forall fillOnly evs) /\
   bleach fillKeys (withoutDefs (svg (document s'))) =
     bleach fillKeys (withoutDefs (svg (document s))) /\
   bleachOuter fillKeys <$> outer (document s') =
     bleachOuter fillKeys <$> outer (document s)) /\
  (opt_independentColors options = Some false ->
   let s' := (applyRandomPathColors this h options s).2 in
   (exists evs, events s' = events s ++ evs /\ Forall fillOnly evs) /\
   bleach fillKeys (svg (document s')) = bleach fillKeys (svg (document s)) /\
   bleachOuter fillKeys <$> outer (document s') =
     bleachOuter fillKeys <$> outer (document s)).
Proof.
  intros Hunb. split.
  - intros Hdep. cbv zeta.
    destruct (target_cases s) as [Hbad | (t & a & ch & Hsvg & Htag)].
    + destruct (applyRandomColors_refused this h s Hbad) as (e & ->). simpl.
      split; [ exists [ErrorEvent e [] None]; split; [ | repeat constructor ] | ]; auto.
    + rewrite (applyRandomColors_colorPass this h s t a ch Hsvg Htag).
      destruct (afterSave_spec h s) as (Hdoc & Hev & _).
      destruct (colorPass_dependent this h (svgIdOf h s) (afterSave h s) Hunb Hdep)
        as (Hevs & Ht & Ho).
      rewrite Hdoc, ?Hev in *. auto.
  - intros Hopt. cbv zeta.
    assert (fill_inv (fun t => t) (bleach fillKeys (svg (document s)))
              (bleachOuter fillKeys <$> outer (document s))
              (querySelectorAll paintable (svg (document s)))
              (querySelectorAll is_defs (svg (document s))) (events s)
              (applyRandomPathColors this h options s).2) as (H1 & H2 & _ & _ & H5);
      [ | auto ].
    pose proof (fill_inv_start (fun t => t) s) as Hinv.
    unfold applyRandomPathColors, try_catch. rewrite Hopt.
    unfold bind at 1, gets at 1, id. cbv beta iota zeta.
    destruct (svg (document s)) as [t a ch | data] eqn:Hsvg.
    2:{ apply (fill_frame _ _ _ _ _ _ s); [ | exact Hinv ].
        exists [ErrorEvent TypeError [] None]. split; [ reflexivity | repeat constructor ]. }
    destruct (bool_decide _); [ exact Hinv | ].
    assert (preserves
              (fill_inv (fun t => t) (bleach fillKeys (Elem t a ch))
                 (bleachOuter fillKeys <$> outer (document s))
                 (querySelectorAll paintable (Elem t a ch))
                 (querySelectorAll is_defs (Elem t a ch)) (events s))
              (foldM (colorPath this h false (querySelectorAll paintable (Elem t a ch)))
                 (default (map Z.of_nat
                             (seq 0 (length (querySelectorAll paintable (Elem t a ch)))))
                    (pathIndices options)) 0)) as Hloop.
    { apply preserves_foldM. intros b x _. apply fill_colorPath; [ reflexivity | exact Hunb ]. }
    specialize (Hloop s Hinv). unfold bind at 1. simpl default at 1.
    destruct (foldM _ _ _ s) as [[n | e] s1]; cbn [snd] in Hloop;
      pose proof Hloop as (_ & _ & _ & _ & evs & Hev & Hall);
      apply (fill_frame _ _ _ _ _ _ s1); try exact Hloop.
    + eexists (evs ++ [_]). split; [ rewrite Hev, app_assoc; reflexivity | ].
      apply Forall_app. split; [ exact Hall | repeat constructor ].
    + eexists (evs ++ [_]). split; [ rewrite Hev, app_assoc; reflexivity | ].
      apply Forall_app. split; [ exact Hall | repeat constructor ].
Qed.

(** ** The further properties at concrete inputs *)

Lemma getColorState_counts_witness :
  let s := stateOf [] gradientSvg in
  exists cs,
    getColorState s = (Return (Some cs), s) /\
    totalElements cs = 3 /\ fillElements cs = 1 /\ strokeElements cs = 1 /\
    gradientElements cs = 2 /\ inheritedElements cs = 2 /\
    ec_hasFill <$> cs_elements cs = [FBool true; FNull; FBool false].
Proof.
  cbv zeta.
  destruct (proj1 (getColorState_counts (stateOf [] gradientSvg)) "svg"
              (attrsOf gradientSvg) _ eq_refl) as (cs & Hrun & Hel & Htot & Hf & Hs & Hg & Hi).
  exists cs. split; [ exact Hrun | ].
  rewrite Htot, Hf, Hs, Hg, Hi, Hel. vm_compute. auto 10.
Defined.

Lemma getColorState_bounds_witness :
  let s := stateOf [] gradientSvg in
  exists cs,
    getColorState s = (Return (Some cs), s) /\
    fillElements cs <= totalElements cs /\
    strokeElements cs <= totalElements cs /\
    gradientElements cs <= totalElements cs /\
    inheritedElements cs <= totalElements cs /\
    gradientElements cs <= fillElements cs + strokeElements cs.
Proof.
  cbv zeta. eexists. split; [ reflexivity | ].
  apply (getColorState_bounds (stateOf [] gradientSvg)). reflexivity.
Defined.

(** [listeners_emit_dispatch] with three listeners under [complete]: when
    they leave the registry alone the three are called in order; when
    the first unregisters itself the second is skipped. *)
Lemma listeners_emit_dispatch_witness :
  let m : Listeners.eventListeners := {[ "complete" := [1; 2; 3] ]} in
  let s := stateOf [] iconSvg in
  let quiet := Listeners.emitLive signingCall (fun _ _ => []) m "complete" (Complete 1 1) s in
  let leaving := Listeners.emitLive signingCall leavingCalls m "complete" (Complete 1 1) s in
  quiet.1 = Return m /\
  events quiet.2 = [Reset "1"; Reset "2"; Reset "3"] /\
  events (Listeners.emit recordingCall m "complete" (Complete 1 1) s).2 =
    [Complete 1 1; Complete 1 1; Complete 1 1] /\
  Listeners.emitLive signingCall leavingCalls m "reset" (Reset "icon") s = (Return m, s) /\
  leaving.1 = Return (<["complete" := [2; 3]]> m) /\
  events leaving.2 = [Reset "1"; Reset "3"].
Proof.
  cbv zeta.
  destruct (listeners_emit_dispatch signingCall (fun _ _ => [])
              {[ "complete" := [1; 2; 3] ]} "complete" (Complete 1 1) (stateOf [] iconSvg))
    as (Hquiet & _ & _).
  destruct (Hquiet (fun _ _ => eq_refl)) as [-> _].
  destruct (listeners_emit_dispatch recordingCall (fun _ _ => [])
              {[ "complete" := [1; 2; 3] ]} "complete" (Complete 1 1) (stateOf [] iconSvg))
    as (Hplain & _ & _).
  destruct (Hplain (fun _ _ => eq_refl)) as [_ ->].
  destruct (listeners_emit_dispatch signingCall leavingCalls
              {[ "complete" := [1; 2; 3] ]} "reset" (Reset "icon") (stateOf [] iconSvg))
    as (_ & Hnone & _).
  rewrite (Hnone eq_refl).
  destruct (listeners_emit_dispatch signingCall leavingCalls
              {[ "complete" := [1; 2; 3] ]} "complete" (Complete 1 1) (stateOf [] iconSvg))
    as (_ & _ & Hleave).
  rewrite (Hleave 1 2 [3] eq_refl eq_refl).
  - repeat split; vm_compute; reflexivity.
  - intros l Hl. apply list_elem_of_singleton in Hl as ->. reflexivity.
Defined.


Lemma listeners_off_witness :
  let m : Listeners.eventListeners := {[ "complete" := [1; 2; 1] ]} in
  Listeners.off "complete" 2 m = {[ "complete" := [1; 1] ]} /\
  Listeners.off "complete" 1 m = {[ "complete" := [2; 1] ]} /\
  Listeners.off "complete" 3 m = m /\
  Listeners.off "reset" 1 m = m.
Proof.
  cbv zeta. split; [ | split; [ | split ] ].
  - rewrite (proj2 (listeners_off "complete" 2 _) [1] [1]).
    + apply insert_singleton_eq.
    + apply lookup_singleton_eq.
    + apply not_elem_of_cons. split; [ discriminate | apply not_elem_of_nil ].
  - rewrite (proj2 (listeners_off "complete" 1 _) [] [2; 1]).
    + apply insert_singleton_eq.
    + apply lookup_singleton_eq.
    + apply not_elem_of_nil.
  - apply (proj1 (listeners_off "complete" 3 _)). rewrite lookup_singleton_eq. simpl.
    rewrite !not_elem_of_cons. repeat split; try discriminate. apply not_elem_of_nil.
  - apply (proj1 (listeners_off "reset" 1 _)). rewrite lookup_singleton_ne by discriminate.
    apply not_elem_of_nil.
Defined.

Lemma listeners_on_off_witness :
  Listeners.off "reset" 7 (Listeners.on "reset" 7 ∅) = {[ "reset" := [] ]} /\
  Listeners.off "reset" 7 (Listeners.on "reset" 7 {[ "reset" := [7; 8] ]}) =
    {[ "reset" := [8; 7] ]}.
Proof.
  split.
  - rewrite (proj1 (listeners_on_off "reset" 7 ∅)).
    + reflexivity.
    + rewrite lookup_empty. apply not_elem_of_nil.
  - rewrite (proj2 (listeners_on_off "reset" 7 _) [] [8]).
    + apply insert_singleton_eq.
    + apply lookup_singleton_eq.
    + apply not_elem_of_nil.
Defined.

Lemma applyRandomColors_independent_witness :
  let s := stateOf [] iconSvg in
  exists s' evs,
    applyRandomColors gradientColorizer steadyHost s = (Return true, s') /\
    events s' = events s ++ evs ++ [Complete 3 3] /\
    Forall isColorApplied evs.
Proof.
  apply (applyRandomColors_independent gradientColorizer steadyHost (stateOf [] iconSvg)
           "svg" (attrsOf iconSvg) _ eq_refl eq_refl).
  - vm_compute. discriminate.
  - reflexivity.
  - reflexivity.
  - reflexivity.
Defined.

Lemma nothing_to_color_witness :
  let s := stateOf [] emptySvg in
  applyRandomPathColors defaultColorizer steadyHost (mkPathOptions None None) s =
    (Return false, s) /\
  exists s',
    applyRandomColors defaultColorizer steadyHost s = (Return false, s') /\
    document s' = document s /\ events s' = events s /\
    svgStates s' = {[ "e" := snapshotOf (document s) ]}.
Proof.
  cbv zeta.
  destruct (nothing_to_color defaultColorizer steadyHost (mkPathOptions None None)
              (stateOf [] emptySvg) "svg" (attrsOf emptySvg) _ eq_refl eq_refl)
    as [Hpath Happly].
  split; [ exact Hpath | ].
  destruct (Happly eq_refl) as (s' & Hrun & Hdoc & Hev & Hst).
  exists s'. repeat split; assumption.
Defined.

Lemma rejecting_filter_witness :
  let s := stateOf [] linearSvg in
  exists s',
    applyRandomColors (setElementFilter (Some (fun _ _ => false)) defaultColorizer)
      steadyHost s = (Return true, s') /\
    events s' = events s ++ [Complete 2 2] /\
    outer (document s') = outer (document s) /\
    svg (document s') = insertFirst newDefs linearSvg.
Proof.
  apply (rejecting_filter defaultColorizer steadyHost (fun _ _ => false) (stateOf [] linearSvg)
           "svg" (attrsOf linearSvg) _ eq_refl eq_refl).
  - vm_compute. discriminate.
  - reflexivity.
Defined.

Lemma reset_after_calls_witness :
  let s := stateOf [("g", attrsFrom [("fill", "#333")])] lineIconSvg in
  let calls :=
    [ ApplyPathColors defaultColorizer steadyHost (mkPathOptions (Some [1; 7]%Z) (Some false));
      ApplyColors dependentColorizer tickingHost;
      ApplyPathColors fillingColorizer steadyHost (mkPathOptions None None) ] in
  let r := resetColors (runAll (ApplyColors gradientColorizer tickingHost :: calls) s) in
  r.1 = Return true /\
  svg (document r.2) = defsFirst (svg (document s)) /\
  (querySelector is_defs (svg (document s)) = None ->
   svg (document r.2) = svg (document s)).
Proof.
  apply (reset_after_calls gradientColorizer tickingHost _
           (stateOf [("g", attrsFrom [("fill", "#333")])] lineIconSvg)
           "svg" (attrsOf lineIconSvg) _ eq_refl eq_refl).
  - vm_compute. discriminate.
  - reflexivity.
Defined.

Lemma applyRandomPathColors_colors_witness :
  let s := stateOf [] linearSvg in
  exists s' evs,
    applyRandomPathColors defaultColorizer steadyHost (mkPathOptions None None) s =
      (Return true, s') /\
    events s' = events s ++ evs ++ [Complete 2 2] /\
    Forall (appliesOnly (fun color =>
              exists c, c ∈ colorPalette (cfg defaultColorizer) /\ color = Some c)) evs.
Proof.
  cbv zeta.
  destruct (applyRandomPathColors_colors defaultColorizer steadyHost (mkPathOptions None None)
              (stateOf [] linearSvg)) as (s' & evs & Hrun & Hev & Hall & Hcount).
  - vm_compute. discriminate.
  - reflexivity.
  - reflexivity.
  - reflexivity.
  - discriminate.
  - reflexivity.
  - intros n. split; [ split; vm_compute; reflexivity | ].
    split; [ vm_compute; discriminate | reflexivity ].
  - exists s', evs. split; [ exact Hrun | ]. split; [ | exact Hall ].
    destruct (Hcount eq_refl) as [H1 H2]. rewrite Hev, H1, H2. reflexivity.
Defined.


Lemma snapshot_store_witness :
  let s := stateOf [] outlinedSvg in
  svgStates (applyRandomColors defaultColorizer steadyHost s).2 =
    {[ "a" := snapshotOf (document s) ]} /\
  svgStates (applyRandomColors defaultColorizer steadyHost
               (stateOf [] (Elem "div" ∅ [ Elem "path" ∅ [] ]))).2 = ∅.
Proof.
  cbv zeta. split.
  - rewrite (proj1 (snapshot_store defaultColorizer steadyHost (mkPathOptions None None) ∅
                      (stateOf [] outlinedSvg)) "svg" (attrsOf outlinedSvg) _ eq_refl eq_refl).
    reflexivity.
  - apply (proj1 (proj2 (snapshot_store defaultColorizer steadyHost (mkPathOptions None None) ∅
                           (stateOf [] (Elem "div" ∅ [ Elem "path" ∅ [] ]))))).
    intros t a ch [= <- _ _]. discriminate.
Defined.

(** [dependent_colors] on [<path fill="red" stroke="#000"/>]; on a page
    that binds [fillColor] to an element the stroke is written. *)
Lemma dependent_colors_witness :
  let s := stateOf [] outlinedSvg in
  fillColorBinding steadyHost = None /\
  independentColors (cfg dependentColorizer) = false /\
  (exists evs,
     events (applyRandomColors dependentColorizer steadyHost s).2 = events s ++ evs /\
     Forall fillOnly evs) /\
  (exists evs,
     events (applyRandomPathColors defaultColorizer steadyHost
               (mkPathOptions None (Some false)) s).2 = events s ++ evs /\
     Forall fillOnly evs) /\
  events (applyRandomColors dependentColorizer namedHost s).2 =
    [ ColorApplied [1] "fill" (Some "#10ac84") None;
      ColorApplied [1] "stroke" (Some "[object HTMLDivElement]") None;
      Complete 1 1 ].
Proof.
  cbv zeta.
  destruct (dependent_colors dependentColorizer steadyHost (mkPathOptions None (Some false))
              (stateOf [] outlinedSvg) eq_refl) as [Happly _].
  destruct (dependent_colors defaultColorizer steadyHost (mkPathOptions None (Some false))
              (stateOf [] outlinedSvg) eq_refl) as [_ Hpath].
  split; [ reflexivity | ]. split; [ reflexivity | ]. split; [ | split ].
  - apply (Happly eq_refl).
  - apply (Hpath eq_refl).
  - vm_compute. reflexivity.
Defined.
